(** * vidstack/elements: request queuing and media-state synchronisation

    A shallow embedding of the request-queue and media-context logic of the
    media provider elements, of the store subscription helper and of the HLS
    provider's [canPlayType], with the properties the specification states
    about them.

    - [JsMap]: a JavaScript [Map] keyed by strings (insertion ordered).
    - [CoreProvider]: [src/core/provider/MediaProviderElement.ts], the
      provider that owns its request queue as a [Map] and a deferred promise.
    - [RequestQueue]: the [RequestQueue] class the later provider uses.
    - [MediaProvider]: [src/media/provider/MediaProviderElement.ts].
    - [Stores]: writable / derived stores and [hostedStoreSubscription].
    - [Hls]: [HlsElement.canPlayType]. *)

From stdpp Require Import gmap strings list.

Set Warnings "-clear-no-such-hyp".

(** ** Values held by the media context and thrown by requests *)

(** JavaScript values as far as the modelled code looks at them: they are
    stored, copied and compared, never computed on.  Numbers are kept as
    thousandths (volume 0.5 is [VNum 500]); [NaN] is a value of its own. *)
Inductive value :=
| VUndefined
| VBool (b : bool)
| VNaN
| VNum (thousandths : Z)
| VStr (s : string)
| VTimeRanges (ranges : list (Z * Z))
| VThrown (tag : nat).

#[global] Instance value_eq_dec : EqDecision value.
Proof. solve_decision. Defined.

(** JavaScript truthiness, as used by [if (!this.canPlay)]. *)
Definition truthy (v : value) : bool :=
  match v with
  | VUndefined => false
  | VBool b => b
  | VNaN => false
  | VNum n => negb (Z.eqb n 0)
  | VStr s => negb (String.eqb s "")
  | VTimeRanges _ => true
  | VThrown _ => true
  end.

(** Reading a property of an object: a missing property reads [undefined]. *)
Definition prop (o : gmap string value) (name : string) : value :=
  default VUndefined (o !! name).

(** ** JavaScript [Map] with string keys

    A [Map] iterates in insertion order; [set] on a key that is present
    replaces the value and keeps the key's position; [delete] removes the
    entry.  The association list holds the entries in iteration order. *)
Module JsMap.
Section JsMap.
Context {V : Type}.

Fixpoint get (k : string) (m : list (string * V)) : option V :=
  match m with
  | [] => None
  | (k', v) :: m' => if decide (k = k') then Some v else get k m'
  end.

Definition has (k : string) (m : list (string * V)) : bool :=
  bool_decide (is_Some (get k m)).

Fixpoint set (k : string) (v : V) (m : list (string * V)) : list (string * V) :=
  match m with
  | [] => [(k, v)]
  | (k', v') :: m' =>
      if decide (k = k') then (k, v) :: m' else (k', v') :: set k v m'
  end.

Fixpoint delete (k : string) (m : list (string * V)) : list (string * V) :=
  match m with
  | [] => []
  | (k', v') :: m' =>
      if decide (k = k') then delete k m' else (k', v') :: delete k m'
  end.

Definition keys (m : list (string * V)) : list string := m.*1.

Definition size (m : list (string * V)) : nat := length m.

Definition clear (m : list (string * V)) : list (string * V) := [].

(** A well-formed map holds each key once. *)
Definition wf (m : list (string * V)) : Prop := NoDup (keys m).

Lemma keys_set_in k v m : k ∈ keys m → keys (set k v m) = keys m.
Proof.
  unfold keys. induction m as [|[k' v'] m IH]; csimpl.
  - intros H. by apply elem_of_nil in H.
  - intros H. destruct (decide (k = k')) as [->|Hne]; csimpl; [done|].
    apply elem_of_cons in H as [H|H]; [done|]. by rewrite IH.
Qed.

Lemma set_fresh k v m : k ∉ keys m → set k v m = m ++ [(k, v)].
Proof.
  unfold keys. induction m as [|[k' v'] m IH]; csimpl; [done|].
  intros H. apply not_elem_of_cons in H as [Hne H].
  destruct (decide (k = k')); [done|]. by rewrite IH.
Qed.

Lemma keys_set_fresh k v m : k ∉ keys m → keys (set k v m) = keys m ++ [k].
Proof. intros H. rewrite set_fresh by done. unfold keys. by rewrite fmap_app. Qed.

Lemma elem_of_keys_set k k' v m :
  k' ∈ keys (set k v m) ↔ k' = k ∨ k' ∈ keys m.
Proof.
  destruct (decide (k ∈ keys m)) as [Hin|Hout].
  - rewrite keys_set_in by done. split; [by right|]. by intros [->|?].
  - rewrite keys_set_fresh by done. rewrite elem_of_app, list_elem_of_singleton.
    tauto.
Qed.

Lemma wf_set k v m : wf m → wf (set k v m).
Proof.
  unfold wf. intros Hwf. destruct (decide (k ∈ keys m)) as [Hin|Hout].
  - by rewrite keys_set_in.
  - rewrite keys_set_fresh by done. apply NoDup_app. split; [done|].
    split; [|apply NoDup_singleton].
    intros x Hx Hk. apply list_elem_of_singleton in Hk. by subst.
Qed.

Lemma elem_of_keys_delete k k' m :
  k' ∈ keys (delete k m) ↔ k' ≠ k ∧ k' ∈ keys m.
Proof.
  unfold keys. induction m as [|[k0 v0] m IH]; csimpl.
  - split; [intros H; by apply elem_of_nil in H|intros [_ H]; by apply elem_of_nil in H].
  - destruct (decide (k = k0)) as [->|Hne]; csimpl.
    + rewrite IH, elem_of_cons. naive_solver.
    + rewrite !elem_of_cons, IH. naive_solver.
Qed.

Lemma wf_delete k m : wf m → wf (delete k m).
Proof.
  unfold wf, keys. induction m as [|[k0 v0] m IH]; csimpl; [done|].
  intros Hnd. apply NoDup_cons in Hnd as [Hk0 Hnd].
  destruct (decide (k = k0)); csimpl; [by apply IH|].
  apply NoDup_cons. split; [|by apply IH].
  intros Hin. apply Hk0. by apply (elem_of_keys_delete k k0 m) in Hin as [_ ?].
Qed.

Lemma get_set_eq k v m : get k (set k v m) = Some v.
Proof.
  induction m as [|[k' v'] m IH]; csimpl.
  - by rewrite decide_True.
  - destruct (decide (k = k')) as [->|Hne]; csimpl.
    + by rewrite decide_True.
    + by rewrite decide_False.
Qed.


Lemma get_delete_eq k m : get k (delete k m) = None.
Proof.
  induction m as [|[k' v'] m IH]; csimpl; [done|].
  destruct (decide (k = k')) as [->|Hne]; csimpl; [done|].
  by rewrite decide_False.
Qed.

Lemma get_delete_ne k k' m : k' ≠ k → get k' (delete k m) = get k' m.
Proof.
  intros Hne. induction m as [|[k0 v0] m IH]; csimpl; [done|].
  destruct (decide (k = k0)) as [->|Hne0]; csimpl.
  - by rewrite decide_False.
  - by destruct (decide (k' = k0)).
Qed.

Lemma get_None k m : get k m = None ↔ k ∉ keys m.
Proof.
  unfold keys. induction m as [|[k' v'] m IH]; csimpl.
  - split; [intros _; apply not_elem_of_nil|done].
  - rewrite not_elem_of_cons. destruct (decide (k = k')); naive_solver.
Qed.

Lemma delete_fresh k m : k ∉ keys m → delete k m = m.
Proof.
  unfold keys. induction m as [|[k' v'] m IH]; csimpl; [done|].
  intros H. apply not_elem_of_cons in H as [Hne H].
  rewrite decide_False by done. by rewrite IH.
Qed.

Lemma get_elem_of k v m : wf m → (k, v) ∈ m ↔ get k m = Some v.
Proof.
  unfold wf, keys. induction m as [|[k' v'] m IH]; csimpl.
  - intros _. split; [intros H; by apply elem_of_nil in H|done].
  - intros Hnd. apply NoDup_cons in Hnd as [Hk' Hnd].
    rewrite elem_of_cons, IH by done.
    destruct (decide (k = k')) as [->|Hne].
    + split; [|naive_solver]. intros [[= ->]|Hg]; [done|].
      exfalso. apply Hk'. apply (get_None k' m) in Hk'. congruence.
    + naive_solver.
Qed.

End JsMap.
End JsMap.

(** ** Requests

    A request is a closure [() => void | Promise<void>].  The model keeps
    its identity and what a call to it does as far as the caller can see:
    it returns [undefined], it throws, or it returns a promise that the
    engine settles later. *)
Inductive behaviour :=
| Returns
| Throws (e : value)
| ReturnsPromise.

Record action := Action { act_id : nat; act_does : behaviour }.

#[global] Instance behaviour_eq_dec : EqDecision behaviour.
Proof. solve_decision. Defined.

#[global] Instance action_eq_dec : EqDecision action.
Proof. solve_decision. Defined.

(** * The provider of [src/core/provider/MediaProviderElement.ts] *)
Module CoreProvider.

Inductive event :=
| VdsErrorEvent (detail : value)
| VdsViewTypeChangeEvent (detail : value)
| VdsDisconnectEvent.

(** A promise is pending (absent from the table) or settled. *)
Inductive settlement :=
| Fulfilled
| Rejected (reason : value).

#[global] Instance settlement_eq_dec : EqDecision settlement.
Proof. solve_decision. Defined.

(** An [async] method suspended at its [await]: what it waits for and what
    it still has to run.  Each is stored under the promise its call
    returned. *)
Inductive continuation :=
| SafelyMakeRequestK (requestKey : string) (awaited : option nat)
| FlushRequestQueueK (all : list nat)
| WaitForRequestQueueToFlushK (awaited : nat).

(** One call of a request: the key it was served under, the request called
    and the promise it returned, if it returned one. *)
Record call := Call {
  call_key : string;
  call_action : nat;
  call_promise : option nat
}.

(** An entry of [mediaContext]: the default of the property and, for a
    derived context, its key. *)
Record Context := { defaultValue : value; key : option string }.

Record provider := Provider {
  (* protected requestQueue = new Map() *)
  requestQueue : list (string * action);
  (* protected pendingRequestQueueFlush = deferredPromise() *)
  pendingRequestQueueFlush : nat;
  (* readonly context *)
  context : gmap string value;
  (* what dispatchEvent was called with, oldest first *)
  dispatched : list event;
  (* the requests called, oldest first *)
  invoked : list call;
  (* calls of requestUpdate() *)
  updateRequests : nat;
  (* the settled promises *)
  promises : gmap nat settlement;
  (* the promises returned by requests: only the engine settles them *)
  enginePromises : gset nat;
  (* the next promise to allocate *)
  fresh : nat;
  (* the async calls suspended at an await, by the promise they returned *)
  suspended : gmap nat continuation
}.

Definition set_requestQueue (q : list (string * action)) (s : provider) : provider :=
  Provider q (pendingRequestQueueFlush s) (context s) (dispatched s) (invoked s)
    (updateRequests s) (promises s) (enginePromises s) (fresh s) (suspended s).

Definition set_pendingRequestQueueFlush (d : nat) (s : provider) : provider :=
  Provider (requestQueue s) d (context s) (dispatched s) (invoked s)
    (updateRequests s) (promises s) (enginePromises s) (fresh s) (suspended s).

Definition set_context (c : gmap string value) (s : provider) : provider :=
  Provider (requestQueue s) (pendingRequestQueueFlush s) c (dispatched s) (invoked s)
    (updateRequests s) (promises s) (enginePromises s) (fresh s) (suspended s).

Definition dispatchEvent (e : event) (s : provider) : provider :=
  Provider (requestQueue s) (pendingRequestQueueFlush s) (context s)
    (dispatched s ++ [e]) (invoked s)
    (updateRequests s) (promises s) (enginePromises s) (fresh s) (suspended s).

Definition record_call (c : call) (s : provider) : provider :=
  Provider (requestQueue s) (pendingRequestQueueFlush s) (context s)
    (dispatched s) (invoked s ++ [c])
    (updateRequests s) (promises s) (enginePromises s) (fresh s) (suspended s).

Definition requestUpdate (s : provider) : provider :=
  Provider (requestQueue s) (pendingRequestQueueFlush s) (context s)
    (dispatched s) (invoked s)
    (S (updateRequests s)) (promises s) (enginePromises s) (fresh s) (suspended s).

Definition set_promises (ps : gmap nat settlement) (s : provider) : provider :=
  Provider (requestQueue s) (pendingRequestQueueFlush s) (context s)
    (dispatched s) (invoked s)
    (updateRequests s) ps (enginePromises s) (fresh s) (suspended s).

Definition set_enginePromises (e : gset nat) (s : provider) : provider :=
  Provider (requestQueue s) (pendingRequestQueueFlush s) (context s)
    (dispatched s) (invoked s)
    (updateRequests s) (promises s) e (fresh s) (suspended s).

Definition set_fresh (n : nat) (s : provider) : provider :=
  Provider (requestQueue s) (pendingRequestQueueFlush s) (context s)
    (dispatched s) (invoked s)
    (updateRequests s) (promises s) (enginePromises s) n (suspended s).

Definition set_suspended (k : gmap nat continuation) (s : provider) : provider :=
  Provider (requestQueue s) (pendingRequestQueueFlush s) (context s)
    (dispatched s) (invoked s)
    (updateRequests s) (promises s) (enginePromises s) (fresh s) k.

(** *** Promises *)

(** [new Promise(...)]: a pending promise. *)
Definition new_promise (s : provider) : nat * provider :=
  (fresh s, set_fresh (S (fresh s)) s).

(** Settling a promise; a promise that is settled stays as it is, so
    [resolve()] on a deferred that was resolved before does nothing. *)
Definition settle (p : nat) (r : settlement) (s : provider) : provider :=
  match promises s !! p with
  | Some _ => s
  | None => set_promises (<[p := r]> (promises s)) s
  end.

(** An [await] inside the async call that returned [ret]. *)
Definition suspend (ret : nat) (k : continuation) (s : provider) : provider :=
  set_suspended (<[ret := k]> (suspended s)) s.

(** The async call that returned [ret] runs to its end. *)
Definition complete (ret : nat) (r : settlement) (s : provider) : provider :=
  settle ret r (set_suspended (delete ret (suspended s)) s).

(** [Promise.all]: rejected as soon as one of the promises is, fulfilled
    when all of them are, pending otherwise. *)
Fixpoint promise_all (ps : gmap nat settlement) (all : list nat) : option settlement :=
  match all with
  | [] => Some Fulfilled
  | p :: all' =>
      match ps !! p with
      | Some (Rejected e) => Some (Rejected e)
      | Some Fulfilled => promise_all ps all'
      | None =>
          match promise_all ps all' with
          | Some (Rejected e) => Some (Rejected e)
          | _ => None
          end
      end
  end.

(** *** Request queue *)

(** [get canPlay() { return this.context.canPlay; }] *)
Definition canPlay (s : provider) : value := prop (context s) "canPlay".

(** The [catch] block of [safelyMakeRequest]. *)
Definition catch_error (e : value) (s : provider) : provider :=
  dispatchEvent (VdsErrorEvent e) (set_context (<["error" := e]> (context s)) s).

(** The statements of [safelyMakeRequest] after its [try] statement. *)
Definition after_request (requestKey : string) (s : provider) : provider :=
  requestUpdate (set_requestQueue (JsMap.delete requestKey (requestQueue s)) s).

(** [safelyMakeRequest(requestKey)], up to its [await]: the request is
    called at once; a request that throws is handled without suspending. *)
Definition safelyMakeRequest (requestKey : string) (s : provider) : nat * provider :=
  let '(ret, s) := new_promise s in
  match JsMap.get requestKey (requestQueue s) with
  | None =>
      (* [undefined?.()] is [undefined] *)
      (ret, suspend ret (SafelyMakeRequestK requestKey None) s)
  | Some request =>
      match act_does request with
      | Returns =>
          let s := record_call (Call requestKey (act_id request) None) s in
          (ret, suspend ret (SafelyMakeRequestK requestKey None) s)
      | Throws e =>
          let s := record_call (Call requestKey (act_id request) None) s in
          (ret, complete ret Fulfilled (after_request requestKey (catch_error e s)))
      | ReturnsPromise =>
          let '(p, s) := new_promise s in
          let s := set_enginePromises ({[p]} ∪ enginePromises s) s in
          let s := record_call (Call requestKey (act_id request) (Some p)) s in
          (ret, suspend ret (SafelyMakeRequestK requestKey (Some p)) s)
      end
  end.

(** [makeRequest(requestKey, request)] *)
Definition makeRequest (requestKey : string) (request : action) (s : provider) : provider :=
  let s := set_requestQueue (JsMap.set requestKey request (requestQueue s)) s in
  if negb (truthy (canPlay s)) then s
  else
    let '(_, s) := safelyMakeRequest requestKey s in
    set_requestQueue (JsMap.delete requestKey (requestQueue s)) s.

(** [requests.map(reqKey => this.safelyMakeRequest(reqKey))] *)
Fixpoint safelyMakeRequests (requests : list string) (s : provider) : list nat * provider :=
  match requests with
  | [] => ([], s)
  | reqKey :: rest =>
      let '(p, s) := safelyMakeRequest reqKey s in
      let '(ps, s) := safelyMakeRequests rest s in
      (p :: ps, s)
  end.

(** [flushRequestQueue()], up to its [await Promise.all(...)]. *)
Definition flushRequestQueue (s : provider) : nat * provider :=
  let '(ret, s) := new_promise s in
  let requests := JsMap.keys (requestQueue s) in
  let '(all, s) := safelyMakeRequests requests s in
  (ret, suspend ret (FlushRequestQueueK all) s).

(** The statements of [flushRequestQueue] after its [await]. *)
Definition after_flush (s : provider) : provider :=
  let s := set_requestQueue (JsMap.clear (requestQueue s)) s in
  settle (pendingRequestQueueFlush s) Fulfilled s.

(** [resetRequestQueue()] *)
Definition resetRequestQueue (s : provider) : provider :=
  let s := set_requestQueue (JsMap.clear (requestQueue s)) s in
  let s := settle (pendingRequestQueueFlush s) Fulfilled s in
  let '(d, s) := new_promise s in
  set_pendingRequestQueueFlush d s.

(** [waitForRequestQueueToFlush()], up to its [await]. *)
Definition waitForRequestQueueToFlush (s : provider) : nat * provider :=
  let '(ret, s) := new_promise s in
  if truthy (canPlay s) then (ret, complete ret Fulfilled s)
  else (ret, suspend ret (WaitForRequestQueueToFlushK (pendingRequestQueueFlush s)) s).

(** The event loop resumes the async call that returned [ret], when what
    it awaits has settled. *)
Definition resume (ret : nat) (s : provider) : option provider :=
  match suspended s !! ret with
  | None => None
  | Some (SafelyMakeRequestK requestKey None) =>
      Some (complete ret Fulfilled (after_request requestKey s))
  | Some (SafelyMakeRequestK requestKey (Some p)) =>
      match promises s !! p with
      | None => None
      | Some Fulfilled =>
          Some (complete ret Fulfilled (after_request requestKey s))
      | Some (Rejected e) =>
          Some (complete ret Fulfilled (after_request requestKey (catch_error e s)))
      end
  | Some (FlushRequestQueueK all) =>
      match promise_all (promises s) all with
      | None => None
      | Some Fulfilled => Some (complete ret Fulfilled (after_flush s))
      | Some (Rejected e) => Some (complete ret (Rejected e) s)
      end
  | Some (WaitForRequestQueueToFlushK d) =>
      match promises s !! d with
      | None => None
      | Some r => Some (complete ret r s)
      end
  end.

(** The engine settles a promise that one of the requests returned. *)
Definition engine_settle (p : nat) (r : settlement) (s : provider) : option provider :=
  if decide (p ∈ enginePromises s ∧ promises s !! p = None)
  then Some (settle p r s) else None.

(** *** Media context *)
Section MediaContext.

(** The table [mediaContext] of [../media/media.context], in the order of
    [Object.keys]. *)
Variable mediaContext : list (string * Context).

(** [softResettableMediaCtxProps] *)
Definition softResettableMediaCtxProps : list string :=
  [ "buffered"; "buffering"; "canPlay"; "canPlayThrough"; "currentSrc";
    "currentTime"; "duration"; "ended"; "mediaType"; "paused"; "canPlay";
    "played"; "playing"; "seekable"; "seeking"; "started"; "waiting" ]%string.

(** [Object.keys(mediaContext).forEach(prop => ...)] of
    [softResetMediaContext]. *)
Fixpoint softReset (decls : list (string * Context)) (ctx : gmap string value) : gmap string value :=
  match decls with
  | [] => ctx
  | (name, decl) :: rest =>
      let ctx :=
        if bool_decide (name ∈ softResettableMediaCtxProps)
        then <[name := defaultValue decl]> ctx else ctx in
      softReset rest ctx
  end.

Definition softResetMediaContext (s : provider) : provider :=
  set_context (softReset mediaContext (context s)) s.

(** [Object.keys(mediaContext).forEach(prop => ...)] of
    [hardResetMediaContext]: derived contexts (those with a key) are skipped.
    The map holds what was assigned to the properties of the record; what a
    derived context reads is computed from the contexts it depends on and
    is not an entry of the map. *)
Fixpoint hardReset (decls : list (string * Context)) (ctx : gmap string value) : gmap string value :=
  match decls with
  | [] => ctx
  | (name, decl) :: rest =>
      let ctx :=
        match key decl with
        | None => <[name := defaultValue decl]> ctx
        | Some _ => ctx
        end in
      hardReset rest ctx
  end.

Definition hardResetMediaContext (s : provider) : provider :=
  set_context (hardReset mediaContext (context s)) s.

(** [ViewType.Unknown] *)
Definition ViewType_Unknown : value := VStr "unknown".

(** [disconnectedCallback()]; the screen-orientation and fullscreen
    controllers it tears down first hold no state of the queue or the
    context. *)
Definition disconnectedCallback (s : provider) : provider :=
  let s := resetRequestQueue s in
  let s := hardResetMediaContext s in
  let s := set_context (<["viewType" := ViewType_Unknown]> (context s)) s in
  let s := dispatchEvent (VdsViewTypeChangeEvent ViewType_Unknown) s in
  dispatchEvent VdsDisconnectEvent s.

(** *** Executions

    What happens to a provider: its methods are called, the handlers of
    engine events write context properties, the engine settles promises
    and the event loop resumes suspended calls. *)
Inductive op :=
| MakeRequest (requestKey : string) (request : action)
| FlushRequestQueue
| ResetRequestQueue
| WaitForRequestQueueToFlush
| SoftResetMediaContext
| HardResetMediaContext
| DisconnectedCallback
| SetContext (name : string) (v : value)
| Settle (p : nat) (r : settlement)
| Resume (ret : nat).

Definition exec (o : op) (s : provider) : option provider :=
  match o with
  | MakeRequest requestKey request => Some (makeRequest requestKey request s)
  | FlushRequestQueue => Some (flushRequestQueue s).2
  | ResetRequestQueue => Some (resetRequestQueue s)
  | WaitForRequestQueueToFlush => Some (waitForRequestQueueToFlush s).2
  | SoftResetMediaContext => Some (softResetMediaContext s)
  | HardResetMediaContext => Some (hardResetMediaContext s)
  | DisconnectedCallback => Some (disconnectedCallback s)
  | SetContext name v => Some (set_context (<[name := v]> (context s)) s)
  | Settle p r => engine_settle p r s
  | Resume ret => resume ret s
  end.

Fixpoint run (ops : list op) (s : provider) : option provider :=
  match ops with
  | [] => Some s
  | o :: rest =>
      match exec o s with
      | Some s' => run rest s'
      | None => None
      end
  end.

End MediaContext.

(** A provider as constructed, with the context [ctx]: promise 0 is the
    deferred of [pendingRequestQueueFlush]. *)
Definition init (ctx : gmap string value) : provider :=
  Provider [] 0 ctx [] [] 0 ∅ ∅ 1 ∅.

(** *** What a flush calls *)

(** A call as the pair of its key and its request. *)
Definition served (c : call) : string * nat := (call_key c, call_action c).

(** The calls made between the states [s] and [s']. *)
Definition calls_since (s s' : provider) : list call :=
  drop (length (invoked s)) (invoked s').

(** The call an entry of the queue gives rise to. *)
Definition entry_call (e : string * action) : string * nat := (e.1, act_id e.2).

(** Several [makeRequest] calls in a row. *)
Definition makeRequests (rs : list (string * action)) (s : provider) : provider :=
  foldl (λ s r, makeRequest r.1 r.2 s) s rs.

Lemma settle_fields p r s :
  requestQueue (settle p r s) = requestQueue s
  ∧ invoked (settle p r s) = invoked s
  ∧ context (settle p r s) = context s
  ∧ dispatched (settle p r s) = dispatched s
  ∧ suspended (settle p r s) = suspended s
  ∧ enginePromises (settle p r s) = enginePromises s
  ∧ fresh (settle p r s) = fresh s
  ∧ pendingRequestQueueFlush (settle p r s) = pendingRequestQueueFlush s.
Proof. unfold settle. by destruct (promises s !! p). Qed.

Lemma complete_fields ret r s :
  requestQueue (complete ret r s) = requestQueue s
  ∧ invoked (complete ret r s) = invoked s
  ∧ context (complete ret r s) = context s
  ∧ dispatched (complete ret r s) = dispatched s
  ∧ suspended (complete ret r s) = delete ret (suspended s)
  ∧ enginePromises (complete ret r s) = enginePromises s
  ∧ fresh (complete ret r s) = fresh s
  ∧ pendingRequestQueueFlush (complete ret r s) = pendingRequestQueueFlush s.
Proof. unfold complete. by destruct (settle_fields ret r
  (set_suspended (delete ret (suspended s)) s)) as (-> & -> & -> & -> & -> & -> & -> & ->). Qed.

(** [safelyMakeRequest] calls the request queued under its key, if there
    is one, and touches no other entry of the queue. *)
Lemma safelyMakeRequest_served requestKey s :
  served <$> invoked (safelyMakeRequest requestKey s).2 =
  (served <$> invoked s) ++
    match JsMap.get requestKey (requestQueue s) with
    | Some request => [(requestKey, act_id request)]
    | None => []
    end.
Proof.
  unfold safelyMakeRequest. simpl.
  destruct (JsMap.get requestKey (requestQueue s)) as [request|]; simpl.
  - destruct (act_does request); simpl;
      rewrite ?(proj1 (proj2 (complete_fields _ _ _))); simpl;
      by rewrite fmap_app.
  - by rewrite app_nil_r.
Qed.

Lemma safelyMakeRequest_get requestKey k s :
  k ≠ requestKey →
  JsMap.get k (requestQueue (safelyMakeRequest requestKey s).2) =
  JsMap.get k (requestQueue s).
Proof.
  intros Hne. unfold safelyMakeRequest. simpl.
  destruct (JsMap.get requestKey (requestQueue s)) as [request|]; simpl; [|done].
  destruct (act_does request); simpl; [done| |done].
  rewrite (proj1 (complete_fields _ _ _)). simpl. by apply JsMap.get_delete_ne.
Qed.

Lemma safelyMakeRequest_context_canPlay requestKey s :
  canPlay (safelyMakeRequest requestKey s).2 = canPlay s.
Proof.
  unfold safelyMakeRequest, canPlay, prop. simpl.
  destruct (JsMap.get requestKey (requestQueue s)) as [request|]; simpl; [|done].
  destruct (act_does request); simpl; [done| |done].
  rewrite (proj1 (proj2 (proj2 (complete_fields _ _ _)))). simpl.
  by rewrite lookup_insert_ne.
Qed.

(** The calls that serving the keys [requests] from the queue [q] makes. *)
Fixpoint calls_for (q : list (string * action)) (requests : list string) : list (string * nat) :=
  match requests with
  | [] => []
  | k :: rest =>
      match JsMap.get k q with
      | Some request => (k, act_id request) :: calls_for q rest
      | None => calls_for q rest
      end
  end.

Lemma calls_for_ext q q' requests :
  (∀ k, k ∈ requests → JsMap.get k q' = JsMap.get k q) →
  calls_for q' requests = calls_for q requests.
Proof.
  induction requests as [|k requests IH]; intros H; simpl; [done|].
  rewrite (H k) by apply elem_of_cons, or_introl, eq_refl.
  rewrite IH; [done|]. intros k' Hk'. apply H. by apply elem_of_cons, or_intror.
Qed.

Lemma safelyMakeRequests_served requests s :
  NoDup requests →
  served <$> invoked (safelyMakeRequests requests s).2 =
  (served <$> invoked s) ++ calls_for (requestQueue s) requests.
Proof.
  revert s. induction requests as [|k requests IH]; intros s Hnd.
  - simpl. by rewrite app_nil_r.
  - apply NoDup_cons in Hnd as [Hk Hnd].
    pose proof (safelyMakeRequest_served k s) as Hs.
    assert (calls_for (requestQueue (safelyMakeRequest k s).2) requests
            = calls_for (requestQueue s) requests) as Hext.
    { apply calls_for_ext. intros k' Hk'. apply safelyMakeRequest_get.
      intros ->. done. }
    specialize (IH (safelyMakeRequest k s).2 Hnd).
    cbn [safelyMakeRequests calls_for].
    destruct (safelyMakeRequest k s) as [p s1]. cbn [snd] in *.
    destruct (safelyMakeRequests requests s1) as [ps s2].
    cbn [snd] in *. rewrite IH, Hs, Hext, <- app_assoc. f_equal.
    by destruct (JsMap.get k (requestQueue s)).
Qed.

Lemma calls_for_keys (q : list (string * action)) :
  JsMap.wf q → calls_for q (JsMap.keys q) = entry_call <$> q.
Proof.
  unfold JsMap.wf, JsMap.keys.
  assert (∀ q0 : list (string * action),
            (∀ k a, (k, a) ∈ q → JsMap.get k q0 = Some a) →
            calls_for q0 q.*1 = entry_call <$> q) as Hgen.
  { intros q0. induction q as [|[k a] q IH]; intros Hq; csimpl; [done|].
    rewrite (Hq k a) by apply elem_of_cons, or_introl, eq_refl.
    f_equal. apply IH. intros k' a' Hin. apply Hq. by apply elem_of_cons, or_intror. }
  intros Hwf. apply Hgen. intros k a Hin. by apply JsMap.get_elem_of.
Qed.

(** [flushRequestQueue] calls every entry of the queue, once, in the order
    of the queue. *)
Lemma flushRequestQueue_served s :
  JsMap.wf (requestQueue s) →
  served <$> invoked (flushRequestQueue s).2 =
  (served <$> invoked s) ++ (entry_call <$> requestQueue s).
Proof.
  intros Hwf. unfold flushRequestQueue. simpl.
  pose proof (safelyMakeRequests_served (JsMap.keys (requestQueue s))
                (set_fresh (S (fresh s)) s) Hwf) as H.
  destruct (safelyMakeRequests _ _) as [all s1]. simpl in *.
  rewrite H. f_equal. by apply calls_for_keys.
Qed.

Lemma invoked_prefix_safelyMakeRequest requestKey s :
  invoked s `prefix_of` invoked (safelyMakeRequest requestKey s).2.
Proof.
  unfold safelyMakeRequest. simpl.
  destruct (JsMap.get requestKey (requestQueue s)) as [request|]; simpl; [|done].
  destruct (act_does request); simpl;
    rewrite ?(proj1 (proj2 (complete_fields _ _ _))); simpl;
    by apply prefix_app_r.
Qed.

Lemma invoked_prefix_safelyMakeRequests requests s :
  invoked s `prefix_of` invoked (safelyMakeRequests requests s).2.
Proof.
  revert s. induction requests as [|k requests IH]; intros s; simpl; [done|].
  pose proof (invoked_prefix_safelyMakeRequest k s) as H1.
  destruct (safelyMakeRequest k s) as [p s1].
  specialize (IH s1). destruct (safelyMakeRequests requests s1) as [ps s2].
  simpl in *. by etrans.
Qed.

Lemma invoked_prefix_flushRequestQueue s :
  invoked s `prefix_of` invoked (flushRequestQueue s).2.
Proof.
  unfold flushRequestQueue. simpl.
  pose proof (invoked_prefix_safelyMakeRequests (JsMap.keys (requestQueue s))
                (set_fresh (S (fresh s)) s)) as H.
  by destruct (safelyMakeRequests _ _) as [all s1].
Qed.

(** The calls a flush makes are the entries of the queue, in its order. *)
Lemma flushRequestQueue_calls s :
  JsMap.wf (requestQueue s) →
  served <$> calls_since s (flushRequestQueue s).2 = entry_call <$> requestQueue s.
Proof.
  intros Hwf. unfold calls_since.
  destruct (invoked_prefix_flushRequestQueue s) as [new Hnew].
  pose proof (flushRequestQueue_served s Hwf) as H.
  rewrite Hnew in *. rewrite drop_app_length.
  rewrite fmap_app in H. by apply app_inv_head in H.
Qed.

(** While the media cannot play, [makeRequest] only writes the queue. *)
Lemma makeRequest_queued requestKey request s :
  truthy (canPlay s) = false →
  makeRequest requestKey request s =
  set_requestQueue (JsMap.set requestKey request (requestQueue s)) s.
Proof. intros H. unfold makeRequest. unfold canPlay in *. simpl. by rewrite H. Qed.







(** *** Well-formed states

    The facts about promises and suspended calls that hold in every state
    a provider can reach. *)

(** A call of [safelyMakeRequest] that returned [p] has run to its end, or
    is suspended at its [await]. *)
Definition request_call (s : provider) (p : nat) : Prop :=
  promises s !! p = Some Fulfilled
  ∨ ∃ k a, suspended s !! p = Some (SafelyMakeRequestK k a).

Definition continuation_ok (s : provider) (k : continuation) : Prop :=
  match k with
  | SafelyMakeRequestK _ None => True
  | SafelyMakeRequestK _ (Some p) => p ∈ enginePromises s
  | FlushRequestQueueK all => ∀ p, p ∈ all → request_call s p
  | WaitForRequestQueueToFlushK d => d < fresh s ∧ d ∉ enginePromises s
  end.

Record wf (s : provider) : Prop := Wf {
  wf_queue : JsMap.wf (requestQueue s);
  wf_promises : ∀ p, is_Some (promises s !! p) → p < fresh s;
  wf_engine : ∀ p, p ∈ enginePromises s → p < fresh s;
  wf_deferred :
    pendingRequestQueueFlush s < fresh s
    ∧ (pendingRequestQueueFlush s ∉ enginePromises s)
    ∧ suspended s !! pendingRequestQueueFlush s = None;
  wf_rejected : ∀ p e, promises s !! p = Some (Rejected e) → p ∈ enginePromises s;
  wf_suspended : ∀ ret k, suspended s !! ret = Some k →
    ret < fresh s ∧ promises s !! ret = None ∧ (ret ∉ enginePromises s)
    ∧ continuation_ok s k
}.

(** A promise that was allocated and is not in use yet. *)
Definition unused (s : provider) (p : nat) : Prop :=
  p < fresh s ∧ promises s !! p = None ∧ (p ∉ enginePromises s)
  ∧ suspended s !! p = None ∧ p ≠ pendingRequestQueueFlush s
  ∧ ∀ ret d, suspended s !! ret = Some (WaitForRequestQueueToFlushK d) → d ≠ p.

Lemma wf_init ctx : wf (init ctx).
Proof.
  split; simpl; try done.
  - apply NoDup_nil_2.
  - intros p [r H]. by rewrite lookup_empty in H.
  - split; [lia|]. split; [apply not_elem_of_empty|apply lookup_empty].
Qed.

Lemma continuation_ok_new_promise s k :
  continuation_ok s k → continuation_ok (new_promise s).2 k.
Proof. destruct k as [? [?|]|?|?]; simpl; try done. intros [? ?]. split; [lia|done]. Qed.

Lemma wf_new_promise s : wf s → wf (new_promise s).2 ∧ unused (new_promise s).2 (fresh s).
Proof.
  intros [Hq Hp He (Hd1 & Hd2 & Hd3) Hr Hs]. split.
  - split; simpl; try done.
    + intros p H. specialize (Hp p H). lia.
    + intros p H. specialize (He p H). lia.
    + split; [lia|done].
    + intros ret k H. destruct (Hs ret k H) as (? & ? & ? & ?).
      split; [lia|]. split; [done|]. split; [done|].
      by apply (continuation_ok_new_promise s).
  - unfold unused. simpl. split; [lia|].
    split. { destruct (promises s !! fresh s) eqn:E; [|done]. specialize (Hp _ (mk_is_Some _ _ E)). lia. }
    split. { intros H. specialize (He _ H). lia. }
    split. { destruct (suspended s !! fresh s) eqn:E; [|done]. destruct (Hs _ _ E). lia. }
    split. { lia. }
    intros ret d H. destruct (Hs _ _ H) as (_ & _ & _ & Hk). simpl in Hk. lia.
Qed.

(** Well-formedness looks at the queue and at the promises only. *)
Lemma wf_same s s' :
  promises s' = promises s → enginePromises s' = enginePromises s →
  fresh s' = fresh s → suspended s' = suspended s →
  pendingRequestQueueFlush s' = pendingRequestQueueFlush s →
  JsMap.wf (requestQueue s') → wf s → wf s'.
Proof.
  intros E1 E2 E3 E4 E5 Hq' [Hq Hp He Hd Hr Hs].
  split; rewrite ?E1, ?E2, ?E3, ?E4, ?E5; try done.
  intros ret k H. destruct (Hs ret k H) as (? & ? & ? & Hk).
  repeat split; try done.
  destruct k as [? [?|]|?|?]; simpl in *; rewrite ?E2, ?E3; try done.
  unfold request_call in *. by rewrite E1, E4.
Qed.

Lemma unused_same s s' p :
  promises s' = promises s → enginePromises s' = enginePromises s →
  fresh s' = fresh s → suspended s' = suspended s →
  pendingRequestQueueFlush s' = pendingRequestQueueFlush s →
  unused s p → unused s' p.
Proof. intros E1 E2 E3 E4 E5. unfold unused. by rewrite E1, E2, E3, E4, E5. Qed.

Lemma request_call_suspend s ret k p :
  unused s ret → request_call s p → request_call (suspend ret k s) p.
Proof.
  intros (_ & Hp & _ & Hs & _) [H|(key & a & H)]; [by left|right].
  exists key, a. simpl. rewrite lookup_insert_ne; [done|]. intros ->. congruence.
Qed.

Lemma wf_suspend s ret k :
  wf s → unused s ret → continuation_ok s k →
  (∀ d, k = WaitForRequestQueueToFlushK d → d ≠ ret) →
  wf (suspend ret k s).
Proof.
  intros [Hq Hp He (Hd1 & Hd2 & Hd3) Hr Hs] Hu Hk Hw.
  pose proof Hu as (Hu1 & Hu2 & Hu3 & Hu4 & Hu5 & Hu6).
  split; simpl; try done.
  - split; [done|]. split; [done|]. by rewrite lookup_insert_ne.
  - intros ret' k' H. destruct (decide (ret' = ret)) as [->|Hne].
    + rewrite lookup_insert_eq in H. injection H as <-.
      repeat split; try done.
      destruct k as [? [?|]|all|?]; simpl in *; try done.
      intros p Hin. by apply request_call_suspend, Hk.
    + rewrite lookup_insert_ne in H by done.
      destruct (Hs ret' k' H) as (? & ? & ? & Hk').
      repeat split; try done.
      destruct k' as [? [?|]|all|?]; simpl in *; try done.
      intros p Hin. by apply request_call_suspend, Hk'.
Qed.

Lemma settle_promises p r s :
  promises s !! p = None → promises (settle p r s) = <[p := r]> (promises s).
Proof. intros H. unfold settle. by rewrite H. Qed.

Lemma settle_lookup p r s q :
  promises (settle p r s) !! q =
  match promises s !! q with
  | Some x => Some x
  | None => if decide (q = p) then Some r else None
  end.
Proof.
  unfold settle. destruct (promises s !! p) eqn:E; simpl.
  - destruct (promises s !! q) eqn:E'; [done|]. case_decide; [congruence|done].
  - destruct (decide (q = p)) as [->|Hne].
    + by rewrite lookup_insert_eq, E.
    + rewrite lookup_insert_ne by done. by destruct (promises s !! q).
Qed.

(** Settling a promise [p]: the engine settles its own promises, anything
    else is fulfilled. *)
Lemma wf_settle p r s :
  wf s → p < fresh s → suspended s !! p = None →
  (r = Fulfilled ∨ p ∈ enginePromises s) →
  wf (settle p r s).
Proof.
  intros [Hq Hp He Hd Hr Hs] Hlt Hsus Hok.
  destruct (settle_fields p r s) as (E1 & _ & _ & _ & E4 & E5 & E6 & E7).
  split; rewrite ?E1, ?E4, ?E5, ?E6, ?E7; try done.
  - intros q [x Hx]. rewrite settle_lookup in Hx.
    destruct (promises s !! q) eqn:E; [by apply Hp|].
    case_decide; [by subst|done].
  - intros q e Hq'. rewrite settle_lookup in Hq'.
    destruct (promises s !! q) eqn:E; [apply (Hr q e); congruence|].
    case_decide; [|done]. subst. destruct Hok as [->|?]; [done|done].
  - intros ret k H. destruct (Hs ret k H) as (? & Hnone & ? & Hk).
    split; [done|]. split.
    { rewrite settle_lookup, Hnone. case_decide; [|done]. subst. congruence. }
    split; [done|].
    destruct k as [? [?|]|all|?]; simpl in *; rewrite ?E5, ?E6; try done.
    intros q Hin. destruct (Hk q Hin) as [HF|HS]; [left|right].
    + by rewrite settle_lookup, HF.
    + by rewrite E4.
Qed.

Lemma unused_settle p r s q : q ≠ p → unused s q → unused (settle p r s) q.
Proof.
  intros Hne (H1 & H2 & H3 & H4 & H5 & H6).
  destruct (settle_fields p r s) as (_ & _ & _ & _ & E4 & E5 & E6 & E7).
  unfold unused. rewrite E4, E5, E6, E7, settle_lookup, H2.
  by rewrite decide_False.
Qed.

(** An async call that is suspended runs to its end. *)
Lemma wf_complete s ret k :
  wf s → suspended s !! ret = Some k → wf (complete ret Fulfilled s).
Proof.
  intros Hwf Hret. pose proof Hwf as [Hq Hp He (Hd1 & Hd2 & Hd3) Hr Hs].
  destruct (Hs ret k Hret) as (Hlt & Hnone & Hne & Hk).
  destruct (complete_fields ret Fulfilled s) as (E1 & _ & _ & _ & E4 & E5 & E6 & E7).
  unfold complete in *. simpl in *.
  split; rewrite ?E1, ?E4, ?E5, ?E6, ?E7; try done.
  - intros q [x Hx]. rewrite settle_lookup in Hx. simpl in Hx.
    destruct (promises s !! q) eqn:E; [by apply Hp|].
    case_decide; [by subst|done].
  - split; [done|]. split; [done|]. rewrite lookup_delete_ne; [done|]. congruence.
  - intros q e Hq'. rewrite settle_lookup in Hq'. simpl in Hq'.
    destruct (promises s !! q) eqn:E; [apply (Hr q e); congruence|].
    by case_decide.
  - intros ret' k' H. apply lookup_delete_Some in H as [Hne' H].
    destruct (Hs ret' k' H) as (? & Hnone' & ? & Hk').
    split; [done|]. split.
    { rewrite settle_lookup. simpl. rewrite Hnone'. by rewrite decide_False. }
    split; [done|].
    destruct k' as [? [?|]|all|?]; simpl in *; rewrite ?E5, ?E6; try done.
    intros q Hin. destruct (Hk' q Hin) as [HF|(key & a & HS)].
    + left. rewrite settle_lookup. simpl. by rewrite HF.
    + destruct (decide (q = ret)) as [->|Hneq].
      * left. rewrite settle_lookup. simpl. rewrite Hnone. by rewrite decide_True.
      * right. exists key, a. rewrite E4. by rewrite lookup_delete_ne.
Qed.

(** An async call that did not suspend runs to its end. *)
Lemma wf_complete_unused s ret :
  wf s → unused s ret → wf (complete ret Fulfilled s).
Proof.
  intros Hwf (H1 & H2 & H3 & H4 & H5 & H6). unfold complete.
  rewrite delete_id by done.
  assert (set_suspended (suspended s) s = s) as -> by by destruct s.
  apply wf_settle; auto.
Qed.

(** [s'] comes from [s] by allocating promises and suspending calls of
    [safelyMakeRequest]: what was allocated in [s] is as it was. *)
Definition grows (s s' : provider) : Prop :=
  fresh s ≤ fresh s'
  ∧ pendingRequestQueueFlush s' = pendingRequestQueueFlush s
  ∧ (∀ p, p < fresh s →
       promises s' !! p = promises s !! p
       ∧ suspended s' !! p = suspended s !! p
       ∧ (p ∈ enginePromises s' ↔ p ∈ enginePromises s))
  ∧ (∀ p k, fresh s ≤ p → suspended s' !! p = Some k →
       ∃ key a, k = SafelyMakeRequestK key a).

Lemma grows_refl s : wf s → grows s s.
Proof.
  intros Hwf. split; [done|]. split; [done|]. split; [done|].
  intros p k Hle H. destruct (wf_suspended s Hwf p k H). lia.
Qed.

Lemma grows_trans s1 s2 s3 : grows s1 s2 → grows s2 s3 → grows s1 s3.
Proof.
  intros (A1 & A2 & A3 & A4) (B1 & B2 & B3 & B4).
  split; [lia|]. split; [congruence|]. split.
  - intros p Hp. destruct (A3 p Hp) as (? & ? & ?).
    destruct (B3 p ltac:(lia)) as (? & ? & ?).
    split; [congruence|]. split; [congruence|]. tauto.
  - intros p k Hle H. destruct (decide (p < fresh s2)) as [Hlt|Hge].
    + destruct (B3 p Hlt) as (_ & E & _). rewrite E in H. by apply (A4 p k).
    + apply (B4 p k); [lia|done].
Qed.

Lemma request_call_grows s s' p :
  wf s → grows s s' → request_call s p → request_call s' p.
Proof.
  intros Hwf (_ & _ & G & _) H.
  assert (p < fresh s) as Hlt.
  { destruct H as [H|(key & a & H)].
    - apply (wf_promises s Hwf). by eexists.
    - by destruct (wf_suspended s Hwf p _ H). }
  destruct (G p Hlt) as (E1 & E2 & _). unfold request_call. by rewrite E1, E2.
Qed.

Lemma unused_grows s s' p : grows s s' → unused s p → unused s' p.
Proof.
  intros (G1 & G2 & G3 & G4) (H1 & H2 & H3 & H4 & H5 & H6).
  destruct (G3 p H1) as (E1 & E2 & E3).
  unfold unused. rewrite E1, E2, E3, G2. repeat split; try done; [lia|].
  intros ret d Hret ->. destruct (decide (ret < fresh s)) as [Hlt|Hge].
  - destruct (G3 ret Hlt) as (_ & E & _). rewrite E in Hret. by apply (H6 ret p).
  - destruct (G4 ret _ ltac:(lia) Hret) as (? & ? & ?). done.
Qed.

Lemma wf_safelyMakeRequest requestKey s :
  wf s →
  wf (safelyMakeRequest requestKey s).2
  ∧ grows s (safelyMakeRequest requestKey s).2
  ∧ (safelyMakeRequest requestKey s).1 = fresh s
  ∧ fresh s < fresh (safelyMakeRequest requestKey s).2
  ∧ request_call (safelyMakeRequest requestKey s).2 (fresh s).
Proof.
  intros Hwf. destruct (wf_new_promise s Hwf) as [Hwf1 Hu1].
  pose proof Hu1 as (U1 & U2 & U3 & U4 & U5 & U6).
  assert (∀ p, p < fresh s → p ≠ fresh s) as Hne by lia.
  unfold safelyMakeRequest. simpl in *.
  destruct (JsMap.get requestKey (requestQueue s)) as [request|]; simpl.
  2:{ split. { by apply wf_suspend. }
      split. { split; [simpl; lia|]. split; [done|]. split.
               - intros p Hp. simpl. rewrite lookup_insert_ne by (symmetry; auto). done.
               - intros p k Hle. simpl. destruct (decide (p = fresh s)) as [->|Hn].
                 + rewrite lookup_insert_eq. intros [= <-]. eauto.
                 + rewrite lookup_insert_ne by done. intros H.
                   destruct (wf_suspended s Hwf p k H). lia. }
      split; [done|]. split; [lia|].
      right. eexists _, _. simpl. by rewrite lookup_insert_eq. }
  destruct (act_does request) as [|e|]; simpl.
  - set (s2 := record_call _ _).
    assert (wf s2) as Hwf2.
    { apply (wf_same (set_fresh (S (fresh s)) s)); try done. apply Hwf. }
    assert (unused s2 (fresh s)) as Hu2 by (by apply (unused_same (set_fresh (S (fresh s)) s))).
    split. { by apply wf_suspend. }
    split. { split; [simpl; lia|]. split; [done|]. split.
             - intros p Hp. simpl. rewrite lookup_insert_ne by (symmetry; auto). done.
             - intros p k Hle. simpl. destruct (decide (p = fresh s)) as [->|Hn].
               + rewrite lookup_insert_eq. intros [= <-]. eauto.
               + rewrite lookup_insert_ne by done. intros H.
                 destruct (wf_suspended s Hwf p k H). lia. }
    split; [done|]. split; [simpl; lia|].
    right. eexists _, _. simpl. by rewrite lookup_insert_eq.
  - set (s2 := after_request _ _).
    assert (wf s2) as Hwf2.
    { apply (wf_same (set_fresh (S (fresh s)) s)); try done.
      simpl. apply JsMap.wf_delete, Hwf. }
    assert (unused s2 (fresh s)) as Hu2 by (by apply (unused_same (set_fresh (S (fresh s)) s))).
    destruct (complete_fields (fresh s) Fulfilled s2) as (_ & _ & _ & _ & E4 & E5 & E6 & E7).
    split. { by apply wf_complete_unused. }
    split. { split; [rewrite E6; simpl; lia|]. split; [by rewrite E7|]. split.
             - intros p Hp. rewrite E4, E5. unfold complete. rewrite settle_lookup. simpl.
               rewrite lookup_delete_ne by (symmetry; auto).
               destruct (promises s !! p); [done|]. rewrite decide_False by auto. done.
             - intros p k Hle. rewrite E4. simpl. intros H.
               apply lookup_delete_Some in H as [_ H].
               destruct (wf_suspended s Hwf p k H). lia. }
    split; [done|]. split; [rewrite E6; simpl; lia|].
    left. unfold complete. rewrite settle_lookup. simpl. rewrite U2.
    by rewrite decide_True.
  - set (s2 := set_fresh (S (S (fresh s))) (set_fresh (S (fresh s)) s)).
    assert (s2 = (new_promise (set_fresh (S (fresh s)) s)).2) as Es2 by done.
    destruct (wf_new_promise _ Hwf1) as [Hwf2 Hup]. rewrite <- Es2 in Hwf2, Hup.
    simpl in Hup. pose proof Hup as (P1 & P2 & P3 & P4 & P5 & P6).
    set (s3 := record_call _ _).
    assert (wf s3) as Hwf3.
    { destruct Hwf2 as [Hq Hp He (Hd1 & Hd2 & Hd3) Hr Hs].
      split; simpl in *; try done.
      - intros p Hin. apply elem_of_union in Hin as [Hin|Hin]; [|by apply He].
        apply elem_of_singleton in Hin. lia.
      - split; [done|]. split; [|done]. rewrite not_elem_of_union, not_elem_of_singleton.
        split; [lia|done].
      - intros p e H. apply elem_of_union_r. by apply (Hr p e).
      - intros ret k H. destruct (Hs ret k H) as (? & ? & ? & Hk).
        split; [done|]. split; [done|]. split.
        { rewrite not_elem_of_union, not_elem_of_singleton.
          split; [intros ->; congruence|done]. }
        destruct k as [? [?|]|all|d]; simpl in *; try done.
        + by apply elem_of_union_r.
        + destruct Hk as [? ?]. split; [done|].
          rewrite not_elem_of_union, not_elem_of_singleton. split; [|done].
          intros ->. by apply (P6 ret (S (fresh s))). }
    assert (unused s3 (fresh s)) as Hu3.
    { unfold unused. simpl. repeat split; try done; try lia.
      rewrite not_elem_of_union, not_elem_of_singleton. split; [lia|done]. }
    split. { apply wf_suspend; try done. simpl. apply elem_of_union_l.
             by apply elem_of_singleton. }
    split. { split; [simpl; lia|]. split; [done|]. split.
             - intros p Hp. simpl. rewrite lookup_insert_ne by (symmetry; auto).
               split; [done|]. split; [done|].
               rewrite elem_of_union, elem_of_singleton. split; [|tauto].
               intros [->|?]; [lia|done].
             - intros p k Hle. simpl. destruct (decide (p = fresh s)) as [->|Hn].
               + rewrite lookup_insert_eq. intros [= <-]. eauto.
               + rewrite lookup_insert_ne by done. intros H.
                 destruct (wf_suspended s Hwf p k H). lia. }
    split; [done|]. split; [simpl; lia|].
    right. eexists _, _. simpl. by rewrite lookup_insert_eq.
Qed.

Lemma wf_safelyMakeRequests requests s :
  wf s →
  wf (safelyMakeRequests requests s).2
  ∧ grows s (safelyMakeRequests requests s).2
  ∧ ∀ p, p ∈ (safelyMakeRequests requests s).1 →
      request_call (safelyMakeRequests requests s).2 p.
Proof.
  revert s. induction requests as [|k requests IH]; intros s Hwf; simpl.
  - split; [done|]. split; [by apply grows_refl|]. intros p H. by apply elem_of_nil in H.
  - destruct (wf_safelyMakeRequest k s Hwf) as (Hwf1 & G1 & E1 & _ & R1).
    destruct (safelyMakeRequest k s) as [p1 s1]. simpl in *. subst p1.
    destruct (IH s1 Hwf1) as (Hwf2 & G2 & R2).
    destruct (safelyMakeRequests requests s1) as [ps s2]. simpl in *.
    split; [done|]. split; [by eapply grows_trans|].
    intros p Hp. apply elem_of_cons in Hp as [->|Hp]; [|by apply R2].
    by apply (request_call_grows s1).
Qed.

Lemma wf_flushRequestQueue s :
  wf s →
  wf (flushRequestQueue s).2
  ∧ (flushRequestQueue s).1 = fresh s
  ∧ ∃ all, suspended (flushRequestQueue s).2 !! fresh s = Some (FlushRequestQueueK all).
Proof.
  intros Hwf. destruct (wf_new_promise s Hwf) as [Hwf1 Hu1].
  unfold flushRequestQueue. simpl in *.
  destruct (wf_safelyMakeRequests (JsMap.keys (requestQueue s)) _ Hwf1) as (Hwf2 & G2 & R2).
  destruct (safelyMakeRequests _ _) as [all s2]. simpl in *.
  split; [|split; [done|]].
  - apply wf_suspend; try done. by apply (unused_grows (set_fresh (S (fresh s)) s)).
  - exists all. simpl. by rewrite lookup_insert_eq.
Qed.

Lemma wf_makeRequest requestKey request s : wf s → wf (makeRequest requestKey request s).
Proof.
  intros Hwf. unfold makeRequest.
  set (s1 := set_requestQueue _ s).
  assert (wf s1) as Hwf1.
  { apply (wf_same s); try done. simpl. apply JsMap.wf_set, Hwf. }
  destruct (negb (truthy (canPlay s1))); [done|].
  destruct (wf_safelyMakeRequest requestKey s1 Hwf1) as (Hwf2 & _).
  destruct (safelyMakeRequest requestKey s1) as [ret s2]. simpl in *.
  apply (wf_same s2); try done. simpl. apply JsMap.wf_delete, Hwf2.
Qed.

Lemma wf_set_pendingRequestQueueFlush d s :
  wf s → unused s d → wf (set_pendingRequestQueueFlush d s).
Proof.
  intros [Hq Hp He Hd Hr Hs] (U1 & U2 & U3 & U4 & U5 & U6).
  split; simpl; try done.
Qed.

Lemma wf_resetRequestQueue s : wf s → wf (resetRequestQueue s).
Proof.
  intros Hwf. unfold resetRequestQueue.
  set (s1 := set_requestQueue _ s).
  assert (wf s1) as Hwf1.
  { apply (wf_same s); try done. apply NoDup_nil_2. }
  set (s2 := settle _ _ s1).
  assert (wf s2) as Hwf2.
  { destruct (wf_deferred s Hwf) as (? & ? & ?). apply wf_settle; auto. }
  destruct (wf_new_promise s2 Hwf2) as [Hwf3 Hu3].
  simpl. by apply wf_set_pendingRequestQueueFlush.
Qed.

Lemma wf_waitForRequestQueueToFlush s : wf s → wf (waitForRequestQueueToFlush s).2.
Proof.
  intros Hwf. destruct (wf_new_promise s Hwf) as [Hwf1 Hu1].
  unfold waitForRequestQueueToFlush. simpl in *.
  destruct (truthy _); simpl.
  - by apply wf_complete_unused.
  - apply wf_suspend; try done.
    + simpl. destruct (wf_deferred s Hwf) as (? & ? & ?). split; [lia|done].
    + intros d [= <-]. destruct Hu1 as (_ & _ & _ & _ & ? & _). done.
Qed.

Lemma promise_all_rejected ps all e :
  promise_all ps all = Some (Rejected e) → ∃ p, p ∈ all ∧ ps !! p = Some (Rejected e).
Proof.
  induction all as [|p all IH]; simpl; [done|].
  destruct (ps !! p) as [[|e']|] eqn:E.
  - intros H. destruct (IH H) as (q & ? & ?). exists q. split; [|done].
    by apply elem_of_cons, or_intror.
  - intros [= ->]. exists p. split; [|done]. by apply elem_of_cons, or_introl.
  - destruct (promise_all ps all) as [[|e']|]; try done.
    intros [= ->]. destruct (IH eq_refl) as (q & ? & ?). exists q. split; [|done].
    by apply elem_of_cons, or_intror.
Qed.

Lemma promise_all_fulfilled ps all :
  promise_all ps all = Some Fulfilled ↔ ∀ p, p ∈ all → ps !! p = Some Fulfilled.
Proof.
  induction all as [|p all IH]; simpl.
  - split; [|done]. intros _ p H. by apply elem_of_nil in H.
  - destruct (ps !! p) as [[|e']|] eqn:E.
    + rewrite IH. split.
      * intros H q Hq. apply elem_of_cons in Hq as [->|Hq]; [done|by apply H].
      * intros H q Hq. apply H. by apply elem_of_cons, or_intror.
    + split; [done|]. intros H. specialize (H p (proj2 (elem_of_cons _ _ _) (or_introl eq_refl))).
      congruence.
    + split.
      * by destruct (promise_all ps all) as [[|e']|].
      * intros H. specialize (H p (proj2 (elem_of_cons _ _ _) (or_introl eq_refl))).
        congruence.
Qed.

(** The promises a flush waits for are never rejected. *)
Lemma flush_never_rejected s ret all e :
  wf s → suspended s !! ret = Some (FlushRequestQueueK all) →
  promise_all (promises s) all ≠ Some (Rejected e).
Proof.
  intros Hwf Hret Hrej. apply promise_all_rejected in Hrej as (p & Hin & Hp).
  destruct (wf_suspended s Hwf ret _ Hret) as (_ & _ & _ & Hk). simpl in Hk.
  destruct (Hk p Hin) as [HF|(key & a & HS)]; [congruence|].
  destruct (wf_suspended s Hwf p _ HS) as (_ & Hnone & _). congruence.
Qed.

Lemma wf_after_flush s : wf s → wf (after_flush s).
Proof.
  intros Hwf. unfold after_flush.
  destruct (wf_deferred s Hwf) as (? & ? & ?).
  apply wf_settle; auto. apply (wf_same s); try done. apply NoDup_nil_2.
Qed.

Lemma wf_resume ret s s' : wf s → resume ret s = Some s' → wf s'.
Proof.
  intros Hwf. unfold resume.
  destruct (suspended s !! ret) as [k|] eqn:Hret; [|done].
  assert (∀ key, wf (after_request key s)) as Hafter.
  { intros key. apply (wf_same s); try done. simpl. apply JsMap.wf_delete, Hwf. }
  assert (∀ key e, wf (after_request key (catch_error e s))) as Hcatch.
  { intros key e. apply (wf_same s); try done. simpl. apply JsMap.wf_delete, Hwf. }
  destruct k as [key [p|]|all|d].
  - destruct (promises s !! p) as [[|e]|]; [| |done]; intros [= <-].
    + by apply (wf_complete _ _ (SafelyMakeRequestK key (Some p))).
    + by apply (wf_complete _ _ (SafelyMakeRequestK key (Some p))).
  - intros [= <-]. by apply (wf_complete _ _ (SafelyMakeRequestK key None)).
  - destruct (promise_all (promises s) all) as [[|e]|] eqn:Hall; [| |done].
    + intros [= <-]. apply (wf_complete _ _ (FlushRequestQueueK all)).
      * by apply wf_after_flush.
      * unfold after_flush. by rewrite (proj1 (proj2 (proj2 (proj2 (proj2 (settle_fields _ _ _)))))).
    + by destruct (flush_never_rejected s ret all e).
  - destruct (promises s !! d) as [[|e]|] eqn:Hd; [| |done].
    + intros [= <-]. by apply (wf_complete _ _ (WaitForRequestQueueToFlushK d)).
    + destruct (wf_suspended s Hwf ret _ Hret) as (_ & _ & _ & _ & Hne).
      destruct Hne. by apply (wf_rejected s Hwf d e).
Qed.

Lemma wf_engine_settle p r s s' : wf s → engine_settle p r s = Some s' → wf s'.
Proof.
  intros Hwf. unfold engine_settle. case_decide as H; [|done].
  destruct H as [Hin Hnone]. intros [= <-].
  apply wf_settle; auto.
  - by apply (wf_engine s Hwf).
  - destruct (suspended s !! p) as [k|] eqn:E; [|done].
    by destruct (wf_suspended s Hwf p k E) as (_ & _ & ? & _).
Qed.

Lemma wf_exec mediaContext o s s' : wf s → exec mediaContext o s = Some s' → wf s'.
Proof.
  intros Hwf. destruct o; simpl; try (intros [= <-]).
  - by apply wf_makeRequest.
  - by apply wf_flushRequestQueue.
  - by apply wf_resetRequestQueue.
  - by apply wf_waitForRequestQueueToFlush.
  - apply (wf_same s); try done. apply Hwf.
  - apply (wf_same s); try done. apply Hwf.
  - unfold disconnectedCallback.
    apply (wf_same (resetRequestQueue s)); try done; [|by apply wf_resetRequestQueue].
    simpl. by apply wf_resetRequestQueue.
  - apply (wf_same s); try done. apply Hwf.
  - by apply wf_engine_settle.
  - by apply wf_resume.
Qed.

Lemma wf_run mediaContext ops s s' : wf s → run mediaContext ops s = Some s' → wf s'.
Proof.
  revert s. induction ops as [|o ops IH]; intros s Hwf; simpl.
  - by intros [= <-].
  - destruct (exec mediaContext o s) as [s1|] eqn:E; [|done].
    apply IH. by apply (wf_exec mediaContext o s).
Qed.

(** *** What a step keeps

    A promise that is settled stays settled, and a suspended call stays
    suspended until the event loop resumes it. *)
Definition keeps (s s' : provider) (resumed : option nat) : Prop :=
  (∀ p r, promises s !! p = Some r → promises s' !! p = Some r)
  ∧ (∀ ret k, suspended s !! ret = Some k → resumed ≠ Some ret →
       suspended s' !! ret = Some k).

Lemma keeps_same s s' resumed :
  promises s' = promises s → suspended s' = suspended s → keeps s s' resumed.
Proof. intros E1 E2. unfold keeps. rewrite E1, E2. by split. Qed.

Lemma keeps_trans s1 s2 s3 resumed :
  keeps s1 s2 resumed → keeps s2 s3 resumed → keeps s1 s3 resumed.
Proof. intros [A1 A2] [B1 B2]. split; eauto. Qed.

Lemma keeps_weaken s s' ret : keeps s s' None → keeps s s' (Some ret).
Proof. intros [A1 A2]. split; [done|]. intros ret' k H _. by apply A2. Qed.

Lemma keeps_grows s s' : wf s → grows s s' → keeps s s' None.
Proof.
  intros Hwf (_ & _ & G & _). split.
  - intros p r H. assert (p < fresh s) as Hlt by (apply (wf_promises s Hwf); by eexists).
    destruct (G p Hlt) as (-> & _). done.
  - intros ret k H _. destruct (wf_suspended s Hwf ret k H) as (Hlt & _).
    destruct (G ret Hlt) as (_ & -> & _). done.
Qed.

Lemma keeps_settle p r s : keeps s (settle p r s) None.
Proof.
  split.
  - intros q x H. by rewrite settle_lookup, H.
  - intros ret k H _. by rewrite (proj1 (proj2 (proj2 (proj2 (proj2 (settle_fields p r s)))))).
Qed.

Lemma keeps_suspend ret k s : suspended s !! ret = None → keeps s (suspend ret k s) None.
Proof.
  intros Hnone. split; [done|]. intros ret' k' H _. simpl.
  rewrite lookup_insert_ne; [done|]. congruence.
Qed.

Lemma keeps_complete ret r s : keeps s (complete ret r s) (Some ret).
Proof.
  split.
  - intros q x H. unfold complete. rewrite settle_lookup. simpl. by rewrite H.
  - intros ret' k H Hne. rewrite (proj1 (proj2 (proj2 (proj2 (proj2 (complete_fields ret r s)))))).
    rewrite lookup_delete_ne; [done|]. congruence.
Qed.

Lemma keeps_complete_unused ret r s :
  suspended s !! ret = None → keeps s (complete ret r s) None.
Proof.
  intros Hnone. split; [apply (keeps_complete ret r s)|].
  intros ret' k H _. apply (keeps_complete ret r s); [done|]. congruence.
Qed.

Lemma keeps_safelyMakeRequest requestKey s :
  wf s → keeps s (safelyMakeRequest requestKey s).2 None.
Proof. intros Hwf. apply keeps_grows; [done|]. by apply wf_safelyMakeRequest. Qed.

Lemma keeps_makeRequest requestKey request s :
  wf s → keeps s (makeRequest requestKey request s) None.
Proof.
  intros Hwf. unfold makeRequest. set (s1 := set_requestQueue _ s).
  assert (wf s1) as Hwf1.
  { apply (wf_same s); try done. simpl. apply JsMap.wf_set, Hwf. }
  destruct (negb (truthy (canPlay s1))); [by apply keeps_same|].
  pose proof (keeps_safelyMakeRequest requestKey s1 Hwf1) as H.
  destruct (safelyMakeRequest requestKey s1) as [ret s2]. simpl in *.
  apply (keeps_trans s s1); [by apply keeps_same|].
  apply (keeps_trans s1 s2); [done|]. by apply keeps_same.
Qed.

Lemma keeps_flushRequestQueue s : wf s → keeps s (flushRequestQueue s).2 None.
Proof.
  intros Hwf. destruct (wf_new_promise s Hwf) as [Hwf1 Hu1].
  unfold flushRequestQueue. simpl in *.
  destruct (wf_safelyMakeRequests (JsMap.keys (requestQueue s)) _ Hwf1) as (Hwf2 & G2 & R2).
  destruct (safelyMakeRequests _ _) as [all s2]. simpl in *.
  apply (keeps_trans s (set_fresh (S (fresh s)) s)); [by apply keeps_same|].
  apply (keeps_trans _ s2); [by apply keeps_grows|].
  apply keeps_suspend.
  by destruct (unused_grows _ _ _ G2 Hu1) as (_ & _ & _ & ? & _).
Qed.

Lemma keeps_resetRequestQueue s : keeps s (resetRequestQueue s) None.
Proof.
  unfold resetRequestQueue. set (s1 := set_requestQueue _ s). simpl.
  apply (keeps_trans s s1); [by apply keeps_same|].
  apply (keeps_trans s1 (settle (pendingRequestQueueFlush s) Fulfilled s1));
    [apply keeps_settle|by apply keeps_same].
Qed.

Lemma keeps_waitForRequestQueueToFlush s :
  wf s → keeps s (waitForRequestQueueToFlush s).2 None.
Proof.
  intros Hwf. destruct (wf_new_promise s Hwf) as [Hwf1 Hu1].
  pose proof Hu1 as (_ & _ & _ & Hnone & _).
  unfold waitForRequestQueueToFlush. simpl in *.
  apply (keeps_trans s (set_fresh (S (fresh s)) s)); [by apply keeps_same|].
  destruct (truthy _); simpl.
  - by apply keeps_complete_unused.
  - by apply keeps_suspend.
Qed.

Lemma keeps_after_flush s : keeps s (after_flush s) None.
Proof.
  unfold after_flush. set (s1 := set_requestQueue _ s).
  apply (keeps_trans s s1); [by apply keeps_same|]. apply keeps_settle.
Qed.

Lemma keeps_resume ret s s' : resume ret s = Some s' → keeps s s' (Some ret).
Proof.
  unfold resume. destruct (suspended s !! ret) as [k|]; [|done].
  destruct k as [key [p|]|all|d].
  - destruct (promises s !! p) as [[|e]|]; [| |done]; intros [= <-].
    + apply (keeps_trans s (after_request key s)); [by apply keeps_same|].
      apply keeps_complete.
    + apply (keeps_trans s (after_request key (catch_error e s))); [by apply keeps_same|].
      apply keeps_complete.
  - intros [= <-].
    apply (keeps_trans s (after_request key s)); [by apply keeps_same|].
    apply keeps_complete.
  - destruct (promise_all (promises s) all) as [[|e]|]; [| |done]; intros [= <-].
    + apply (keeps_trans s (after_flush s)); [apply keeps_weaken, keeps_after_flush|].
      apply keeps_complete.
    + apply keeps_complete.
  - destruct (promises s !! d) as [r|]; [|done]. intros [= <-]. apply keeps_complete.
Qed.

Definition resumed_by (o : op) : option nat :=
  match o with Resume ret => Some ret | _ => None end.

Lemma keeps_exec mediaContext o s s' :
  wf s → exec mediaContext o s = Some s' → keeps s s' (resumed_by o).
Proof.
  intros Hwf. destruct o; simpl; try (intros [= <-]).
  - by apply keeps_makeRequest.
  - by apply keeps_flushRequestQueue.
  - apply keeps_resetRequestQueue.
  - by apply keeps_waitForRequestQueueToFlush.
  - by apply keeps_same.
  - by apply keeps_same.
  - unfold disconnectedCallback.
    apply (keeps_trans s (resetRequestQueue s)); [apply keeps_resetRequestQueue|].
    by apply keeps_same.
  - by apply keeps_same.
  - unfold engine_settle. case_decide; [|done]. intros [= <-]. apply keeps_settle.
  - apply keeps_resume.
Qed.

(** Settled promises stay as they are along an execution. *)
Lemma promises_run mediaContext ops s s' p r :
  wf s → run mediaContext ops s = Some s' →
  promises s !! p = Some r → promises s' !! p = Some r.
Proof.
  revert s. induction ops as [|o ops IH]; intros s Hwf; simpl.
  - by intros [= <-].
  - destruct (exec mediaContext o s) as [s1|] eqn:E; [|done]. intros Hrun Hp.
    apply (IH s1); [by apply (wf_exec mediaContext o s)|done|].
    destruct (keeps_exec mediaContext o s s1 Hwf E) as [K _]. by apply K.
Qed.

(** *** How far a flush is *)

(** The flush that returned [ret] is suspended at its [await], or has run to
    its end with all the calls in [all] completed. *)
Definition flush_progress (s : provider) (ret : nat) (all : list nat) : Prop :=
  (suspended s !! ret = Some (FlushRequestQueueK all) ∧ promises s !! ret = None)
  ∨ (promises s !! ret = Some Fulfilled
     ∧ ∀ p, p ∈ all → promises s !! p = Some Fulfilled).

(** The call of [safelyMakeRequest] that returned [ret] awaits the promise
    [p] of its request, or has run to its end after [p] was settled. *)
Definition request_progress (s : provider) (ret : nat) (requestKey : string) (p : nat) : Prop :=
  (suspended s !! ret = Some (SafelyMakeRequestK requestKey (Some p))
   ∧ promises s !! ret = None)
  ∨ (promises s !! ret = Some Fulfilled
     ∧ ∃ r, promises s !! p = Some r
         ∧ ∀ e, r = Rejected e → VdsErrorEvent e ∈ dispatched s).

(** Events are only ever added. *)
Lemma dispatched_safelyMakeRequest requestKey s :
  dispatched s `prefix_of` dispatched (safelyMakeRequest requestKey s).2.
Proof.
  unfold safelyMakeRequest. simpl.
  destruct (JsMap.get requestKey (requestQueue s)) as [request|]; simpl; [|done].
  destruct (act_does request); simpl; [done| |done].
  rewrite (proj1 (proj2 (proj2 (proj2 (complete_fields _ _ _))))). simpl.
  by apply prefix_app_r.
Qed.

Lemma dispatched_safelyMakeRequests requests s :
  dispatched s `prefix_of` dispatched (safelyMakeRequests requests s).2.
Proof.
  revert s. induction requests as [|k requests IH]; intros s; simpl; [done|].
  pose proof (dispatched_safelyMakeRequest k s) as H1.
  destruct (safelyMakeRequest k s) as [p s1].
  specialize (IH s1). destruct (safelyMakeRequests requests s1) as [ps s2].
  simpl in *. by etrans.
Qed.

Lemma dispatched_resume ret s s' :
  resume ret s = Some s' → dispatched s `prefix_of` dispatched s'.
Proof.
  unfold resume. destruct (suspended s !! ret) as [k|]; [|done].
  pose proof (λ r x, proj1 (proj2 (proj2 (proj2 (complete_fields ret r x))))) as Hc.
  destruct k as [key [p|]|all|d].
  - destruct (promises s !! p) as [[|e]|]; [| |done]; intros [= <-]; rewrite Hc; simpl;
      [done|by apply prefix_app_r].
  - intros [= <-]. by rewrite Hc.
  - destruct (promise_all (promises s) all) as [[|e]|]; [| |done]; intros [= <-];
      rewrite Hc; [|done].
    unfold after_flush. by rewrite (proj1 (proj2 (proj2 (proj2 (settle_fields _ _ _))))).
  - destruct (promises s !! d) as [r|]; [|done]. intros [= <-]. by rewrite Hc.
Qed.

Lemma dispatched_exec mediaContext o s s' :
  exec mediaContext o s = Some s' → dispatched s `prefix_of` dispatched s'.
Proof.
  destruct o; simpl; try (intros [= <-]); try done.
  - unfold makeRequest. simpl. destruct (negb _); [done|].
    pose proof (dispatched_safelyMakeRequest requestKey
                  (set_requestQueue (JsMap.set requestKey request (requestQueue s)) s)) as H.
    by destruct (safelyMakeRequest _ _).
  - unfold flushRequestQueue. simpl.
    pose proof (dispatched_safelyMakeRequests (JsMap.keys (requestQueue s))
                  (set_fresh (S (fresh s)) s)) as H.
    by destruct (safelyMakeRequests _ _).
  - unfold resetRequestQueue. simpl.
    by rewrite (proj1 (proj2 (proj2 (proj2 (settle_fields _ _ _))))).
  - unfold waitForRequestQueueToFlush. simpl. destruct (truthy _); simpl; [|done].
    by rewrite (proj1 (proj2 (proj2 (proj2 (complete_fields _ _ _))))).
  - unfold disconnectedCallback, resetRequestQueue. simpl.
    rewrite (proj1 (proj2 (proj2 (proj2 (settle_fields _ _ _))))). simpl.
    rewrite <- app_assoc. by apply prefix_app_r.
  - unfold engine_settle. case_decide; [|done]. intros [= <-].
    by rewrite (proj1 (proj2 (proj2 (proj2 (settle_fields _ _ _))))).
  - apply dispatched_resume.
Qed.

Lemma resume_request s ret requestKey awaited s' :
  wf s → suspended s !! ret = Some (SafelyMakeRequestK requestKey awaited) →
  resume ret s = Some s' →
  promises s' !! ret = Some Fulfilled
  ∧ ∀ p, awaited = Some p →
      ∃ r, promises s !! p = Some r
        ∧ ∀ e, r = Rejected e →
            context s' = <["error" := e]> (context s)
            ∧ dispatched s' = dispatched s ++ [VdsErrorEvent e].
Proof.
  intros Hwf Hret. destruct (wf_suspended s Hwf ret _ Hret) as (_ & Hnone & _).
  unfold resume. rewrite Hret.
  assert (∀ x, promises (complete ret Fulfilled x) !! ret
               = match promises x !! ret with Some y => Some y | None => Some Fulfilled end) as Hc.
  { intros x. unfold complete. rewrite settle_lookup. simpl.
    destruct (promises x !! ret); [done|]. by rewrite decide_True. }
  destruct awaited as [p|].
  - destruct (promises s !! p) as [[|e]|] eqn:Hp; [| |done]; intros [= <-].
    + rewrite Hc. simpl. rewrite Hnone. split; [done|]. intros ? [= <-].
      eexists. split; [done|]. done.
    + rewrite Hc. simpl. rewrite Hnone. split; [done|]. intros ? [= <-].
      eexists. split; [done|]. intros ? [= <-].
      destruct (complete_fields ret Fulfilled (after_request requestKey (catch_error e s)))
        as (_ & _ & -> & -> & _). done.
  - intros [= <-]. rewrite Hc. simpl. by rewrite Hnone.
Qed.

Lemma resume_flush s ret all s' :
  wf s → suspended s !! ret = Some (FlushRequestQueueK all) →
  resume ret s = Some s' →
  (∀ p, p ∈ all → promises s !! p = Some Fulfilled)
  ∧ promises s' !! ret = Some Fulfilled
  ∧ requestQueue s' = [].
Proof.
  intros Hwf Hret. destruct (wf_suspended s Hwf ret _ Hret) as (_ & Hnone & _).
  destruct (wf_deferred s Hwf) as (_ & _ & Hd).
  unfold resume. rewrite Hret.
  destruct (promise_all (promises s) all) as [[|e]|] eqn:Hall; [| |done].
  - intros [= <-]. split; [by apply promise_all_fulfilled|]. split.
    + unfold complete. rewrite settle_lookup. simpl.
      unfold after_flush. rewrite settle_lookup. simpl. rewrite Hnone.
      rewrite decide_False by congruence. by rewrite decide_True.
    + rewrite (proj1 (complete_fields _ _ _)). unfold after_flush.
      by rewrite (proj1 (settle_fields _ _ _)).
  - by destruct (flush_never_rejected s ret all e).
Qed.

Lemma flush_progress_exec mediaContext o s s' ret all :
  wf s → flush_progress s ret all → exec mediaContext o s = Some s' →
  flush_progress s' ret all.
Proof.
  intros Hwf Hprog Hexec.
  pose proof (wf_exec mediaContext o s s' Hwf Hexec) as Hwf'.
  destruct (keeps_exec mediaContext o s s' Hwf Hexec) as [K1 K2].
  destruct Hprog as [[Hsus Hnone]|[Hdone Hall]].
  - destruct (decide (resumed_by o = Some ret)) as [Ho|Ho].
    + destruct o; try done. injection Ho as ->. simpl in Hexec.
      destruct (resume_flush s ret all s' Hwf Hsus Hexec) as (Hall & Hret & _).
      right. split; [done|]. intros p Hp. by apply K1, Hall.
    + left. pose proof (K2 ret _ Hsus Ho) as Hsus'. split; [done|].
      by destruct (wf_suspended s' Hwf' ret _ Hsus') as (_ & ? & _).
  - right. split; [by apply K1|]. intros p Hp. by apply K1, Hall.
Qed.

Lemma request_progress_exec mediaContext o s s' ret requestKey p :
  wf s → request_progress s ret requestKey p → exec mediaContext o s = Some s' →
  request_progress s' ret requestKey p.
Proof.
  intros Hwf Hprog Hexec.
  pose proof (wf_exec mediaContext o s s' Hwf Hexec) as Hwf'.
  destruct (keeps_exec mediaContext o s s' Hwf Hexec) as [K1 K2].
  pose proof (dispatched_exec mediaContext o s s' Hexec) as [evs Hevs].
  destruct Hprog as [[Hsus Hnone]|[Hdone (r & Hp & Hr)]].
  - destruct (decide (resumed_by o = Some ret)) as [Ho|Ho].
    + destruct o; try done. injection Ho as ->. simpl in Hexec.
      destruct (resume_request s ret requestKey (Some p) s' Hwf Hsus Hexec) as (Hret & Hp).
      right. split; [done|]. destruct (Hp p eq_refl) as (r & Hr & He). exists r.
      split; [by apply K1|]. intros e ->. destruct (He e eq_refl) as [_ ->].
      apply elem_of_app. right. by apply list_elem_of_singleton.
    + left. pose proof (K2 ret _ Hsus Ho) as Hsus'. split; [done|].
      by destruct (wf_suspended s' Hwf' ret _ Hsus') as (_ & ? & _).
  - right. split; [by apply K1|]. exists r. split; [by apply K1|].
    intros e He. rewrite Hevs. apply elem_of_app. left. by apply Hr.
Qed.

Lemma request_call_exec mediaContext o s s' p :
  wf s → request_call s p → exec mediaContext o s = Some s' → request_call s' p.
Proof.
  intros Hwf Hcall Hexec.
  destruct (keeps_exec mediaContext o s s' Hwf Hexec) as [K1 K2].
  destruct Hcall as [Hdone|(key & a & Hsus)]; [left; by apply K1|].
  destruct (decide (resumed_by o = Some p)) as [Ho|Ho].
  - destruct o; try done. injection Ho as ->. simpl in Hexec.
    left. by destruct (resume_request s p key a s' Hwf Hsus Hexec).
  - right. exists key, a. by apply K2.
Qed.

Lemma flush_progress_run mediaContext ops s s' ret all :
  wf s → flush_progress s ret all → run mediaContext ops s = Some s' →
  flush_progress s' ret all.
Proof.
  revert s. induction ops as [|o ops IH]; intros s Hwf Hprog; simpl.
  - by intros [= <-].
  - destruct (exec mediaContext o s) as [s1|] eqn:E; [|done].
    apply IH; [by apply (wf_exec mediaContext o s)|].
    by apply (flush_progress_exec mediaContext o s).
Qed.

Lemma request_progress_run mediaContext ops s s' ret requestKey p :
  wf s → request_progress s ret requestKey p → run mediaContext ops s = Some s' →
  request_progress s' ret requestKey p.
Proof.
  revert s. induction ops as [|o ops IH]; intros s Hwf Hprog; simpl.
  - by intros [= <-].
  - destruct (exec mediaContext o s) as [s1|] eqn:E; [|done].
    apply IH; [by apply (wf_exec mediaContext o s)|].
    by apply (request_progress_exec mediaContext o s).
Qed.

Lemma Some_default {A} (o : option A) (d : A) : is_Some o → o = Some (default d o).
Proof. by intros [x ->]. Qed.

Lemma run_app mediaContext ops1 ops2 s :
  run mediaContext (ops1 ++ ops2) s =
  match run mediaContext ops1 s with
  | Some s1 => run mediaContext ops2 s1
  | None => None
  end.
Proof.
  revert s. induction ops1 as [|o ops1 IH]; intros s; simpl; [done|].
  destruct (exec mediaContext o s); [apply IH|done].
Qed.

Lemma request_progress_keeps s s' ret requestKey p :
  keeps s s' None → wf s' → dispatched s `prefix_of` dispatched s' →
  request_progress s ret requestKey p → request_progress s' ret requestKey p.
Proof.
  intros [K1 K2] Hwf' [evs Hevs] [[Hsus Hnone]|[Hdone (r & Hp & Hr)]].
  - left. pose proof (K2 ret _ Hsus ltac:(done)) as Hsus'. split; [done|].
    by destruct (wf_suspended s' Hwf' ret _ Hsus') as (_ & ? & _).
  - right. split; [by apply K1|]. exists r. split; [by apply K1|].
    intros e He. rewrite Hevs. apply elem_of_app. left. by apply Hr.
Qed.

(** The promise a request returns is awaited by the call that made it. *)
Lemma safelyMakeRequest_awaits requestKey s :
  wf s →
  ∃ new, invoked (safelyMakeRequest requestKey s).2 = invoked s ++ new
    ∧ ∀ c p, c ∈ new → call_promise c = Some p →
        request_progress (safelyMakeRequest requestKey s).2 (fresh s) (call_key c) p
        ∧ p ∈ enginePromises (safelyMakeRequest requestKey s).2
        ∧ promises (safelyMakeRequest requestKey s).2 !! p = None.
Proof.
  intros Hwf.
  assert (promises s !! fresh s = None) as Hnone.
  { destruct (promises s !! fresh s) eqn:E; [|done].
    pose proof (wf_promises s Hwf (fresh s) (mk_is_Some _ _ E)). lia. }
  unfold safelyMakeRequest. simpl.
  destruct (JsMap.get requestKey (requestQueue s)) as [request|]; simpl.
  2:{ exists []. split; [by rewrite app_nil_r|]. intros c p H. by apply elem_of_nil in H. }
  destruct (act_does request) as [|e|]; simpl.
  - eexists. split; [done|]. intros c p Hc. apply list_elem_of_singleton in Hc as ->. done.
  - eexists. split; [by rewrite (proj1 (proj2 (complete_fields _ _ _)))|].
    intros c p Hc. apply list_elem_of_singleton in Hc as ->. done.
  - eexists. split; [done|]. intros c p Hc. apply list_elem_of_singleton in Hc as ->.
    simpl. intros [= <-]. split; [|split].
    + left. simpl. by rewrite lookup_insert_eq.
    + apply elem_of_union_l. by apply elem_of_singleton.
    + destruct (promises s !! S (fresh s)) eqn:E; [|done].
      pose proof (wf_promises s Hwf (S (fresh s)) (mk_is_Some _ _ E)). lia.
Qed.

Lemma safelyMakeRequests_awaits requests s :
  wf s →
  ∃ new, invoked (safelyMakeRequests requests s).2 = invoked s ++ new
    ∧ ∀ c p, c ∈ new → call_promise c = Some p →
        (∃ ret, ret ∈ (safelyMakeRequests requests s).1
           ∧ request_progress (safelyMakeRequests requests s).2 ret (call_key c) p)
        ∧ p ∈ enginePromises (safelyMakeRequests requests s).2
        ∧ promises (safelyMakeRequests requests s).2 !! p = None.
Proof.
  revert s. induction requests as [|k requests IH]; intros s Hwf; simpl.
  - exists []. split; [by rewrite app_nil_r|]. intros c p H. by apply elem_of_nil in H.
  - destruct (wf_safelyMakeRequest k s Hwf) as (Hwf1 & G1 & E1 & _ & R1).
    destruct (safelyMakeRequest_awaits k s Hwf) as (new1 & Hnew1 & Hp1).
    destruct (safelyMakeRequest k s) as [p1 s1]. simpl in *. subst p1.
    destruct (wf_safelyMakeRequests requests s1 Hwf1) as (Hwf2 & G2 & _).
    destruct (IH s1 Hwf1) as (new2 & Hnew2 & Hp2).
    pose proof (dispatched_safelyMakeRequests requests s1) as Hd2.
    destruct (safelyMakeRequests requests s1) as [ps s2]. simpl in *.
    exists (new1 ++ new2). split; [by rewrite Hnew2, Hnew1, app_assoc|].
    intros c p Hc Hcp. apply elem_of_app in Hc as [Hc|Hc].
    + destruct (Hp1 c p Hc Hcp) as (Hreq & Heng & Hpend).
      pose proof (wf_engine s1 Hwf1 p Heng) as Hlt.
      pose proof G2 as (_ & _ & G2' & _). destruct (G2' p Hlt) as (E1 & _ & E3).
      split; [|split; [by apply E3|by rewrite E1]].
      exists (fresh s). split; [by apply elem_of_cons, or_introl|].
      apply (request_progress_keeps s1); [|done|done|done].
      by apply keeps_grows.
    + destruct (Hp2 c p Hc Hcp) as ((ret & Hin & Hret) & Heng & Hpend).
      split; [|done]. exists ret. split; [by apply elem_of_cons, or_intror|done].
Qed.

(** After [flushRequestQueue] has called the requests, it is suspended on
    the calls it made, and each promise a request returned is awaited by
    one of them. *)
Lemma flushRequestQueue_awaits s :
  wf s →
  ∃ all, suspended (flushRequestQueue s).2 !! (flushRequestQueue s).1
           = Some (FlushRequestQueueK all)
    ∧ promises (flushRequestQueue s).2 !! (flushRequestQueue s).1 = None
    ∧ (∀ p, p ∈ all → request_call (flushRequestQueue s).2 p)
    ∧ ∀ c p, c ∈ calls_since s (flushRequestQueue s).2 → call_promise c = Some p →
        (∃ ret, ret ∈ all
           ∧ request_progress (flushRequestQueue s).2 ret (call_key c) p)
        ∧ p ∈ enginePromises (flushRequestQueue s).2
        ∧ promises (flushRequestQueue s).2 !! p = None.
Proof.
  intros Hwf. pose proof (wf_flushRequestQueue s Hwf) as (Hwf' & _).
  destruct (wf_new_promise s Hwf) as [Hwf1 Hu1]. revert Hwf'.
  unfold flushRequestQueue, calls_since. simpl in *.
  destruct (wf_safelyMakeRequests (JsMap.keys (requestQueue s)) _ Hwf1) as (Hwf2 & G2 & R2).
  destruct (safelyMakeRequests_awaits (JsMap.keys (requestQueue s)) _ Hwf1)
    as (new & Hnew & Hp).
  destruct (safelyMakeRequests _ _) as [all s2]. simpl in *. intros Hwf'.
  pose proof (unused_grows _ _ _ G2 Hu1) as Hu2.
  pose proof Hu2 as (_ & Hnone & _ & Hsus & _).
  exists all. split; [|split; [|split]].
  - simpl. by rewrite lookup_insert_eq.
  - done.
  - intros p Hin. by apply request_call_suspend, R2.
  - rewrite Hnew, drop_app_length. intros c p Hc Hcp.
    destruct (Hp c p Hc Hcp) as ((ret & Hin & Hret) & Heng & Hpend).
    split; [|done]. exists ret. split; [done|].
    apply (request_progress_keeps s2); [by apply keeps_suspend|done|done|done].
Qed.

(** The event loop can always bring the calls of a flush to their end: the
    engine settles the promises the requests returned, each as [result]
    says, and each call is resumed. *)
Definition settles_as (result : nat → settlement) (o : op) : Prop :=
  match o with
  | Settle p r => r = result p
  | Resume _ => True
  | _ => False
  end.

Lemma drain mediaContext (result : nat → settlement) (all : list nat) : ∀ s,
  wf s → (∀ p, p ∈ all → request_call s p) →
  ∃ ops s', run mediaContext ops s = Some s'
    ∧ (∀ p, p ∈ all → promises s' !! p = Some Fulfilled)
    ∧ (∀ ret all', suspended s !! ret = Some (FlushRequestQueueK all') →
         suspended s' !! ret = Some (FlushRequestQueueK all'))
    ∧ Forall (settles_as result) ops.
Proof.
  induction all as [|p all IH]; intros s Hwf Hcalls.
  - exists [], s. split; [done|]. split; [|done]. intros p H. by apply elem_of_nil in H.
  - assert (∀ o s1, exec mediaContext o s = Some s1 → resumed_by o = None ∨ resumed_by o = Some p →
              promises s1 !! p = Some Fulfilled →
              request_call s p →
              ∃ ops s', run mediaContext (o :: ops) s = Some s'
                ∧ (∀ q, q ∈ p :: all → promises s' !! q = Some Fulfilled)
                ∧ (∀ ret all', suspended s !! ret = Some (FlushRequestQueueK all') →
                     suspended s' !! ret = Some (FlushRequestQueueK all'))
                ∧ Forall (settles_as result) ops) as Hstep.
    { intros o s1 Hexec Ho Hp Hcall.
      pose proof (wf_exec mediaContext o s s1 Hwf Hexec) as Hwf1.
      destruct (IH s1 Hwf1) as (ops & s' & Hrun & Hall & Hframe & Hops).
      { intros q Hq. apply (request_call_exec mediaContext o s); [done| |done].
        apply Hcalls. by apply elem_of_cons, or_intror. }
      exists ops, s'. simpl. rewrite Hexec. split; [done|]. split; [|split; [|done]].
      - intros q Hq. apply elem_of_cons in Hq as [->|Hq]; [|by apply Hall].
        by apply (promises_run mediaContext ops s1).
      - intros ret all' Hret. apply Hframe.
        destruct (keeps_exec mediaContext o s s1 Hwf Hexec) as [_ K2].
        apply K2; [done|]. destruct Ho as [-> | ->]; [done|].
        intros [= ->]. destruct Hcall as [HF|(key & a & HS)]; [|congruence].
        destruct (wf_suspended s Hwf ret _ Hret) as (_ & ? & _). congruence. }
    pose proof (Hcalls p (proj2 (elem_of_cons _ _ _) (or_introl eq_refl))) as Hcall.
    destruct Hcall as [Hdone|(key & a & Hsus)].
    + destruct (IH s Hwf) as (ops & s' & Hrun & Hall & Hframe & Hops).
      { intros q Hq. apply Hcalls. by apply elem_of_cons, or_intror. }
      exists ops, s'. split; [done|]. split; [|done].
      intros q Hq. apply elem_of_cons in Hq as [->|Hq]; [|by apply Hall].
      by apply (promises_run mediaContext ops s).
    + assert (∀ s0, wf s0 → suspended s0 !! p = Some (SafelyMakeRequestK key a) →
                (∀ pa, a = Some pa → is_Some (promises s0 !! pa)) →
                ∃ s1, exec mediaContext (Resume p) s0 = Some s1
                  ∧ promises s1 !! p = Some Fulfilled) as Hres.
      { intros s0 Hwf0 Hsus0 Ha. simpl.
        assert (is_Some (resume p s0)) as [s1 Hs1].
        { unfold resume. rewrite Hsus0. destruct a as [pa|]; [|by eexists].
          destruct (Ha pa eq_refl) as [[|e] ->]; by eexists. }
        exists s1. split; [done|].
        by destruct (resume_request s0 p key a s1 Hwf0 Hsus0 Hs1). }
      destruct a as [pa|].
      * destruct (promises s !! pa) as [r|] eqn:Hpa.
        -- destruct (Hres s Hwf Hsus) as (s1 & Hexec & Hp1).
           { intros ? [= <-]. by eexists. }
           destruct (Hstep (Resume p) s1) as (ops & s' & ? & ? & ? & ?); auto.
           { right. eauto. }
           exists (Resume p :: ops), s'.
           split; [done|]. split; [done|]. split; [done|]. by apply Forall_cons_2.
        -- destruct (wf_suspended s Hwf p _ Hsus) as (_ & _ & _ & Hk). simpl in Hk.
           assert (exec mediaContext (Settle pa (result pa)) s = Some (settle pa (result pa) s)) as Hset.
           { simpl. unfold engine_settle. by rewrite decide_True. }
           pose proof (wf_exec mediaContext _ s _ Hwf Hset) as Hwf0.
           destruct (keeps_exec mediaContext _ s _ Hwf Hset) as [K1 K2].
           destruct (Hres (settle pa (result pa) s) Hwf0) as (s1 & Hexec & Hp1).
           { by apply K2. }
           { intros ? [= <-]. rewrite settle_lookup, Hpa. rewrite decide_True by done.
             by eexists. }
           destruct (IH s1) as (ops & s' & Hrun & Hall & Hframe & Hops).
           { by apply (wf_exec mediaContext (Resume p) (settle pa (result pa) s)). }
           { intros q Hq.
             apply (request_call_exec mediaContext (Resume p) (settle pa (result pa) s)); [done| |done].
             apply (request_call_exec mediaContext (Settle pa (result pa)) s); [done| |done].
             apply Hcalls. by apply elem_of_cons, or_intror. }
           exists (Settle pa (result pa) :: Resume p :: ops), s'.
           split. { cbn [run]. rewrite Hset. cbn [run]. by rewrite Hexec. }
           split; [|split; [|by apply Forall_cons_2; [|apply Forall_cons_2]]].
           ++ intros q Hq. apply elem_of_cons in Hq as [->|Hq]; [|by apply Hall].
              apply (promises_run mediaContext ops s1); [|done|done].
              by apply (wf_exec mediaContext (Resume p) (settle pa (result pa) s)).
           ++ intros ret all' Hret. apply Hframe.
              destruct (keeps_exec mediaContext (Resume p) _ s1 Hwf0 Hexec) as [_ K2'].
              apply K2'; [by apply K2|]. intros [= ->]. simpl in *. congruence.
      * destruct (Hres s Hwf Hsus) as (s1 & Hexec & Hp1); [done|].
        destruct (Hstep (Resume p) s1) as (ops & s' & ? & ? & ? & ?); auto.
        { right. eauto. }
        exists (Resume p :: ops), s'.
           split; [done|]. split; [done|]. split; [done|]. by apply Forall_cons_2.
Qed.

(** *** Errors of requests *)

(** The errors the requests of the keys [requests] throw when they are
    called from the queue [q]. *)
Fixpoint thrown_for (q : list (string * action)) (requests : list string) : list value :=
  match requests with
  | [] => []
  | k :: rest =>
      match JsMap.get k q with
      | Some request =>
          match act_does request with
          | Throws e => e :: thrown_for q rest
          | _ => thrown_for q rest
          end
      | None => thrown_for q rest
      end
  end.

(** The errors the requests of a queue throw, in the order of the queue. *)
Definition thrown (q : list (string * action)) : list value :=
  omap (λ entry : string * action,
          match act_does entry.2 with Throws e => Some e | _ => None end) q.

(** The details of the error events among [evs]. *)
Definition errors (evs : list event) : list value :=
  omap (λ ev, match ev with VdsErrorEvent e => Some e | _ => None end) evs.

(** [context.error] holds the error of the last error event. *)
Definition error_recorded (s : provider) : Prop :=
  ∀ e, last (errors (dispatched s)) = Some e → context s !! "error"%string = Some e.

(** Writing the errors [es] to [context.error], one after the other. *)
Definition record_errors (es : list value) (ctx : gmap string value) : gmap string value :=
  foldl (λ c e, <["error"%string := e]> c) ctx es.

Lemma thrown_for_ext q q' requests :
  (∀ k, k ∈ requests → JsMap.get k q' = JsMap.get k q) →
  thrown_for q' requests = thrown_for q requests.
Proof.
  induction requests as [|k requests IH]; intros H; simpl; [done|].
  rewrite (H k) by apply elem_of_cons, or_introl, eq_refl.
  rewrite IH; [done|]. intros k' Hk'. apply H. by apply elem_of_cons, or_intror.
Qed.

Lemma thrown_for_keys (q : list (string * action)) :
  JsMap.wf q → thrown_for q (JsMap.keys q) = thrown q.
Proof.
  unfold JsMap.wf, JsMap.keys, thrown.
  assert (∀ q0 : list (string * action),
            (∀ k a, (k, a) ∈ q → JsMap.get k q0 = Some a) →
            thrown_for q0 q.*1 =
            omap (λ entry : string * action,
                    match act_does entry.2 with Throws e => Some e | _ => None end) q) as Hgen.
  { intros q0. induction q as [|[k a] q IH]; intros Hq; csimpl; [done|].
    rewrite (Hq k a) by apply elem_of_cons, or_introl, eq_refl.
    rewrite IH by (intros k' a' Hin; apply Hq; by apply elem_of_cons, or_intror).
    by destruct (act_does a). }
  intros Hwf. apply Hgen. intros k a Hin. by apply JsMap.get_elem_of.
Qed.

Lemma safelyMakeRequest_thrown requestKey s :
  dispatched (safelyMakeRequest requestKey s).2 =
    dispatched s ++ (VdsErrorEvent <$> thrown_for (requestQueue s) [requestKey])
  ∧ context (safelyMakeRequest requestKey s).2 =
    record_errors (thrown_for (requestQueue s) [requestKey]) (context s).
Proof.
  unfold safelyMakeRequest. simpl.
  destruct (JsMap.get requestKey (requestQueue s)) as [request|]; simpl.
  2:{ by rewrite app_nil_r. }
  destruct (act_does request); simpl; rewrite ?app_nil_r; try done.
  by destruct (complete_fields (fresh s) Fulfilled
    (after_request requestKey (catch_error e
       (record_call (Call requestKey (act_id request) None) (set_fresh (S (fresh s)) s)))))
    as (_ & _ & -> & -> & _).
Qed.

Lemma safelyMakeRequests_thrown requests s :
  NoDup requests →
  dispatched (safelyMakeRequests requests s).2 =
    dispatched s ++ (VdsErrorEvent <$> thrown_for (requestQueue s) requests)
  ∧ context (safelyMakeRequests requests s).2 =
    record_errors (thrown_for (requestQueue s) requests) (context s).
Proof.
  revert s. induction requests as [|k requests IH]; intros s Hnd.
  - simpl. by rewrite app_nil_r.
  - apply NoDup_cons in Hnd as [Hk Hnd].
    destruct (safelyMakeRequest_thrown k s) as [Hd Hc].
    assert (thrown_for (requestQueue (safelyMakeRequest k s).2) requests
            = thrown_for (requestQueue s) requests) as Hext.
    { apply thrown_for_ext. intros k' Hk'. apply safelyMakeRequest_get.
      intros ->. done. }
    destruct (IH (safelyMakeRequest k s).2 Hnd) as [IHd IHc].
    assert (thrown_for (requestQueue s) (k :: requests)
            = thrown_for (requestQueue s) [k] ++ thrown_for (requestQueue s) requests) as ->.
    { simpl. destruct (JsMap.get k (requestQueue s)) as [a|]; [|done].
      by destruct (act_does a). }
    cbn [safelyMakeRequests].
    destruct (safelyMakeRequest k s) as [p s1]. cbn [snd] in *.
    destruct (safelyMakeRequests requests s1) as [ps s2]. cbn [snd] in *.
    rewrite IHd, IHc, Hd, Hc, Hext. unfold record_errors.
    by rewrite fmap_app, app_assoc, foldl_app.
Qed.

(** The requests of a flush that throw: each error is written to
    [context.error] and dispatched at once, in the order of the queue. *)
Lemma flushRequestQueue_thrown s :
  JsMap.wf (requestQueue s) →
  dispatched (flushRequestQueue s).2 =
    dispatched s ++ (VdsErrorEvent <$> thrown (requestQueue s))
  ∧ context (flushRequestQueue s).2 = record_errors (thrown (requestQueue s)) (context s).
Proof.
  intros Hwf. unfold flushRequestQueue. simpl.
  destruct (safelyMakeRequests_thrown (JsMap.keys (requestQueue s))
              (set_fresh (S (fresh s)) s) Hwf) as [Hd Hc].
  destruct (safelyMakeRequests _ _) as [all s1]. simpl in *.
  by rewrite Hd, Hc, thrown_for_keys.
Qed.

Lemma errors_app evs1 evs2 : errors (evs1 ++ evs2) = errors evs1 ++ errors evs2.
Proof. unfold errors. by rewrite omap_app. Qed.

Lemma errors_error_events es : errors (VdsErrorEvent <$> es) = es.
Proof. induction es as [|e es IH]; csimpl; [done|]. by rewrite IH. Qed.

Lemma record_errors_lookup es ctx :
  record_errors es ctx !! "error"%string =
  match last es with Some e => Some e | None => ctx !! "error"%string end.
Proof.
  revert ctx. induction es as [|e es IH]; intros ctx; simpl; [by destruct (ctx !! _)|].
  unfold record_errors in *. rewrite IH. destruct es as [|e' es]; simpl.
  - by rewrite lookup_insert_eq.
  - destruct (last (e' :: es)) eqn:E; [done|]. by apply last_None in E.
Qed.

Lemma error_recorded_thrown s s' es :
  dispatched s' = dispatched s ++ (VdsErrorEvent <$> es) →
  context s' = record_errors es (context s) →
  error_recorded s → error_recorded s'.
Proof.
  intros Hd Hc Hrec e. rewrite Hd, Hc, errors_app, errors_error_events, record_errors_lookup.
  rewrite last_app. destruct (last es) as [e'|]; [done|]. apply Hrec.
Qed.

Lemma error_recorded_same s s' others :
  dispatched s' = dispatched s ++ others → errors others = [] →
  context s' !! "error"%string = context s !! "error"%string →
  error_recorded s → error_recorded s'.
Proof.
  intros Hd Ho Hc Hrec e. rewrite Hd, Hc, errors_app, Ho, app_nil_r. apply Hrec.
Qed.

(** The steps that do not write [context.error] on their own account. *)
Definition keeps_error_field (o : op) : Prop :=
  match o with
  | SetContext name _ => name ≠ "error"%string
  | HardResetMediaContext | DisconnectedCallback => False
  | _ => True
  end.

Lemma softReset_error decls ctx : softReset decls ctx !! "error"%string = ctx !! "error"%string.
Proof.
  revert ctx. induction decls as [|[name decl] decls IH]; intros ctx; simpl; [done|].
  rewrite IH. case_bool_decide as Hin; [|done].
  rewrite lookup_insert_ne; [done|]. intros ->. revert Hin.
  unfold softResettableMediaCtxProps. rewrite !elem_of_cons, elem_of_nil.
  intros H. repeat (destruct H as [H|H]; [discriminate H|]). done.
Qed.

Lemma after_flush_fields s :
  context (after_flush s) = context s ∧ dispatched (after_flush s) = dispatched s.
Proof.
  unfold after_flush.
  by destruct (settle_fields
       (pendingRequestQueueFlush (set_requestQueue (JsMap.clear (requestQueue s)) s))
       Fulfilled (set_requestQueue (JsMap.clear (requestQueue s)) s))
    as (_ & _ & -> & -> & _).
Qed.

Lemma resetRequestQueue_fields s :
  context (resetRequestQueue s) = context s
  ∧ dispatched (resetRequestQueue s) = dispatched s.
Proof.
  unfold resetRequestQueue. simpl.
  by destruct (settle_fields (pendingRequestQueueFlush s) Fulfilled
       (set_requestQueue (JsMap.clear (requestQueue s)) s))
    as (_ & _ & -> & -> & _).
Qed.

Lemma error_recorded_resume ret s s' :
  resume ret s = Some s' → error_recorded s → error_recorded s'.
Proof.
  unfold resume. destruct (suspended s !! ret) as [k|]; [|done].
  assert (∀ r x, error_recorded x → error_recorded (complete ret r x)) as Hc.
  { intros r x. destruct (complete_fields ret r x) as (_ & _ & Ec & Ed & _).
    apply (error_recorded_same x _ []); [by rewrite app_nil_r|done|by rewrite Ec]. }
  destruct k as [key [p|]|all|d].
  - destruct (promises s !! p) as [[|e]|]; [| |done]; intros [= <-] Hrec; apply Hc.
    + apply (error_recorded_same s _ []); [by rewrite app_nil_r|done|done|done].
    + by apply (error_recorded_thrown s _ [e]).
  - intros [= <-] Hrec. apply Hc.
    apply (error_recorded_same s _ []); [by rewrite app_nil_r|done|done|done].
  - destruct (promise_all (promises s) all) as [[|e]|]; [| |done]; intros [= <-] Hrec;
      apply Hc; [|done].
    destruct (after_flush_fields s) as [Ec Ed].
    apply (error_recorded_same s _ []); [by rewrite app_nil_r, Ed|done|by rewrite Ec|done].
  - destruct (promises s !! d) as [r|]; [|done]. intros [= <-] Hrec. by apply Hc.
Qed.

Lemma error_recorded_exec mediaContext o s s' :
  wf s → keeps_error_field o → exec mediaContext o s = Some s' →
  error_recorded s → error_recorded s'.
Proof.
  intros Hwf Ho. destruct o; simpl in *; try done; try (intros [= <-] Hrec).
  - unfold makeRequest. set (s1 := set_requestQueue _ s).
    destruct (negb (truthy (canPlay s1))).
    + apply (error_recorded_same s _ []); [by rewrite app_nil_r|done|done|done].
    + destruct (safelyMakeRequest_thrown requestKey s1) as [Hd Hc].
      destruct (safelyMakeRequest requestKey s1) as [ret s2]. simpl in *.
      by apply (error_recorded_thrown s _ (thrown_for (requestQueue s1) [requestKey])).
  - destruct (flushRequestQueue_thrown s (wf_queue s Hwf)) as [Hd Hc].
    by apply (error_recorded_thrown s _ (thrown (requestQueue s))).
  - destruct (resetRequestQueue_fields s) as [Ec Ed].
    apply (error_recorded_same s _ []); [by rewrite app_nil_r, Ed|done|by rewrite Ec|done].
  - unfold waitForRequestQueueToFlush. simpl. destruct (truthy _); simpl.
    + destruct (complete_fields (fresh s) Fulfilled (set_fresh (S (fresh s)) s))
        as (_ & _ & Ec & Ed & _).
      apply (error_recorded_same s _ []); [by rewrite app_nil_r, Ed|done|by rewrite Ec|done].
    + apply (error_recorded_same s _ []); [by rewrite app_nil_r|done|done|done].
  - apply (error_recorded_same s _ []); [by rewrite app_nil_r|done| |done].
    simpl. apply softReset_error.
  - apply (error_recorded_same s _ []); [by rewrite app_nil_r|done| |done].
    simpl. by rewrite lookup_insert_ne.
  - unfold engine_settle. case_decide; [|done]. intros [= <-] Hrec.
    destruct (settle_fields p r s) as (_ & _ & Ec & Ed & _).
    apply (error_recorded_same s _ []); [by rewrite app_nil_r, Ed|done|by rewrite Ec|done].
  - apply error_recorded_resume.
Qed.

Lemma error_recorded_run mediaContext ops s s' :
  wf s → Forall keeps_error_field ops → run mediaContext ops s = Some s' →
  error_recorded s → error_recorded s'.
Proof.
  revert s. induction ops as [|o ops IH]; intros s Hwf Hops; simpl.
  - by intros [= <-].
  - apply Forall_cons in Hops as [Ho Hops].
    destruct (exec mediaContext o s) as [s1|] eqn:E; [|done]. intros Hrun Hrec.
    apply (IH s1); [by apply (wf_exec mediaContext o s)|done|done|].
    by apply (error_recorded_exec mediaContext o s).
Qed.

(** *** Key coalescing *)

(** Requests as the setters of the provider queue them: [paused = false]
    calls [play()], [paused = true] calls [pause()]. *)
Definition play_request : action := Action 1 Returns.
Definition pause_request : action := Action 2 Returns.
Definition volume_request : action := Action 3 Returns.
Definition fullscreen_request : action := Action 4 ReturnsPromise.
Definition failing_request : action := Action 5 (Throws (VThrown 0)).

Lemma canPlay_set_requestQueue q s : canPlay (set_requestQueue q s) = canPlay s.
Proof. done. Qed.






(** The play button's case: [paused = false] and then [paused = true]
    before the media can play.  [play()] is never called; the flush calls
    [pause()]. *)
Example play_then_pause_before_ready :
  let queued :=
    makeRequest "paused" pause_request (makeRequest "paused" play_request (init ∅)) in
  invoked queued = []
  ∧ served <$> invoked (flushRequestQueue queued).2
    = [("paused"%string, act_id pause_request)].
Proof. split; reflexivity. Qed.

(** *** Flush ordering *)

Lemma wf_makeRequests rs s : wf s → wf (makeRequests rs s).
Proof.
  revert s. induction rs as [|r rs IH]; intros s Hwf; [done|].
  apply IH. by apply wf_makeRequest.
Qed.

(** While the event loop runs, a promise of the engine is settled by the
    engine only. *)
Lemma engine_settled_exec mediaContext result o s s' p r :
  wf s → settles_as result o → exec mediaContext o s = Some s' →
  p ∈ enginePromises s → promises s !! p = None →
  p ∈ enginePromises s'
  ∧ (promises s' !! p = Some r → r = result p).
Proof.
  intros Hwf Ho Hexec Heng Hpend. destruct o; simpl in *; try done.
  - revert Hexec. unfold engine_settle. case_decide; [|done]. intros [= <-].
    destruct (settle_fields p0 r0 s) as (_ & _ & _ & _ & _ & -> & _).
    split; [done|]. rewrite settle_lookup, Hpend. case_decide; [|done].
    subst. by intros [= <-].
  - assert (suspended s !! p = None) as Hsus.
    { destruct (suspended s !! p) as [k|] eqn:E; [|done].
      by destruct (wf_suspended s Hwf p k E) as (_ & _ & ? & _). }
    destruct (wf_deferred s Hwf) as (_ & Hd & _).
    assert (∀ r0 x, enginePromises x = enginePromises s → promises x !! p = None →
              p ∈ enginePromises (complete ret r0 x)
              ∧ (promises (complete ret r0 x) !! p = Some r → r = result p)) as Hc.
    { intros r0 x Ex Hx. destruct (complete_fields ret r0 x) as (_ & _ & _ & _ & _ & -> & _).
      rewrite Ex. split; [done|]. unfold complete. rewrite settle_lookup. simpl.
      rewrite Hx. case_decide as Hp; [|done]. subst p.
      revert Hexec. unfold resume. by rewrite Hsus. }
    revert Hexec. unfold resume. destruct (suspended s !! ret) as [k|]; [|done].
    destruct k as [key [pa|]|all|d].
    + destruct (promises s !! pa) as [[|e]|]; [| |done]; intros [= <-]; by apply Hc.
    + intros [= <-]. by apply Hc.
    + destruct (promise_all (promises s) all) as [[|e]|]; [| |done]; intros [= <-];
        apply Hc; try done.
      * unfold after_flush. by rewrite (proj1 (proj2 (proj2 (proj2 (proj2 (proj2
          (settle_fields _ _ _))))))).
      * unfold after_flush. rewrite settle_lookup. simpl. rewrite Hpend.
        rewrite decide_False; [done|]. by intros ->.
    + destruct (promises s !! d) as [r0|]; [|done]. intros [= <-]. by apply Hc.
Qed.

Lemma engine_settled_run mediaContext result ops s s' p r :
  wf s → Forall (settles_as result) ops → run mediaContext ops s = Some s' →
  p ∈ enginePromises s → promises s !! p = None →
  promises s' !! p = Some r → r = result p.
Proof.
  revert s. induction ops as [|o ops IH]; intros s Hwf Hops; simpl.
  - intros [= <-] _ Hpend Hr. congruence.
  - apply Forall_cons in Hops as [Ho Hops].
    destruct (exec mediaContext o s) as [s1|] eqn:E; [|done].
    intros Hrun Heng Hpend Hr.
    pose proof (wf_exec mediaContext o s s1 Hwf E) as Hwf1.
    destruct (promises s1 !! p) as [r1|] eqn:Hp1.
    + destruct (engine_settled_exec mediaContext result o s s1 p r1 Hwf Ho E Heng Hpend)
        as [_ Hres].
      rewrite (promises_run mediaContext ops s1 s' p r1 Hwf1 Hrun Hp1) in Hr.
      injection Hr as <-. by apply Hres.
    + destruct (engine_settled_exec mediaContext result o s s1 p r Hwf Ho E Heng Hpend)
        as [Heng1 _].
      by apply (IH s1).
Qed.

(** What holds of a flush from the moment it has called the requests: its
    promise is pending; it is settled only after every promise a request
    returned is settled, fulfilled, with the queue emptied at that step and
    every rejection dispatched as an error event; and however the engine
    settles the promises of the requests, the event loop can bring the
    flush to that end. *)
Lemma flushRequestQueue_settles mediaContext s :
  wf s →
  let ret := (flushRequestQueue s).1 in
  let flushed := (flushRequestQueue s).2 in
  promises flushed !! ret = None
  ∧ (∀ ops s', run mediaContext ops flushed = Some s' →
       is_Some (promises s' !! ret) →
       promises s' !! ret = Some Fulfilled
       ∧ ∀ c p, c ∈ calls_since s flushed → call_promise c = Some p →
           ∃ r, promises s' !! p = Some r
             ∧ ∀ e, r = Rejected e → VdsErrorEvent e ∈ dispatched s')
  ∧ (∀ ops o s1 s2, run mediaContext ops flushed = Some s1 →
       exec mediaContext o s1 = Some s2 →
       promises s1 !! ret = None → is_Some (promises s2 !! ret) →
       requestQueue s2 = [])
  ∧ (∀ result, ∃ ops s', run mediaContext ops flushed = Some s'
       ∧ promises s' !! ret = Some Fulfilled ∧ requestQueue s' = []
       ∧ ∀ c p, c ∈ calls_since s flushed → call_promise c = Some p →
           promises s' !! p = Some (result p)).
Proof.
  intros Hwf ret flushed.
  destruct (wf_flushRequestQueue s Hwf) as (Hwf' & _).
  destruct (flushRequestQueue_awaits s Hwf) as (all & Hsus & Hnone & Hcalls & Hawait).
  fold ret flushed in Hwf', Hsus, Hnone, Hcalls, Hawait.
  assert (flush_progress flushed ret all) as Hprog by (by left).
  assert (∀ ops s', run mediaContext ops flushed = Some s' →
       is_Some (promises s' !! ret) →
       promises s' !! ret = Some Fulfilled
       ∧ ∀ c p, c ∈ calls_since s flushed → call_promise c = Some p →
           ∃ r, promises s' !! p = Some r
             ∧ ∀ e, r = Rejected e → VdsErrorEvent e ∈ dispatched s') as Hsafe.
  { intros ops s' Hrun [r Hr].
    pose proof (flush_progress_run mediaContext ops flushed s' ret all Hwf' Hprog Hrun)
      as [[_ Hn]|[Hdone Hall]]; [congruence|].
    split; [done|]. intros c p Hc Hcp.
    destruct (Hawait c p Hc Hcp) as ((ret' & Hin & Hreq) & _).
    pose proof (request_progress_run mediaContext ops flushed s' ret' _ p Hwf' Hreq Hrun)
      as [[_ Hn]|[_ Hp]]; [|done].
    specialize (Hall ret' Hin). congruence. }
  split; [done|]. split; [done|]. split.
  - intros ops o s1 s2 Hrun Hexec Hn1 [r Hr].
    pose proof (wf_run mediaContext ops flushed s1 Hwf' Hrun) as Hwf1.
    pose proof (flush_progress_run mediaContext ops flushed s1 ret all Hwf' Hprog Hrun)
      as [[Hsus1 _]|[Hdone _]]; [|congruence].
    destruct (decide (resumed_by o = Some ret)) as [Ho|Ho].
    + destruct o; try done. injection Ho as ->. simpl in Hexec.
      by destruct (resume_flush s1 ret all s2 Hwf1 Hsus1 Hexec) as (_ & _ & ?).
    + destruct (keeps_exec mediaContext o s1 s2 Hwf1 Hexec) as [_ K2].
      pose proof (K2 ret _ Hsus1 Ho) as Hsus2.
      pose proof (wf_exec mediaContext o s1 s2 Hwf1 Hexec) as Hwf2.
      destruct (wf_suspended s2 Hwf2 ret _ Hsus2) as (_ & ? & _). congruence.
  - intros result.
    destruct (drain mediaContext result all flushed Hwf' Hcalls)
      as (ops & s1 & Hrun & Hall & Hframe & Hops).
    pose proof (wf_run mediaContext ops flushed s1 Hwf' Hrun) as Hwf1.
    pose proof (Hframe ret all Hsus) as Hsus1.
    assert (is_Some (resume ret s1)) as [s2 Hs2].
    { unfold resume. rewrite Hsus1.
      rewrite (proj2 (promise_all_fulfilled (promises s1) all) Hall). by eexists. }
    destruct (resume_flush s1 ret all s2 Hwf1 Hsus1 Hs2) as (_ & Hret & Hq).
    assert (run mediaContext (ops ++ [Resume ret]) flushed = Some s2) as Hrun2.
    { rewrite run_app, Hrun. simpl. by rewrite Hs2. }
    exists (ops ++ [Resume ret]), s2. split; [done|]. split; [done|]. split; [done|].
    intros c p Hc Hcp.
    destruct (Hsafe _ _ Hrun2 (mk_is_Some _ _ Hret)) as [_ Hsettled].
    destruct (Hsettled c p Hc Hcp) as (r & Hr & _). rewrite Hr. f_equal.
    destruct (Hawait c p Hc Hcp) as (_ & Heng & Hpend).
    apply (engine_settled_run mediaContext result (ops ++ [Resume ret]) flushed s2 p r);
      try done.
    apply Forall_app. split; [done|]. by apply Forall_cons_2.
Qed.



(** *** Error containment *)

(** C5 (error containment during a flush).  A flush calls every request of
    the queue, in order, whatever the requests before it did.  The errors
    of the requests that throw are written to [context.error] and
    dispatched as error events at once.  A request whose promise is
    rejected has its call resumed: the error is then written to
    [context.error] and dispatched, and the call ends normally.  The
    promise the flush returns is never rejected, and when it is settled
    every rejection has been dispatched.  As long as nothing else writes
    it, [context.error] holds the error of the last error event.  And
    however the engine settles the promises of the requests, also when it
    rejects them, the flush can run to its end. *)
Theorem flushRequestQueue_contains_errors mediaContext s :
  wf s →
  let ret := (flushRequestQueue s).1 in
  let flushed := (flushRequestQueue s).2 in
  served <$> calls_since s flushed = entry_call <$> requestQueue s
  ∧ dispatched flushed = dispatched s ++ (VdsErrorEvent <$> thrown (requestQueue s))
  ∧ context flushed = record_errors (thrown (requestQueue s)) (context s)
  ∧ (∀ ops s1 r requestKey p e, run mediaContext ops flushed = Some s1 →
       suspended s1 !! r = Some (SafelyMakeRequestK requestKey (Some p)) →
       promises s1 !! p = Some (Rejected e) →
       ∃ s2, resume r s1 = Some s2
         ∧ context s2 = <["error"%string := e]> (context s1)
         ∧ dispatched s2 = dispatched s1 ++ [VdsErrorEvent e]
         ∧ promises s2 !! r = Some Fulfilled)
  ∧ (∀ ops s', run mediaContext ops flushed = Some s' →
       is_Some (promises s' !! ret) →
       promises s' !! ret = Some Fulfilled
       ∧ ∀ c p e, c ∈ calls_since s flushed → call_promise c = Some p →
           promises s' !! p = Some (Rejected e) → VdsErrorEvent e ∈ dispatched s')
  ∧ (∀ ops s', Forall keeps_error_field ops → run mediaContext ops flushed = Some s' →
       error_recorded s → error_recorded s')
  ∧ (∀ result, ∃ ops s', run mediaContext ops flushed = Some s'
       ∧ promises s' !! ret = Some Fulfilled
       ∧ ∀ c p, c ∈ calls_since s flushed → call_promise c = Some p →
           promises s' !! p = Some (result p)).
Proof.
  intros Hwf ret flushed.
  destruct (wf_flushRequestQueue s Hwf) as (Hwf' & _). fold flushed in Hwf'.
  destruct (flushRequestQueue_thrown s (wf_queue s Hwf)) as [Hd Hc].
  destruct (flushRequestQueue_settles mediaContext s Hwf)
    as (Hpend & Hsafe & Hempty & Hlive).
  split; [by apply flushRequestQueue_calls, Hwf|]. split; [done|]. split; [done|].
  split; [|split; [|split]].
  - intros ops s1 r key p e Hrun Hsus Hp.
    pose proof (wf_run mediaContext ops flushed s1 Hwf' Hrun) as Hwf1.
    assert (is_Some (resume r s1)) as [s2 Hs2].
    { unfold resume. rewrite Hsus, Hp. by eexists. }
    exists s2. split; [done|].
    destruct (resume_request s1 r key (Some p) s2 Hwf1 Hsus Hs2) as [Hr Hrej].
    destruct (Hrej p eq_refl) as (x & Hx & He).
    rewrite Hp in Hx. injection Hx as <-. destruct (He e eq_refl) as [-> ->]. done.
  - intros ops s' Hrun Hret. destruct (Hsafe ops s' Hrun Hret) as [Hf Hall].
    split; [done|]. intros c p e Hin Hcp Hp. destruct (Hall c p Hin Hcp) as (r & Hr & He).
    apply He. congruence.
  - intros ops s' Hops Hrun Hrec.
    apply (error_recorded_run mediaContext ops flushed s'); try done.
    by apply (error_recorded_thrown s flushed (thrown (requestQueue s))).
  - intros result. destruct (Hlive result) as (ops & s' & Hrun & Hf & _ & Hres).
    by exists ops, s'.
Qed.

(** One request throws, one returns a promise, one returns. *)
Definition failing_batch : provider :=
  makeRequests [("paused"%string, failing_request);
                ("fullscreen"%string, fullscreen_request);
                ("volume"%string, volume_request)] (init ∅).

Lemma flushRequestQueue_contains_errors_witness :
  wf failing_batch
  ∧ served <$> calls_since failing_batch (flushRequestQueue failing_batch).2
    = [("paused"%string, 5); ("fullscreen"%string, 4); ("volume"%string, 3)]
  ∧ dispatched (flushRequestQueue failing_batch).2 = [VdsErrorEvent (VThrown 0)]
  ∧ context (flushRequestQueue failing_batch).2 !! "error"%string = Some (VThrown 0).
Proof.
  assert (wf failing_batch) as Hwf by apply wf_makeRequests, wf_init.
  split; [exact Hwf|].
  destruct (flushRequestQueue_contains_errors [] failing_batch Hwf)
    as (Hcalls & Hd & Hc & _).
  split; [exact Hcalls|]. split; [exact Hd|]. rewrite Hc. reflexivity.
Defined.

(** The promise of the fullscreen request is rejected after the flush: the
    error reaches [context.error] and the listeners, and the flush ends
    fulfilled with the queue empty. *)
Example flush_with_rejection :
  let ret := (flushRequestQueue failing_batch).1 in
  let flushed := (flushRequestQueue failing_batch).2 in
  ∃ s', run [] [Settle 4 (Rejected (VThrown 1)); Resume 3; Resume 5; Resume ret] flushed
        = Some s'
    ∧ promises s' !! ret = Some Fulfilled
    ∧ requestQueue s' = []
    ∧ dispatched s' = [VdsErrorEvent (VThrown 0); VdsErrorEvent (VThrown 1)]
    ∧ context s' !! "error"%string = Some (VThrown 1).
Proof.
  intros ret flushed.
  set (o := run [] [Settle 4 (Rejected (VThrown 1)); Resume 3; Resume 5; Resume ret] flushed).
  exists (default flushed o).
  split. { apply Some_default. refine (bool_decide_unpack _ _). vm_compute. exact I. }
  repeat split; vm_compute; reflexivity.
Qed.

(** *** Waiting for the flush *)

(** Modelled from the spec: the table [mediaContext] of
    [../media/media.context] is not in the sources.  Its properties and
    their defaults are the ones the [MediaContext] type documents; the two
    amounts are derived from [buffered] and [seekable]. *)
Definition mediaContext : list (string * Context) :=
  [ ("autoplay", Build_Context (VBool false) None);
    ("autoplayError", Build_Context VUndefined None);
    ("buffered", Build_Context (VTimeRanges []) None);
    ("duration", Build_Context (VNum 0) None);
    ("bufferedAmount", Build_Context (VNum 0) (Some "buffered"));
    ("canRequestFullscreen", Build_Context (VBool false) None);
    ("canPlay", Build_Context (VBool false) None);
    ("controls", Build_Context (VBool false) None);
    ("currentPoster", Build_Context (VStr "") None);
    ("currentSrc", Build_Context (VStr "") None);
    ("currentTime", Build_Context (VNum 0) None);
    ("ended", Build_Context (VBool false) None);
    ("error", Build_Context VUndefined None);
    ("fullscreen", Build_Context (VBool false) None);
    ("loop", Build_Context (VBool false) None);
    ("mediaType", Build_Context (VStr "unknown") None);
    ("muted", Build_Context (VBool false) None);
    ("paused", Build_Context (VBool true) None);
    ("played", Build_Context (VTimeRanges []) None);
    ("playing", Build_Context (VBool false) None);
    ("playsinline", Build_Context (VBool false) None);
    ("seekable", Build_Context (VTimeRanges []) None);
    ("seekableAmount", Build_Context (VNum 0) (Some "seekable"));
    ("seeking", Build_Context (VBool false) None);
    ("started", Build_Context (VBool false) None);
    ("viewType", Build_Context (VStr "unknown") None);
    ("volume", Build_Context (VNum 1000) None);
    ("waiting", Build_Context (VBool false) None) ]%string.

(** The context record a provider starts with: every property at its
    default. *)
Definition defaultContext : gmap string value :=
  list_to_map ((λ d : string * Context, (d.1, defaultValue d.2)) <$> mediaContext).

(** When the media can play, the wait is over at once. *)
Lemma waitForRequestQueueToFlush_ready s :
  wf s → truthy (canPlay s) = true →
  promises (waitForRequestQueueToFlush s).2 !! (waitForRequestQueueToFlush s).1
  = Some Fulfilled.
Proof.
  intros Hwf Hcan. destruct (wf_new_promise s Hwf) as [_ (_ & Hnone & _)].
  unfold waitForRequestQueueToFlush. simpl in *. unfold canPlay in *. simpl.
  rewrite Hcan. simpl. unfold complete. rewrite settle_lookup. simpl.
  rewrite Hnone. by rewrite decide_True.
Qed.

(** When it cannot, the caller waits for the deferred promise that is
    current at the call, and is resumed once that promise is resolved. *)
Lemma waitForRequestQueueToFlush_waits s :
  wf s → truthy (canPlay s) = false →
  let ret := (waitForRequestQueueToFlush s).1 in
  let waiting := (waitForRequestQueueToFlush s).2 in
  suspended waiting !! ret
    = Some (WaitForRequestQueueToFlushK (pendingRequestQueueFlush s))
  ∧ promises waiting !! ret = None
  ∧ ∀ s1, suspended s1 !! ret
            = Some (WaitForRequestQueueToFlushK (pendingRequestQueueFlush s)) →
      (is_Some (resume ret s1) ↔ is_Some (promises s1 !! pendingRequestQueueFlush s)).
Proof.
  intros Hwf Hcan. destruct (wf_new_promise s Hwf) as [_ (_ & Hnone & _)].
  unfold waitForRequestQueueToFlush. simpl in *. unfold canPlay in *. simpl.
  rewrite Hcan. simpl. split; [by rewrite lookup_insert_eq|]. split; [done|].
  intros s1 Hs1. unfold resume. rewrite Hs1.
  destruct (promises s1 !! pendingRequestQueueFlush s) as [r|].
  - split; intros _; by eexists.
  - split; intros [x Hx]; discriminate Hx.
Qed.

(** [resetRequestQueue] resolves the deferred promise and replaces it with
    a pending one. *)
Lemma resetRequestQueue_rearms s :
  wf s →
  is_Some (promises (resetRequestQueue s) !! pendingRequestQueueFlush s)
  ∧ promises (resetRequestQueue s) !! pendingRequestQueueFlush (resetRequestQueue s) = None.
Proof.
  intros Hwf. destruct (wf_deferred s Hwf) as (Hlt & _).
  unfold resetRequestQueue. simpl. rewrite !settle_lookup. simpl.
  rewrite (proj1 (proj2 (proj2 (proj2 (proj2 (proj2 (proj2 (settle_fields _ _ _)))))))).
  simpl. split.
  - destruct (promises s !! pendingRequestQueueFlush s); [by eexists|].
    rewrite decide_True by done. by eexists.
  - destruct (promises s !! fresh s) eqn:E.
    + pose proof (wf_promises s Hwf (fresh s) (mk_is_Some _ _ E)). lia.
    + rewrite decide_False; [done|lia].
Qed.

(** The end of [flushRequestQueue] resolves the deferred promise and
    leaves it in place. *)
Lemma after_flush_keeps_deferred s :
  is_Some (promises (after_flush s) !! pendingRequestQueueFlush (after_flush s))
  ∧ pendingRequestQueueFlush (after_flush s) = pendingRequestQueueFlush s.
Proof.
  unfold after_flush. simpl.
  rewrite (proj2 (proj2 (proj2 (proj2 (proj2 (proj2 (proj2 (settle_fields _ _ _)))))))).
  simpl. split; [|done]. rewrite settle_lookup. simpl.
  destruct (promises s !! pendingRequestQueueFlush s); [by eexists|].
  rewrite decide_True by done. by eexists.
Qed.

(** C4 (flush-wait release), at the input where the code departs from it.
    The media becomes ready and the queue is flushed; the source changes
    and the context is soft reset, so the media cannot play; a request is
    made and queued; then a caller waits for the flush.  The deferred
    promise it awaits is the one the earlier flush resolved, so the caller
    is resumed right away: its promise is fulfilled although the media
    cannot play, no flush and no reset took place since the call, and the
    request is still in the queue. *)
Theorem waitForRequestQueueToFlush_after_earlier_flush :
  ∃ s1 ret s2 s3,
    run mediaContext
      [ SetContext "canPlay" (VBool true); FlushRequestQueue; Resume 1;
        SoftResetMediaContext; MakeRequest "paused" play_request ]
      (init defaultContext) = Some s1
    ∧ truthy (canPlay s1) = false
    ∧ requestQueue s1 = [("paused"%string, play_request)]
    ∧ waitForRequestQueueToFlush s1 = (ret, s2)
    ∧ promises s2 !! ret = None
    ∧ exec mediaContext (Resume ret) s2 = Some s3
    ∧ promises s3 !! ret = Some Fulfilled
    ∧ truthy (canPlay s3) = false
    ∧ requestQueue s3 = [("paused"%string, play_request)]
    ∧ invoked s3 = [].
Proof.
  set (o1 := run mediaContext
       [ SetContext "canPlay" (VBool true); FlushRequestQueue; Resume 1;
         SoftResetMediaContext; MakeRequest "paused" play_request ]
       (init defaultContext)).
  set (s1 := default (init defaultContext) o1).
  set (w := waitForRequestQueueToFlush s1).
  set (o3 := exec mediaContext (Resume w.1) w.2).
  exists s1, w.1, w.2, (default w.2 o3).
  split. { apply Some_default. refine (bool_decide_unpack _ _). vm_compute. exact I. }
  split; [vm_compute; reflexivity|]. split; [vm_compute; reflexivity|].
  split; [apply surjective_pairing|]. split; [vm_compute; reflexivity|].
  split. { apply Some_default. refine (bool_decide_unpack _ _). vm_compute. exact I. }
  repeat split; vm_compute; reflexivity.
Qed.

(** On a provider that was never flushed the same caller keeps waiting. *)
Example waitForRequestQueueToFlush_before_first_flush :
  ∃ s1 ret s2,
    run mediaContext [ MakeRequest "paused" play_request ] (init defaultContext) = Some s1
    ∧ waitForRequestQueueToFlush s1 = (ret, s2)
    ∧ promises s2 !! ret = None
    ∧ exec mediaContext (Resume ret) s2 = None.
Proof.
  set (o1 := run mediaContext [ MakeRequest "paused" play_request ] (init defaultContext)).
  set (s1 := default (init defaultContext) o1).
  set (w := waitForRequestQueueToFlush s1).
  exists s1, w.1, w.2.
  split. { apply Some_default. refine (bool_decide_unpack _ _). vm_compute. exact I. }
  split; [apply surjective_pairing|].
  split; vm_compute; reflexivity.
Qed.

End CoreProvider.

(** * The request queue of the later providers *)
Module RequestQueue.

(** Modelled from the spec: the class [RequestQueue] ([@base/queue]) is not
    in the sources, only its tests and its callers are.  The record and the
    methods below follow the specification of the queue: a map from request
    keys to pending actions in insertion order, the mode flag
    [serveImmediately] (false: queuing, true: pass-through), the callers of
    [waitForFlush] that wait, and the terminal state after [destroy].  The
    actions that were invoked are logged with their keys. *)
Record t := Build {
  pending : list (string * action);
  serveImmediately : bool;
  destroyed : bool;
  waiting : list nat;
  released : list nat;
  nextWaiter : nat;
  invoked : list (string * nat)
}.

(** Modelled from the spec: a queue is created empty, in queuing mode. *)
Definition create : t := Build [] false false [] [] 0 [].

(** Modelled from the spec: [size], the count of pending actions. *)
Definition size (q : t) : nat := JsMap.size (pending q).

(** Modelled from the spec: writing the mode flag, as the providers do with
    [queue.serveImmediately = b]. *)
Definition set_serveImmediately (b : bool) (q : t) : t :=
  Build (pending q) b (destroyed q) (waiting q) (released q) (nextWaiter q) (invoked q).

(** Modelled from the spec: [queue(key, action)] stores the action under
    its key, over an action pending under the same key; in pass-through
    mode it invokes the action at once and does not keep it.  A destroyed
    queue accepts nothing. *)
Definition queue (key : string) (a : action) (q : t) : t :=
  if destroyed q then q
  else if serveImmediately q then
    Build (pending q) (serveImmediately q) (destroyed q) (waiting q) (released q)
      (nextWaiter q) (invoked q ++ [(key, act_id a)])
  else
    Build (JsMap.set key a (pending q)) (serveImmediately q) (destroyed q) (waiting q)
      (released q) (nextWaiter q) (invoked q).

(** Modelled from the spec: [serve(key)] invokes and removes the action
    pending under the key, if there is one, in either mode. *)
Definition serve (key : string) (q : t) : t :=
  if destroyed q then q
  else
    match JsMap.get key (pending q) with
    | None => q
    | Some a =>
        Build (JsMap.delete key (pending q)) (serveImmediately q) (destroyed q)
          (waiting q) (released q) (nextWaiter q) (invoked q ++ [(key, act_id a)])
    end.

(** Modelled from the spec: [start()] turns to pass-through mode, invokes
    the pending actions in insertion order, clears the queue and releases
    the callers of [waitForFlush]. *)
Definition start (q : t) : t :=
  if destroyed q then q
  else
    Build [] true (destroyed q) [] (released q ++ waiting q) (nextWaiter q)
      (invoked q ++ ((λ e : string * action, (e.1, act_id e.2)) <$> pending q)).

(** Modelled from the spec: [flush()] is another name of [start()]. *)
Definition flush (q : t) : t := start q.

(** Modelled from the spec: [stop()] turns back to queuing mode and leaves
    the pending actions. *)
Definition stop (q : t) : t :=
  if destroyed q then q else set_serveImmediately false q.

(** Modelled from the spec: [reset()] drops the pending actions without
    invoking them and leaves the mode.  (A destroyed queue holds no pending
    action, so there this changes nothing.) *)
Definition reset (q : t) : t :=
  Build [] (serveImmediately q) (destroyed q) (waiting q) (released q)
    (nextWaiter q) (invoked q).

(** Modelled from the spec: [destroy()] drops the pending actions, releases
    the callers of [waitForFlush] and leaves the queue inert for good. *)
Definition destroy (q : t) : t :=
  if destroyed q then q
  else
    Build [] (serveImmediately q) true [] (released q ++ waiting q) (nextWaiter q)
      (invoked q).

(** Modelled from the spec: [waitForFlush()]; the caller is released at
    once when the queue is serving or destroyed, and waits otherwise. *)
Definition waitForFlush (q : t) : nat * t :=
  let w := nextWaiter q in
  if destroyed q || serveImmediately q then
    (w, Build (pending q) (serveImmediately q) (destroyed q) (waiting q)
          (released q ++ [w]) (S w) (invoked q))
  else
    (w, Build (pending q) (serveImmediately q) (destroyed q) (waiting q ++ [w])
          (released q) (S w) (invoked q)).

(** The methods of the queue as steps. *)
Inductive op :=
| Queue (key : string) (a : action)
| Serve (key : string)
| Start
| Stop
| Reset
| Destroy
| WaitForFlush.

Definition exec (o : op) (q : t) : t :=
  match o with
  | Queue key a => queue key a q
  | Serve key => serve key q
  | Start => start q
  | Stop => stop q
  | Reset => reset q
  | Destroy => destroy q
  | WaitForFlush => (waitForFlush q).2
  end.

Definition run (ops : list op) (q : t) : t := foldl (λ q o, exec o q) q ops.

(** The steps that leave pass-through mode. *)
Definition leaves_pass_through (o : op) : bool :=
  match o with
  | Stop | Destroy => true
  | _ => false
  end.

(** What C2 says of a queue [q] on which [start()] was called and then the
    steps [ops]: [queue(key, f)] invokes [f] at once and stores nothing, and
    the size is 0 before and after. *)
Definition passes_through (q : t) (ops : list op) (key : string) (f : action) : Prop :=
  let q1 := run ops (start q) in
  let q2 := queue key f q1 in
  invoked q2 = invoked q1 ++ [(key, act_id f)]
  ∧ pending q2 = pending q1
  ∧ size q1 = 0 ∧ size q2 = 0.

Lemma run_snoc ops o q : run (ops ++ [o]) q = exec o (run ops q).
Proof. unfold run. by rewrite foldl_app. Qed.

(** Pass-through mode is an invariant of the steps other than [stop()] and
    [destroy()]: the queue serves, is live and holds nothing. *)
Lemma pass_through_invariant ops q :
  destroyed q = false →
  Forall (λ o, leaves_pass_through o = false) ops →
  let q1 := run ops (start q) in
  serveImmediately q1 = true ∧ destroyed q1 = false ∧ pending q1 = [].
Proof.
  intros Hlive. induction ops as [|o ops IH] using rev_ind; intros Hops q1.
  - unfold q1, run, start. simpl. by rewrite Hlive.
  - apply Forall_app in Hops as [Hops Ho]. apply Forall_cons in Ho as [Ho _].
    destruct (IH Hops) as (Hs & Hd & Hp). unfold q1. rewrite run_snoc.
    set (q0 := run ops (start q)) in *.
    destruct o; simpl in *; try done;
      unfold queue, serve, start, reset, waitForFlush;
      rewrite ?Hd, ?Hs, ?Hp; simpl; done.
Qed.

(** The steps that end the window of C2: [stop()] and [reset()], as the
    claim has them, and [destroy()]. *)
Definition ends_window (o : op) : bool :=
  match o with
  | Stop | Reset | Destroy => true
  | _ => false
  end.

(** C2 (pass-through mode), with [destroy()] among the steps that end the
    window.  On a queue that is not destroyed, after [start()] and any
    steps other than [stop()], [reset()] and [destroy()], [queue(key, f)]
    invokes [f] at once and stores nothing, and the size of the queue is 0
    before and after the call. *)
Theorem queue_passes_through_after_start q ops key f :
  destroyed q = false →
  Forall (λ o, ends_window o = false) ops →
  passes_through q ops key f.
Proof.
  intros Hlive Hops.
  assert (Forall (λ o, leaves_pass_through o = false) ops) as Hops'.
  { eapply Forall_impl; [exact Hops|]. intros o Ho. by destruct o. }
  destruct (pass_through_invariant ops q Hlive Hops') as (Hs & Hd & Hp).
  unfold passes_through, queue, size. rewrite Hd, Hs, Hp. done.
Qed.

Lemma queue_passes_through_after_start_witness :
  destroyed (queue "paused" CoreProvider.play_request create) = false
  ∧ Forall (λ o, ends_window o = false)
      [Queue "volume" CoreProvider.volume_request; WaitForFlush; Serve "volume"]
  ∧ passes_through (queue "paused" CoreProvider.play_request create)
      [Queue "volume" CoreProvider.volume_request; WaitForFlush; Serve "volume"]
      "paused" CoreProvider.pause_request.
Proof.
  assert (Forall (λ o, ends_window o = false)
            [Queue "volume" CoreProvider.volume_request; WaitForFlush; Serve "volume"])
    as Hops.
  { repeat (apply Forall_cons_2; [reflexivity|]). apply Forall_nil_2. }
  assert (destroyed (queue "paused" CoreProvider.play_request create) = false) as Hlive
    by reflexivity.
  split; [exact Hlive|]. split; [exact Hops|].
  apply (queue_passes_through_after_start _ _ "paused" CoreProvider.pause_request
           Hlive Hops).
Defined.

(** C2 as stated leaves [destroy()] out of the steps that end the window.
    After [start()] and then [destroy()], with no [stop()] and no [reset()],
    [queue(key, f)] does not invoke [f]; and on a queue destroyed before
    [start()], [queue(key, f)] right after [start()] does not invoke [f]
    either. *)
Lemma queue_after_destroy_is_inert :
  Forall (λ o, o ≠ Stop ∧ o ≠ Reset) [Destroy]
  ∧ ¬ passes_through create [Destroy] "volume" CoreProvider.volume_request
  ∧ ¬ passes_through (destroy create) [] "volume" CoreProvider.volume_request.
Proof.
  split; [|split].
  - apply Forall_cons_2; [done|apply Forall_nil_2].
  - intros (Hinv & _). vm_compute in Hinv. discriminate Hinv.
  - intros (Hinv & _). vm_compute in Hinv. discriminate Hinv.
Qed.

End RequestQueue.

(** * The provider of [src/media/provider/MediaProviderElement.ts] *)
Module MediaProvider.

Record provider := Provider {
  (* readonly ctx = createMediaContextRecord() *)
  ctx : gmap string value;
  (* readonly mediaRequestQueue = new RequestQueue() *)
  mediaRequestQueue : RequestQueue.t;
  (* readonly _connectedQueue = new RequestQueue() *)
  _connectedQueue : RequestQueue.t;
  (* protected _hasFlushedMediaRequestQueueOnce = false *)
  _hasFlushedMediaRequestQueueOnce : bool;
  (* the types of the events dispatched, oldest first *)
  dispatched : list string
}.

Definition set_ctx (c : gmap string value) (s : provider) : provider :=
  Provider c (mediaRequestQueue s) (_connectedQueue s)
    (_hasFlushedMediaRequestQueueOnce s) (dispatched s).

Definition set_mediaRequestQueue (q : RequestQueue.t) (s : provider) : provider :=
  Provider (ctx s) q (_connectedQueue s) (_hasFlushedMediaRequestQueueOnce s) (dispatched s).

Definition set_connectedQueue (q : RequestQueue.t) (s : provider) : provider :=
  Provider (ctx s) (mediaRequestQueue s) q (_hasFlushedMediaRequestQueueOnce s) (dispatched s).

Definition set_hasFlushedMediaRequestQueueOnce (b : bool) (s : provider) : provider :=
  Provider (ctx s) (mediaRequestQueue s) (_connectedQueue s) b (dispatched s).

Definition dispatchEvent (type : string) (s : provider) : provider :=
  Provider (ctx s) (mediaRequestQueue s) (_connectedQueue s)
    (_hasFlushedMediaRequestQueueOnce s) (dispatched s ++ [type]).

(** [_getMediaPropsToResetWhenSrcChanges()] *)
Definition _getMediaPropsToResetWhenSrcChanges : list string :=
  [ "buffered"; "buffering"; "canPlay"; "canPlayThrough"; "currentSrc";
    "currentTime"; "duration"; "ended"; "mediaType"; "paused"; "canPlay";
    "played"; "playing"; "seekable"; "seeking"; "started"; "waiting" ]%string.

(** [Object.keys(mediaContext).forEach((prop) => ...)] of
    [_softResetMediaContext], over the declarations [decls] of the
    properties and their initial values. *)
Fixpoint softReset (propsToReset : list string) (decls : list (string * value))
    (c : gmap string value) : gmap string value :=
  match decls with
  | [] => c
  | (name, initialValue) :: rest =>
      let c :=
        if bool_decide (name ∈ propsToReset) then <[name := initialValue]> c else c in
      softReset propsToReset rest c
  end.

Section MediaContext.

(** The table [mediaContext] of [../context]: each property with its
    [initialValue], in the order of [Object.keys]. *)
Variable mediaContext : list (string * value).

(** [_softResetMediaContext()] *)
Definition _softResetMediaContext (s : provider) : provider :=
  let propsToReset := _getMediaPropsToResetWhenSrcChanges in
  set_ctx (softReset propsToReset mediaContext (ctx s)) s.

(** [connectedCallback()] *)
Definition connectedCallback (s : provider) : provider :=
  let s := set_connectedQueue (RequestQueue.flush (_connectedQueue s)) s in
  set_connectedQueue (RequestQueue.set_serveImmediately true (_connectedQueue s)) s.

(** [disconnectedCallback()] *)
Definition disconnectedCallback (s : provider) : provider :=
  let s := set_connectedQueue (RequestQueue.destroy (_connectedQueue s)) s in
  let s := set_mediaRequestQueue (RequestQueue.destroy (mediaRequestQueue s)) s in
  set_hasFlushedMediaRequestQueueOnce false s.

(** The setters of [volume], [paused], [currentTime] and [muted]:
    [this.mediaRequestQueue.queue(key, () => ...)]. *)
Definition request (key : string) (a : action) (s : provider) : provider :=
  set_mediaRequestQueue (RequestQueue.queue key a (mediaRequestQueue s)) s.

(** [_handleMediaReady(event)] *)
Definition _handleMediaReady (s : provider) : provider :=
  let s := set_ctx (<["canPlay" := VBool true]> (ctx s)) s in
  let s := dispatchEvent "vds-can-play" s in
  let s := set_mediaRequestQueue (RequestQueue.flush (mediaRequestQueue s)) s in
  set_mediaRequestQueue (RequestQueue.set_serveImmediately true (mediaRequestQueue s)) s.

(** [_handleMediaSrcChange()] *)
Definition _handleMediaSrcChange (s : provider) : provider :=
  if negb (_hasFlushedMediaRequestQueueOnce s) then
    set_hasFlushedMediaRequestQueueOnce true s
  else
    let s := set_mediaRequestQueue
               (RequestQueue.set_serveImmediately false (mediaRequestQueue s)) s in
    let s := set_mediaRequestQueue (RequestQueue.reset (mediaRequestQueue s)) s in
    _softResetMediaContext s.

(** What happens to a provider element. *)
Inductive event :=
| Connected
| Disconnected
| MediaReady
| MediaSrcChange
| Request (key : string) (a : action)
| ContextWrite (name : string) (v : value).

Definition handle (e : event) (s : provider) : provider :=
  match e with
  | Connected => connectedCallback s
  | Disconnected => disconnectedCallback s
  | MediaReady => _handleMediaReady s
  | MediaSrcChange => _handleMediaSrcChange s
  | Request key a => request key a s
  | ContextWrite name v => set_ctx (<[name := v]> (ctx s)) s
  end.

Definition run (events : list event) (s : provider) : provider :=
  foldl (λ s e, handle e s) s events.

End MediaContext.

(** A provider element as constructed, with the context record [c]. *)
Definition create (c : gmap string value) : provider :=
  Provider c RequestQueue.create RequestQueue.create false [].

(** *** Soft reset *)

Lemma softReset_other propsToReset decls c name :
  name ∉ propsToReset → softReset propsToReset decls c !! name = c !! name.
Proof.
  intros Hout. revert c. induction decls as [|[n v] decls IH]; intros c; simpl; [done|].
  rewrite IH. case_bool_decide as Hin; [|done].
  rewrite lookup_insert_ne; [done|]. by intros ->.
Qed.

Lemma softReset_undeclared propsToReset decls c name :
  name ∉ decls.*1 → softReset propsToReset decls c !! name = c !! name.
Proof.
  revert c. induction decls as [|[n v] decls IH]; intros c Hout; csimpl in *; [done|].
  apply not_elem_of_cons in Hout as [Hne Hout]. rewrite IH by done.
  case_bool_decide; [|done]. by rewrite lookup_insert_ne.
Qed.

Lemma softReset_declared propsToReset decls c name v :
  NoDup decls.*1 → name ∈ propsToReset → (name, v) ∈ decls →
  softReset propsToReset decls c !! name = Some v.
Proof.
  revert c. induction decls as [|[n v0] decls IH]; intros c Hnd Hin Hdecl; csimpl in *.
  - by apply elem_of_nil in Hdecl.
  - apply NoDup_cons in Hnd as [Hn Hnd].
    apply elem_of_cons in Hdecl as [[= <- <-]|Hdecl].
    + rewrite softReset_undeclared by done. rewrite bool_decide_true by done.
      by rewrite lookup_insert_eq.
    + by apply IH.
Qed.

(** C6 (soft reset boundary).  In any state of the provider,
    [_softResetMediaContext] leaves every property outside
    [_getMediaPropsToResetWhenSrcChanges()] as it was, [volume] among them,
    and every property that [mediaContext] does not declare; it sets each
    property of that set that [mediaContext] declares to its initial value,
    [duration] among them: with the initial value [NaN], [duration] is
    [NaN] after the reset.  The queues and the flag of the provider are as
    they were. *)
Theorem softReset_keeps_session_properties
    (mediaContext : list (string * value)) (s : provider) :
  NoDup mediaContext.*1 →
  ("duration"%string, VNaN) ∈ mediaContext →
  let s' := _softResetMediaContext mediaContext s in
  ctx s' !! "duration"%string = Some VNaN
  ∧ ctx s' !! "volume"%string = ctx s !! "volume"%string
  ∧ (∀ name, name ∉ _getMediaPropsToResetWhenSrcChanges → ctx s' !! name = ctx s !! name)
  ∧ (∀ name, name ∉ mediaContext.*1 → ctx s' !! name = ctx s !! name)
  ∧ (∀ name v, name ∈ _getMediaPropsToResetWhenSrcChanges → (name, v) ∈ mediaContext →
       ctx s' !! name = Some v)
  ∧ mediaRequestQueue s' = mediaRequestQueue s
  ∧ _connectedQueue s' = _connectedQueue s
  ∧ _hasFlushedMediaRequestQueueOnce s' = _hasFlushedMediaRequestQueueOnce s.
Proof.
  intros Hnd Hduration s'. unfold s', _softResetMediaContext. simpl.
  split. { apply softReset_declared; [done| |done].
           refine (bool_decide_unpack _ _). vm_compute. exact I. }
  split. { apply softReset_other. refine (bool_decide_unpack _ _). vm_compute. exact I. }
  split; [intros name; apply softReset_other|].
  split; [intros name; apply softReset_undeclared|].
  split; [|done]. intros name v. by apply softReset_declared.
Qed.

(** Modelled from the spec: the table [mediaContext] of [../context] is not
    in the sources.  Its properties are those the getters of the provider
    read, with the defaults their documentation gives. *)
Definition mediaContext : list (string * value) :=
  [ ("autoplay", VBool false); ("buffered", VTimeRanges []);
    ("canPlay", VBool false); ("canPlayThrough", VBool false);
    ("canRequestFullscreen", VBool false); ("controls", VBool false);
    ("currentPoster", VStr ""); ("currentSrc", VStr "");
    ("currentTime", VNum 0); ("duration", VNaN); ("ended", VBool false);
    ("error", VUndefined); ("fullscreen", VBool false); ("live", VBool false);
    ("loop", VBool false); ("mediaType", VStr "unknown"); ("muted", VBool false);
    ("paused", VBool true); ("played", VTimeRanges []); ("playing", VBool false);
    ("playsinline", VBool false); ("seekable", VTimeRanges []);
    ("seeking", VBool false); ("started", VBool false);
    ("viewType", VStr "unknown"); ("volume", VNum 1000);
    ("waiting", VBool false) ]%string.

(** A context in the middle of playback: half volume, 200 seconds long. *)
Definition playing_context : gmap string value :=
  <["volume"%string := VNum 500]> (<["duration"%string := VNum 200000]>
    (<["paused"%string := VBool false]> (list_to_map mediaContext))).

Lemma softReset_keeps_session_properties_witness :
  NoDup mediaContext.*1
  ∧ ("duration"%string, VNaN) ∈ mediaContext
  ∧ ctx (_softResetMediaContext mediaContext (create playing_context)) !! "duration"%string
    = Some VNaN
  ∧ ctx (_softResetMediaContext mediaContext (create playing_context)) !! "volume"%string
    = Some (VNum 500).
Proof.
  assert (NoDup mediaContext.*1) as Hnd by (refine (bool_decide_unpack _ _); vm_compute; exact I).
  assert (("duration"%string, VNaN) ∈ mediaContext) as Hd
    by (refine (bool_decide_unpack _ _); vm_compute; exact I).
  split; [exact Hnd|]. split; [exact Hd|].
  destruct (softReset_keeps_session_properties mediaContext (create playing_context) Hnd Hd)
    as (Hduration & Hvolume & _).
  split; [exact Hduration|]. rewrite Hvolume. reflexivity.
Defined.

(** *** Source changes *)

Lemma handle_keeps_flag mediaContext e s :
  e ≠ MediaSrcChange → e ≠ Disconnected →
  _hasFlushedMediaRequestQueueOnce (handle mediaContext e s)
  = _hasFlushedMediaRequestQueueOnce s.
Proof. by destruct e. Qed.

Lemma run_events_snoc mediaContext events e s :
  run mediaContext (events ++ [e]) s = handle mediaContext e (run mediaContext events s).
Proof. unfold run. by rewrite foldl_app. Qed.

(** Before the first source change of a connection cycle the flag is down. *)
Lemma flag_down mediaContext events s :
  _hasFlushedMediaRequestQueueOnce s = false → MediaSrcChange ∉ events →
  _hasFlushedMediaRequestQueueOnce (run mediaContext events s) = false.
Proof.
  intros Hs. induction events as [|e events IH] using rev_ind; intros Hout; [done|].
  apply not_elem_of_app in Hout as [Hout He]. rewrite run_events_snoc.
  destruct e; try (by rewrite handle_keeps_flag; [apply IH| |]); [done|].
  exfalso. apply He. by apply list_elem_of_singleton.
Qed.

(** After it the flag is up until the provider disconnects. *)
Lemma flag_up mediaContext events s :
  _hasFlushedMediaRequestQueueOnce s = true → Disconnected ∉ events →
  _hasFlushedMediaRequestQueueOnce (run mediaContext events s) = true.
Proof.
  intros Hs. induction events as [|e events IH] using rev_ind; intros Hout; [done|].
  apply not_elem_of_app in Hout as [Hout He]. rewrite run_events_snoc.
  destruct e; try (by rewrite handle_keeps_flag; [apply IH| |]).
  - exfalso. apply He. by apply list_elem_of_singleton.
  - simpl. unfold _handleMediaSrcChange. rewrite IH by done. simpl. by apply IH.
Qed.

(** C7 (first-load reset skip).  A connection cycle starts with the flag
    [_hasFlushedMediaRequestQueueOnce] down: in a provider as constructed
    and after [disconnectedCallback].  From such a state, after any events
    [pre] without a source change, the first source change leaves the
    request queue, with the requests pending in it, and the context as they
    are.  After any further events [mid] of the same cycle (no disconnect;
    source changes may be among them), the next source change puts the
    queue in queuing mode, drops its pending requests without calling them,
    and soft resets the context: every property of
    [_getMediaPropsToResetWhenSrcChanges()] that [mediaContext] declares
    holds its initial value, [duration] among them, and every other
    property holds what it held, [volume] among them. *)
Theorem first_source_change_is_skipped mediaContext (s0 : provider)
    (pre mid : list event) :
  NoDup mediaContext.*1 →
  _hasFlushedMediaRequestQueueOnce s0 = false →
  MediaSrcChange ∉ pre →
  Disconnected ∉ mid →
  let loading := run mediaContext pre s0 in
  let first := _handleMediaSrcChange mediaContext loading in
  let later := run mediaContext mid first in
  let next := _handleMediaSrcChange mediaContext later in
  (mediaRequestQueue first = mediaRequestQueue loading ∧ ctx first = ctx loading)
  ∧ (RequestQueue.serveImmediately (mediaRequestQueue next) = false
     ∧ RequestQueue.pending (mediaRequestQueue next) = []
     ∧ RequestQueue.invoked (mediaRequestQueue next)
       = RequestQueue.invoked (mediaRequestQueue later)
     ∧ (∀ name v, name ∈ _getMediaPropsToResetWhenSrcChanges →
          (name, v) ∈ mediaContext → ctx next !! name = Some v)
     ∧ (∀ name, name ∉ _getMediaPropsToResetWhenSrcChanges →
          ctx next !! name = ctx later !! name)
     ∧ (∀ name, name ∉ mediaContext.*1 → ctx next !! name = ctx later !! name)
     ∧ (∀ v, ("duration"%string, v) ∈ mediaContext →
          ctx next !! "duration"%string = Some v)
     ∧ ctx next !! "volume"%string = ctx later !! "volume"%string)
  ∧ (∀ c, _hasFlushedMediaRequestQueueOnce (create c) = false)
  ∧ (∀ s, _hasFlushedMediaRequestQueueOnce (disconnectedCallback s) = false).
Proof.
  intros Hnd Hs0 Hpre Hmid loading first later next.
  pose proof (flag_down mediaContext pre s0 Hs0 Hpre) as Hdown. fold loading in Hdown.
  assert (first = set_hasFlushedMediaRequestQueueOnce true loading) as Hfirst.
  { unfold first, _handleMediaSrcChange. by rewrite Hdown. }
  assert (_hasFlushedMediaRequestQueueOnce later = true) as Hup.
  { apply flag_up; [by rewrite Hfirst|done]. }
  split; [by rewrite Hfirst|]. split; [|done].
  assert (ctx next
          = softReset _getMediaPropsToResetWhenSrcChanges mediaContext (ctx later)
          ∧ mediaRequestQueue next
            = RequestQueue.reset
                (RequestQueue.set_serveImmediately false (mediaRequestQueue later)))
    as [Hctx Hqueue].
  { unfold next, _handleMediaSrcChange. rewrite Hup. done. }
  rewrite Hqueue, Hctx.
  split; [done|]. split; [done|]. split; [done|].
  split; [|split; [|split; [|split]]].
  - intros name v Hin Hdecl. by apply softReset_declared.
  - intros name. apply softReset_other.
  - intros name. apply softReset_undeclared.
  - intros v Hdecl. apply softReset_declared; [done| |done].
    refine (bool_decide_unpack _ _). vm_compute. exact I.
  - apply softReset_other. refine (bool_decide_unpack _ _). vm_compute. exact I.
Qed.

(** The initial configuration of an element: its attributes set [volume]
    and [paused] before the media is ready. *)
Definition configured : list event :=
  [ Connected; Request "volume" CoreProvider.volume_request;
    Request "paused" CoreProvider.pause_request ].

(** What follows the first source change in the life of an element: the
    media gets ready, the user plays it and the engine reports its
    duration. *)
Definition played : list event :=
  [ MediaReady; Request "paused" CoreProvider.play_request;
    ContextWrite "duration" (VNum 90000) ].

Lemma first_source_change_is_skipped_witness :
  let s0 := create playing_context in
  let loading := run mediaContext configured s0 in
  let first := _handleMediaSrcChange mediaContext loading in
  let later := run mediaContext played first in
  let next := _handleMediaSrcChange mediaContext later in
  NoDup mediaContext.*1
  ∧ _hasFlushedMediaRequestQueueOnce s0 = false
  ∧ (MediaSrcChange ∉ configured)
  ∧ (Disconnected ∉ played)
  ∧ RequestQueue.pending (mediaRequestQueue first)
    = [("volume"%string, CoreProvider.volume_request);
       ("paused"%string, CoreProvider.pause_request)]
  ∧ ctx first = ctx loading
  ∧ RequestQueue.serveImmediately (mediaRequestQueue next) = false
  ∧ RequestQueue.pending (mediaRequestQueue next) = []
  ∧ ctx later !! "duration"%string = Some (VNum 90000)
  ∧ ctx next !! "duration"%string = Some VNaN
  ∧ ctx next !! "volume"%string = Some (VNum 500).
Proof.
  intros s0 loading first later next.
  assert (NoDup mediaContext.*1) as Hnd
    by (refine (bool_decide_unpack _ _); vm_compute; exact I).
  assert (_hasFlushedMediaRequestQueueOnce s0 = false) as H0 by reflexivity.
  assert (MediaSrcChange ∉ configured) as Hpre.
  { unfold configured. rewrite !not_elem_of_cons. repeat split; try done.
    apply not_elem_of_nil. }
  assert (Disconnected ∉ played) as Hmid.
  { unfold played. rewrite !not_elem_of_cons. repeat split; try done.
    apply not_elem_of_nil. }
  assert ("duration"%string ∈ _getMediaPropsToResetWhenSrcChanges) as Hduration
    by (refine (bool_decide_unpack _ _); vm_compute; exact I).
  assert (("duration"%string, VNaN) ∈ mediaContext) as Hdecl
    by (refine (bool_decide_unpack _ _); vm_compute; exact I).
  assert ("volume"%string ∉ _getMediaPropsToResetWhenSrcChanges) as Hvolume
    by (refine (bool_decide_unpack _ _); vm_compute; exact I).
  destruct (first_source_change_is_skipped mediaContext s0 configured played
              Hnd H0 Hpre Hmid)
    as ((Hqueue & Hctx) & (Hmode & Hpending & _ & Hreset & Hkept & _ & _ & _) & _).
  split; [exact Hnd|]. split; [exact H0|]. split; [exact Hpre|]. split; [exact Hmid|].
  split; [transitivity (RequestQueue.pending (mediaRequestQueue loading));
          [exact (f_equal RequestQueue.pending Hqueue)|reflexivity]|].
  split; [exact Hctx|].
  split; [exact Hmode|]. split; [exact Hpending|]. split; [reflexivity|].
  split; [exact (Hreset _ _ Hduration Hdecl)|].
  transitivity (ctx later !! "volume"%string); [exact (Hkept _ Hvolume)|reflexivity].
Defined.

(** The first source change of a fresh provider keeps the requests its
    attributes queued; the readiness that follows calls them, and the
    source change after that returns to an empty queue in queuing mode. *)
Example source_changes_of_a_fresh_provider :
  let s1 := run mediaContext (configured ++ [MediaSrcChange]) (create playing_context) in
  let s2 := run mediaContext [MediaReady; MediaSrcChange] s1 in
  RequestQueue.pending (mediaRequestQueue s1)
    = [("volume"%string, CoreProvider.volume_request);
       ("paused"%string, CoreProvider.pause_request)]
  ∧ RequestQueue.invoked (mediaRequestQueue s2) = [("volume"%string, 3); ("paused"%string, 2)]
  ∧ RequestQueue.serveImmediately (mediaRequestQueue s2) = false
  ∧ RequestQueue.size (mediaRequestQueue s2) = 0
  ∧ ctx s2 !! "duration"%string = Some VNaN
  ∧ ctx s2 !! "volume"%string = Some (VNum 500).
Proof. repeat split; vm_compute; reflexivity. Qed.

(** [_handleMediaReady] starts the request queue: on a queue that is not
    destroyed, what it leaves is what [start()] leaves. *)
Lemma handleMediaReady_starts s :
  RequestQueue.destroyed (mediaRequestQueue s) = false →
  mediaRequestQueue (_handleMediaReady s)
  = RequestQueue.start (mediaRequestQueue s).
Proof.
  intros Hlive. unfold _handleMediaReady. simpl.
  unfold RequestQueue.flush, RequestQueue.start. by rewrite Hlive.
Qed.

End MediaProvider.

(** * Stores

    The reactive store that mirrors the media state to its consumers, and
    [hostedStoreSubscription], which binds a subscription to the life of a
    host element. *)
Module Stores.

(** Modelled from the spec: the store implementation (the module [stores]
    with [writable] and [derived], imported by the tests) is missing from
    the sources.  A derived field names the fields it depends on and the pure
    function of their values. *)
Record derivation := Derivation {
  deps : list string;
  compute : list value → value
}.

(** Modelled from the spec: the store implementation is missing from the
    sources.  A subscription: the identity of the disposer [subscribe]
    returned, the field subscribed to and the callback. *)
Record subscriber := Subscriber {
  sub_id : nat;
  sub_field : string;
  sub_cb : nat
}.

(** Modelled from the spec: the store implementation is missing from the
    sources.  One invocation of a callback, as a test spy records it,
    together with the subscription it was made for. *)
Record call := Call {
  by_sub : nat;
  cb : nat;
  arg : value
}.

#[global] Instance call_eq_dec : EqDecision call.
Proof. solve_decision. Defined.

(** Modelled from the spec: the store implementation is missing from the
    sources.  The record of section 4.2: the writable values, the derived
    fields, the subscribers in subscription order, and the log of every
    callback invocation so far, oldest first. *)
Record store := Store {
  values : gmap string value;
  derivedFields : gmap string derivation;
  subscribers : list subscriber;
  nextId : nat;
  calls : list call
}.

Definition set_values (m : gmap string value) (s : store) : store :=
  Store m (derivedFields s) (subscribers s) (nextId s) (calls s).

Definition set_subscribers (l : list subscriber) (s : store) : store :=
  Store (values s) (derivedFields s) l (nextId s) (calls s).

Definition set_nextId (n : nat) (s : store) : store :=
  Store (values s) (derivedFields s) (subscribers s) n (calls s).

Definition set_calls (l : list call) (s : store) : store :=
  Store (values s) (derivedFields s) (subscribers s) (nextId s) l.

(** Modelled from the spec: the store implementation is missing from the
    sources.  A store with the given values and derived fields, nobody
    subscribed. *)
Definition create (vs : gmap string value) (ds : gmap string derivation) : store :=
  Store vs ds [] 0 [].

(** Modelled from the spec: the store implementation is missing from the
    sources.  [get()]: the current value; a derived field is computed from
    the current values of its dependencies. *)
Definition get (s : store) (f : string) : value :=
  match derivedFields s !! f with
  | Some d => compute d ((λ k, prop (values s) k) <$> deps d)
  | None => prop (values s) f
  end.

(** Modelled from the spec: the store implementation is missing from the
    sources.  A change of field [k] is a change for the subscribers of [k]
    and of every derived field depending on [k]. *)
Definition affects (s : store) (k f : string) : bool :=
  bool_decide (k = f)
  || match derivedFields s !! f with
     | Some d => bool_decide (k ∈ deps d)
     | None => false
     end.

(** Modelled from the spec: the store implementation is missing from the
    sources.  The callbacks a change of [k] invokes, in subscription order,
    each with the current value of the field it subscribed to. *)
Fixpoint notify (s : store) (k : string) (subs : list subscriber) : list call :=
  match subs with
  | [] => []
  | sub :: rest =>
    (if affects s k (sub_field sub)
     then [Call (sub_id sub) (sub_cb sub) (get s (sub_field sub))]
     else [])
    ++ notify s k rest
  end.

(** Modelled from the spec: the store implementation is missing from the
    sources.  Whether [set(v)] on field [k] is a change: not on a derived
    field, which rejects writes, and not when the value is the current one.
    Equality is equality of values, so [NaN] written over [NaN] is no
    change. *)
Definition changes (s : store) (k : string) (v : value) : bool :=
  match derivedFields s !! k with
  | Some _ => false
  | None => negb (bool_decide (get s k = v))
  end.

(** Modelled from the spec: the store implementation is missing from the
    sources.  [set(value)]: nothing happens unless the value changes; if it
    does, the subscribers are notified before [set] returns. *)
Definition set (k : string) (v : value) (s : store) : store :=
  if changes s k v then
    let s' := set_values (<[k := v]> (values s)) s in
    set_calls (calls s' ++ notify s' k (subscribers s')) s'
  else s.

(** Modelled from the spec: the store implementation is missing from the
    sources.  [subscribe(onChange)]: registers the listener, invokes it once
    with the current value and returns the disposer, here its identity. *)
Definition subscribe (f : string) (onChange : nat) (s : store) : nat * store :=
  let u := nextId s in
  (u, set_calls (calls s ++ [Call u onChange (get s f)])
        (set_nextId (S u)
           (set_subscribers (subscribers s ++ [Subscriber u f onChange]) s))).

(** Modelled from the spec: the store implementation is missing from the
    sources.  Calling the disposer [u]; calling it again does nothing. *)
Definition unsubscribe (u : nat) (s : store) : store :=
  set_subscribers (filter (λ sub, sub_id sub ≠ u) (subscribers s)) s.

(** Modelled from the spec: the store implementation is missing from the
    sources.  The operations of a store's clients. *)
Inductive op :=
| SetValue (k : string) (v : value)
| Subscribe (f : string) (onChange : nat)
| Unsubscribe (u : nat).

(** Modelled from the spec: the store implementation is missing from the
    sources. *)
Definition exec (o : op) (s : store) : store :=
  match o with
  | SetValue k v => set k v s
  | Subscribe f onChange => (subscribe f onChange s).2
  | Unsubscribe u => unsubscribe u s
  end.

(** Modelled from the spec: the store implementation is missing from the
    sources. *)
Definition run (ops : list op) (s : store) : store :=
  foldl (λ s o, exec o s) s ops.

(** Modelled from the spec: the store implementation is missing from the
    sources.  The invocations made for subscription [u]. *)
Definition calls_by (u : nat) (l : list call) : list call :=
  filter (λ c, by_sub c = u) l.

(** Modelled from the spec: the store implementation is missing from the
    sources.  Disposers are distinct, and [nextId] is beyond every one
    handed out. *)
Record wf (s : store) : Prop := Wf {
  wf_ids : Forall (λ sub, sub_id sub < nextId s) (subscribers s);
  wf_distinct : NoDup (sub_id <$> subscribers s);
  wf_calls : Forall (λ c, by_sub c < nextId s) (calls s)
}.

(** ** [hostedStoreSubscription]

    <<
    let unsubscribe: () => void;
    host.addController({
      hostConnected() {
        unsubscribe = (consumer?.value ?? store).subscribe(onChange);
      },
      hostDisconnected() { unsubscribe?.(); }
    });
    >>
    [field] is the store the controller resolves, a field of the record;
    [unsubscribe] is the closure variable, [None] while it is undefined. *)
Record controller := Controller {
  field : string;
  onChange : nat;
  h_unsubscribe : option nat
}.

Definition hostedStoreSubscription (f : string) (onChange : nat) : controller :=
  Controller f onChange None.

Definition hostConnected (h : controller) (s : store) : controller * store :=
  let '(u, s') := subscribe (field h) (onChange h) s in
  (Controller (field h) (onChange h) (Some u), s').

Definition hostDisconnected (h : controller) (s : store) : controller * store :=
  match h_unsubscribe h with
  | Some u => (h, unsubscribe u s)
  | None => (h, s)
  end.

(** ** Properties *)

Lemma notify_app s k l1 l2 :
  notify s k (l1 ++ l2) = notify s k l1 ++ notify s k l2.
Proof. induction l1 as [|sub l1 IH]; [done|]. simpl. by rewrite IH, (assoc_L (++)). Qed.

Lemma calls_by_app u l1 l2 :
  calls_by u (l1 ++ l2) = calls_by u l1 ++ calls_by u l2.
Proof. apply filter_app. Qed.

(** A change invokes nothing for a subscription that is not registered. *)
Lemma calls_by_notify_absent u s k subs :
  u ∉ sub_id <$> subs → calls_by u (notify s k subs) = [].
Proof.
  induction subs as [|sub subs IH]; [done|]. csimpl. intros Hout.
  apply not_elem_of_cons in Hout as [Hne Hout].
  rewrite calls_by_app, IH by done. destruct (affects s k (sub_field sub)); [|done].
  unfold calls_by. rewrite filter_cons_False; [done|]. simpl. congruence.
Qed.

(** A change invokes the callback of a registered subscription once when it
    affects its field, and not at all otherwise. *)
Lemma calls_by_notify_present u f c s k subs :
  NoDup (sub_id <$> subs) → Subscriber u f c ∈ subs →
  calls_by u (notify s k subs)
  = if affects s k f then [Call u c (get s f)] else [].
Proof.
  induction subs as [|sub subs IH]; csimpl; intros Hnd Hin.
  { by apply elem_of_nil in Hin. }
  apply NoDup_cons in Hnd as [Hfresh Hnd]. rewrite calls_by_app.
  apply elem_of_cons in Hin as [<-|Hin].
  - simpl in *. rewrite calls_by_notify_absent by done.
    destruct (affects s k f); [|done].
    unfold calls_by. rewrite filter_cons_True by done. done.
  - rewrite IH by done.
    assert (sub_id sub ≠ u) as Hne.
    { intros <-. apply Hfresh. apply list_elem_of_fmap. by exists (Subscriber (sub_id sub) f c). }
    destruct (affects s k (sub_field sub)); [|done].
    unfold calls_by at 1. rewrite filter_cons_False; [done|]. simpl. congruence.
Qed.

Lemma set_unchanged s k v : changes s k v = false → set k v s = s.
Proof. unfold set. by intros ->. Qed.

Lemma set_changed s k v :
  changes s k v = true →
  set k v s
  = let s' := set_values (<[k := v]> (values s)) s in
    set_calls (calls s ++ notify s' k (subscribers s)) s'.
Proof. unfold set. by intros ->. Qed.

Lemma changes_same s k v : get s k = v → changes s k v = false.
Proof.
  intros Hv. unfold changes. destruct (derivedFields s !! k); [done|].
  by rewrite bool_decide_eq_true_2.
Qed.

(** After a write that changed it, the field reads the value written. *)
Lemma get_set s k v : changes s k v = true → get (set k v s) k = v.
Proof.
  intros Hch. rewrite set_changed by done. unfold changes in Hch. unfold get. simpl.
  destruct (derivedFields s !! k); [done|]. unfold prop. by rewrite lookup_insert_eq.
Qed.

Lemma derivedFields_exec o s : derivedFields (exec o s) = derivedFields s.
Proof.
  destruct o as [k v|f c|u]; try done. simpl. unfold set.
  by destruct (changes s k v).
Qed.

Lemma derivedFields_run ops s : derivedFields (run ops s) = derivedFields s.
Proof.
  revert s. induction ops as [|o ops IH]; intros s; [done|].
  simpl. fold (run ops (exec o s)). by rewrite IH, derivedFields_exec.
Qed.

Lemma wf_create vs ds : wf (create vs ds).
Proof. split; simpl; [done|apply NoDup_nil_2|done]. Qed.

Lemma wf_after_set k v s : wf s → wf (set k v s).
Proof.
  intros [Hids Hnd Hcalls]. unfold set. destruct (changes s k v); [|done].
  split; simpl; try done. apply Forall_app. split; [done|].
  clear Hnd Hcalls. induction Hids as [|sub subs Hsub Hids IH]; [done|].
  simpl. apply Forall_app. split; [|done].
  destruct (affects _ k (sub_field sub)); [|done]. by apply Forall_singleton.
Qed.

Lemma wf_subscribe f c s : wf s → wf (subscribe f c s).2.
Proof.
  intros [Hids Hnd Hcalls]. split; simpl.
  - apply Forall_app. split; [|apply Forall_singleton; simpl; lia].
    eapply Forall_impl; [done|]. simpl. lia.
  - rewrite fmap_app. apply NoDup_app. split; [done|]. split; [|apply NoDup_singleton].
    intros u Hu Hu'. apply list_elem_of_singleton in Hu'. simpl in Hu'. subst u.
    apply list_elem_of_fmap in Hu as (sub & Heq & Hsub).
    rewrite Forall_forall in Hids. specialize (Hids sub Hsub). lia.
  - apply Forall_app. split; [|apply Forall_singleton; simpl; lia].
    eapply Forall_impl; [done|]. simpl. lia.
Qed.

Lemma wf_unsubscribe u s : wf s → wf (unsubscribe u s).
Proof.
  intros [Hids Hnd Hcalls]. split; simpl; [| |done].
  - rewrite Forall_forall in *. intros sub Hsub.
    apply list_elem_of_filter in Hsub as [_ Hsub]. by apply Hids.
  - eapply sublist_NoDup; [done|]. apply fmap_sublist, sublist_filter.
Qed.

Lemma wf_after_exec o s : wf s → wf (exec o s).
Proof.
  destruct o; simpl; [apply wf_after_set|apply wf_subscribe|apply wf_unsubscribe].
Qed.

Lemma wf_after_run ops s : wf s → wf (run ops s).
Proof.
  revert s. induction ops as [|o ops IH]; intros s Hwf; [done|].
  apply IH. by apply wf_after_exec.
Qed.

(** A subscription stays registered until its disposer is called. *)
Lemma subscribed_exec u f c o s :
  o ≠ Unsubscribe u →
  Subscriber u f c ∈ subscribers s → Subscriber u f c ∈ subscribers (exec o s).
Proof.
  intros Hne Hin. destruct o as [k v|f' c'|u']; simpl.
  - unfold set. by destruct (changes s k v).
  - apply elem_of_app. by left.
  - apply list_elem_of_filter. split; [|done]. simpl. congruence.
Qed.

Lemma subscribed_run u f c ops s :
  Unsubscribe u ∉ ops →
  Subscriber u f c ∈ subscribers s → Subscriber u f c ∈ subscribers (run ops s).
Proof.
  revert s. induction ops as [|o ops IH]; intros s Hout Hin; [done|].
  apply not_elem_of_cons in Hout as [Hne Hout].
  apply IH; [done|]. apply subscribed_exec; [congruence|done].
Qed.

(** What one write invokes for a registered subscription. *)
Lemma calls_by_set u f c k v s :
  wf s → Subscriber u f c ∈ subscribers s →
  calls_by u (calls (set k v s))
  = calls_by u (calls s)
    ++ (if changes s k v && affects s k f
        then [Call u c (get (set k v s) f)] else []).
Proof.
  intros Hwf Hin. destruct (changes s k v) eqn:Hch.
  - rewrite set_changed by done. cbn [calls set_calls]. rewrite calls_by_app.
    f_equal. rewrite (calls_by_notify_present u f c) by (done || apply Hwf).
    done.
  - rewrite set_unchanged by done. simpl. by rewrite (right_id_L [] (++)).
Qed.

(** A disposed subscription is never invoked again: its identity is not
    handed out a second time. *)
Definition disposed (u : nat) (s : store) : Prop :=
  (u ∉ sub_id <$> subscribers s) ∧ u < nextId s.

Lemma disposed_unsubscribe u s : wf s → u < nextId s → disposed u (unsubscribe u s).
Proof.
  intros Hwf Hlt. split; [|done]. simpl. intros Hin.
  apply list_elem_of_fmap in Hin as (sub & -> & Hsub).
  by apply list_elem_of_filter in Hsub as [Hne _].
Qed.

Lemma disposed_exec u o s :
  disposed u s →
  disposed u (exec o s) ∧ calls_by u (calls (exec o s)) = calls_by u (calls s).
Proof.
  intros [Hout Hlt]. destruct o as [k v|f c|u']; simpl.
  - unfold set. destruct (changes s k v); [|done]. split; [done|].
    cbn [calls set_calls set_values subscribers]. rewrite calls_by_app.
    rewrite calls_by_notify_absent by done. by rewrite (right_id_L [] (++)).
  - split.
    + split; simpl; [|lia]. rewrite fmap_app. apply not_elem_of_app. split; [done|].
      simpl. rewrite list_elem_of_singleton. lia.
    + rewrite calls_by_app. unfold calls_by at 2.
      rewrite filter_cons_False by (simpl; lia).
      by rewrite filter_nil, (right_id_L [] (++)).
  - split; [|done]. split; [|done]. simpl. intros Hin. apply Hout.
    apply list_elem_of_fmap in Hin as (sub & -> & Hsub).
    apply list_elem_of_filter in Hsub as [_ Hsub].
    apply list_elem_of_fmap. by exists sub.
Qed.

Lemma disposed_run u ops s :
  disposed u s → calls_by u (calls (run ops s)) = calls_by u (calls s).
Proof.
  revert s. induction ops as [|o ops IH]; intros s Hd; [done|].
  destruct (disposed_exec u o s Hd) as [Hd' <-]. by apply IH.
Qed.

Lemma nextId_exec o s : nextId s ≤ nextId (exec o s).
Proof.
  destruct o as [k v|f c|u]; simpl; try lia. unfold set.
  destruct (changes s k v); simpl; lia.
Qed.

Lemma nextId_run ops s : nextId s ≤ nextId (run ops s).
Proof.
  revert s. induction ops as [|o ops IH]; intros s; [done|].
  simpl. fold (run ops (exec o s)). pose proof (nextId_exec o s).
  specialize (IH (exec o s)). lia.
Qed.

(** Before it is handed out a disposer has no invocation to its name. *)
Lemma calls_by_fresh s : wf s → calls_by (nextId s) (calls s) = [].
Proof.
  intros [_ _ Hcalls]. unfold calls_by.
  induction Hcalls as [|c l Hc Hl IH]; [done|].
  rewrite filter_cons_False; [done|]. lia.
Qed.

(** C8 (subscribe replay).  [subscribe] on field [f] with callback [c]
    invokes [c] once, at once, with the current value of [f], whatever was
    written or not before.  As long as the disposer [u] it returned has not
    been called, every write to the store invokes [c] once more if it
    changes [f] (or a field [f] derives from), with the new value, and not
    otherwise.  Once [u] has been called, nothing invokes [c] for this
    subscription again. *)
Theorem subscribe_replays_then_follows (s : store) (f : string) (c : nat) :
  wf s →
  let u := (subscribe f c s).1 in
  let s1 := (subscribe f c s).2 in
  calls s1 = calls s ++ [Call u c (get s f)]
  ∧ calls_by u (calls s1) = [Call u c (get s f)]
  ∧ (∀ ops k v, Unsubscribe u ∉ ops →
       let s2 := run ops s1 in
       calls_by u (calls (set k v s2))
       = calls_by u (calls s2)
         ++ (if changes s2 k v && affects s2 k f
             then [Call u c (get (set k v s2) f)] else []))
  ∧ (∀ ops ops', Unsubscribe u ∉ ops →
       let s2 := run ops s1 in
       calls_by u (calls (run ops' (unsubscribe u s2))) = calls_by u (calls s2)).
Proof.
  intros Hwf u s1.
  assert (wf s1) as Hwf1 by by apply wf_subscribe.
  assert (Subscriber u f c ∈ subscribers s1) as Hin.
  { simpl. apply elem_of_app. right. by apply list_elem_of_singleton. }
  split; [done|]. split; [|split].
  - unfold u, s1. simpl. rewrite calls_by_app, calls_by_fresh by done.
    unfold calls_by. by rewrite filter_cons_True.
  - intros ops k v Hout s2. apply calls_by_set; [by apply wf_after_run|].
    by apply subscribed_run.
  - intros ops ops' Hout s2. rewrite disposed_run; [done|].
    apply disposed_unsubscribe; [by apply wf_after_run|].
    pose proof (nextId_run ops s1). simpl in *. fold s2 in H. unfold u. simpl. lia.
Qed.

(** Modelled from the spec: the store implementation is missing from the
    sources.  An example record: two session properties, the view type and
    the field the spec derives from it. *)
Definition media : store :=
  create
    (list_to_map
       [ ("volume"%string, VNum 1000); ("paused"%string, VBool true);
         ("viewType"%string, VStr "unknown") ])
    (list_to_map
       [ ("isVideoView"%string,
          Derivation ["viewType"%string]
            (λ vs, VBool (bool_decide (vs = [VStr "video"])))) ]).

Lemma subscribe_replays_then_follows_witness :
  wf media
  ∧ calls (subscribe "volume" 7 media).2 = [Call 0 7 (VNum 1000)].
Proof.
  split; [apply wf_create|].
  exact (proj1 (subscribe_replays_then_follows media "volume" 7 (wf_create _ _))).
Defined.

(** The writable store of the tests: subscribed at ['0'], written ['1'] and
    ['2'], disposed, written ['3']: the callback saw ['0'], ['1'], ['2']. *)
Example writable_store_updates_subscribers :
  let s0 := create {[ "value"%string := VStr "0" ]} ∅ in
  let s := run [ Subscribe "value" 7; SetValue "value" (VStr "1");
                 SetValue "value" (VStr "2"); Unsubscribe 0;
                 SetValue "value" (VStr "3") ] s0 in
  arg <$> calls s = [VStr "0"; VStr "1"; VStr "2"].
Proof. vm_compute. reflexivity. Qed.

(** A subscriber of a derived field hears of a change of its dependency. *)
Example derived_field_follows :
  let s := run [ Subscribe "isVideoView" 7; SetValue "volume" (VNum 500);
                 SetValue "viewType" (VStr "video");
                 SetValue "isVideoView" (VBool false) ] media in
  arg <$> calls s = [VBool false; VBool true]
  ∧ get s "isVideoView" = VBool true.
Proof. split; vm_compute; reflexivity. Qed.

(** [hostConnected] subscribes: the callback is invoked once with the
    current value, and the disposer is kept for [hostDisconnected]. *)
Lemma hostConnected_replays h s :
  calls (hostConnected h s).2
  = calls s ++ [Call (nextId s) (onChange h) (get s (field h))]
  ∧ h_unsubscribe (hostConnected h s).1 = Some (nextId s).
Proof. done. Qed.

(** After [hostDisconnected] the callback is not invoked for the host's
    subscription any more. *)
Lemma hostDisconnected_disposes h s ops :
  wf s →
  let connected := hostConnected h s in
  ∀ ops', Unsubscribe (nextId s) ∉ ops →
  let s2 := run ops connected.2 in
  let disconnected := hostDisconnected connected.1 s2 in
  calls_by (nextId s) (calls (run ops' disconnected.2))
  = calls_by (nextId s) (calls s2).
Proof.
  intros Hwf connected ops' Hout s2 disconnected.
  unfold disconnected, hostDisconnected, connected. simpl.
  rewrite disposed_run; [done|].
  apply disposed_unsubscribe.
  - apply wf_after_run. by apply (wf_subscribe (field h) (onChange h)).
  - pose proof (nextId_run ops connected.2) as Hle. fold s2 in Hle.
    unfold connected in Hle. simpl in Hle. lia.
Qed.

(** The element of the tests: its store's [a] is written 10 before the
    element connects, 20 after; [b] is written 30; after the element is
    removed [a] is written 40.  The subscription saw 10 and 20. *)
Example hosted_subscription_follows_the_host :
  let s0 := create {[ "a"%string := VNum 0; "b"%string := VNum 0 ]} ∅ in
  let h0 := hostedStoreSubscription "a" 7 in
  let s1 := set "a" (VNum 10000) s0 in
  let connected := hostConnected h0 s1 in
  let s2 := set "b" (VNum 30000) (set "a" (VNum 20000) connected.2) in
  let disconnected := hostDisconnected connected.1 s2 in
  let s3 := set "a" (VNum 40000) disconnected.2 in
  arg <$> calls s3 = [VNum 10000; VNum 20000].
Proof. vm_compute. reflexivity. Qed.

(** C9 (idempotent no-op write).  [set(v)] on a field whose current value
    is [v] leaves the store as it is: no callback is invoked.  Of two
    consecutive [set(v)] the second therefore does nothing, and when the
    first changes the field, each subscriber of the field is invoked once by
    the pair, with [v]. *)
Theorem set_same_value_is_silent (s : store) (f : string) (v : value) :
  wf s →
  (get s f = v → set f v s = s)
  ∧ set f v (set f v s) = set f v s
  ∧ (changes s f v = true →
     ∀ sub, sub ∈ subscribers s → sub_field sub = f →
       calls_by (sub_id sub) (calls (set f v (set f v s)))
       = calls_by (sub_id sub) (calls s) ++ [Call (sub_id sub) (sub_cb sub) v]).
Proof.
  intros Hwf.
  assert (set f v (set f v s) = set f v s) as Htwice.
  { destruct (changes s f v) eqn:Hch.
    - apply set_unchanged, changes_same. by apply get_set.
    - by rewrite !(set_unchanged s f v Hch). }
  split; [|split; [done|]].
  - intros Hv. by apply set_unchanged, changes_same.
  - intros Hch [u f' c] Hin Hf. simpl in *. subst f'. rewrite Htwice.
    rewrite (calls_by_set u f c) by done. rewrite Hch, get_set by done.
    unfold affects. by rewrite bool_decide_eq_true_2.
Qed.

(** A store with one subscriber of [volume]: the callback 7, which
    [subscribe] has invoked once with the current value. *)
Definition watched : store := (subscribe "volume" 7 media).2.

Lemma set_same_value_is_silent_witness :
  let sub := Subscriber 0 "volume" 7 in
  let once := set "volume" (VNum 500) watched in
  wf watched
  ∧ changes watched "volume" (VNum 500) = true
  ∧ sub ∈ subscribers watched
  ∧ sub_field sub = "volume"%string
  ∧ calls_by 0 (calls (set "volume" (VNum 500) once))
    = [Call 0 7 (VNum 1000); Call 0 7 (VNum 500)]
  ∧ wf once
  ∧ get once "volume" = VNum 500
  ∧ set "volume" (VNum 500) once = once.
Proof.
  intros sub once.
  assert (wf watched) as Hwf by (apply wf_subscribe, wf_create).
  assert (wf once) as Hwf' by (by apply wf_after_set).
  assert (changes watched "volume" (VNum 500) = true) as Hch by reflexivity.
  assert (sub ∈ subscribers watched) as Hin.
  { change (subscribers watched) with [sub]. apply list_elem_of_here. }
  assert (sub_field sub = "volume"%string) as Hfield by reflexivity.
  assert (get once "volume" = VNum 500) as Hget by reflexivity.
  split; [exact Hwf|]. split; [exact Hch|]. split; [exact Hin|].
  split; [exact Hfield|]. split.
  - transitivity (calls_by (sub_id sub) (calls watched)
                  ++ [Call (sub_id sub) (sub_cb sub) (VNum 500)]);
      [|reflexivity].
    exact (proj2 (proj2 (set_same_value_is_silent watched "volume" (VNum 500) Hwf))
             Hch sub Hin Hfield).
  - split; [exact Hwf'|]. split; [exact Hget|].
    exact (proj1 (set_same_value_is_silent once "volume" (VNum 500) Hwf') Hget).
Defined.

(** The spec's example: [volume] written 0.5 twice notifies once. *)
Example volume_written_twice :
  let s := (subscribe "volume" 7 media).2 in
  calls (set "volume" (VNum 500) (set "volume" (VNum 500) s))
  = calls s ++ [Call 0 7 (VNum 500)].
Proof. vm_compute. reflexivity. Qed.

End Stores.

(** * HLS provider

    [HlsElement] extends [VideoElement]; [super_canPlayType] is the
    inherited method, [Hls_isSupported] the result of
    [this.Hls?.isSupported()] ([None] while the library is not loaded) and
    [isHlsjsSupported] the environment check. *)
Module Hls.

Inductive CanPlay := No | Maybe | Probably.

#[global] Instance CanPlay_eq_dec : EqDecision CanPlay.
Proof. solve_decision. Defined.

Definition HLS_TYPES : list string :=
  [ "application/x-mpegURL"%string; "application/vnd.apple.mpegurl"%string ].

(** How a statement completes: control goes on to the next statement, or
    the method returns. *)
Inductive completion :=
| Continue
| Return (c : CanPlay).

(** An expression statement evaluates its expression and drops the value. *)
Definition expression_statement (e : CanPlay) : completion := Continue.

(** [first; second], where [second] is the rest of the body and ends in a
    [return]. *)
Definition seq (first : completion) (second : CanPlay) : CanPlay :=
  match first with
  | Continue => second
  | Return c => c
  end.

Section HlsElement.

Variable super_canPlayType : string → CanPlay.
Variable Hls_isSupported : option bool.
Variable isHlsjsSupported : bool.

(** <<
    const canPlayType = super.canPlayType('application/vnd.apple.mpegurl');
    return canPlayType === CanPlay.Maybe || canPlayType === CanPlay.Probably;
    >> *)
Definition hasNativeHlsSupport : bool :=
  let canPlayType := super_canPlayType "application/vnd.apple.mpegurl" in
  bool_decide (canPlayType = Maybe) || bool_decide (canPlayType = Probably).

(** <<
    return (this.Hls?.isSupported() ?? isHlsjsSupported())
           || this.hasNativeHlsSupport;
    >> *)
Definition isHlsSupported : bool :=
  default isHlsjsSupported Hls_isSupported || hasNativeHlsSupport.

(** <<
    if (HLS_TYPES.has(type)) {
      this.isHlsSupported ? CanPlay.Probably : CanPlay.No;
    }
    return super.canPlayType(type);
    >> *)
Definition canPlayType (type : string) : CanPlay :=
  seq (if bool_decide (type ∈ HLS_TYPES)
       then expression_statement (if isHlsSupported then Probably else No)
       else Continue)
      (super_canPlayType type).

End HlsElement.

(** C10.  [HlsElement.canPlayType] returns what the inherited
    [canPlayType] returns, for every type, the HLS types included: the
    value computed in the HLS branch is dropped. *)
Theorem canPlayType_is_inherited (super_canPlayType : string → CanPlay)
    (Hls_isSupported : option bool) (isHlsjsSupported : bool) (type : string) :
  canPlayType super_canPlayType Hls_isSupported isHlsjsSupported type
  = super_canPlayType type.
Proof. unfold canPlayType. by case_bool_decide. Qed.

(** With [hls.js] supported and a video element that cannot play HLS
    natively, HLS is supported and yet the HLS types are reported as not
    playable. *)
Example canPlayType_with_hlsjs :
  let super_canPlayType := λ _ : string, No in
  isHlsSupported super_canPlayType (Some true) true = true
  ∧ canPlayType super_canPlayType (Some true) true "application/x-mpegURL" = No.
Proof. done. Qed.

End Hls.
(** * More on the request queue of the core provider

    What [makeRequest], [safelyMakeRequest], [flushRequestQueue] and
    [disconnectedCallback] of [src/core/provider/MediaProviderElement.ts] do
    when the media can play, and when requests are made while an earlier
    call is still suspended at its [await]. *)
Module CoreRequests.
Import CoreProvider.

Lemma delete_set {V} (k : string) (v : V) (m : list (string * V)) :
  JsMap.delete k (JsMap.set k v m) = JsMap.delete k m.
Proof.
  induction m as [|[k' v'] m IH]; simpl.
  - by rewrite decide_True.
  - destruct (decide (k = k')) as [->|Hne]; simpl.
    + by rewrite decide_True.
    + by rewrite decide_False, IH.
Qed.

Lemma delete_delete {V} (k : string) (m : list (string * V)) :
  JsMap.delete k (JsMap.delete k m) = JsMap.delete k m.
Proof.
  induction m as [|[k' v'] m IH]; simpl; [done|].
  destruct (decide (k = k')) as [->|Hne]; simpl; [done|].
  by rewrite decide_False, IH.
Qed.

(** When the media can play [makeRequest] goes on to [safelyMakeRequest]
    and then deletes the key. *)
Lemma makeRequest_ready requestKey request s :
  truthy (canPlay s) = true →
  makeRequest requestKey request s
  = let served :=
      (safelyMakeRequest requestKey
         (set_requestQueue (JsMap.set requestKey request (requestQueue s)) s)).2 in
    set_requestQueue (JsMap.delete requestKey (requestQueue served)) served.
Proof.
  intros Hcan. unfold makeRequest.
  change (canPlay (set_requestQueue (JsMap.set requestKey request (requestQueue s)) s))
    with (canPlay s).
  rewrite Hcan. cbn [negb].
  by destruct (safelyMakeRequest requestKey _) as [ret served].
Qed.

(** [safelyMakeRequest] leaves the queue as it is up to its [await]; when
    the request throws it runs to its end and deletes the key. *)
Lemma safelyMakeRequest_queue requestKey s :
  requestQueue (safelyMakeRequest requestKey s).2 = requestQueue s
  ∨ requestQueue (safelyMakeRequest requestKey s).2
    = JsMap.delete requestKey (requestQueue s).
Proof.
  unfold safelyMakeRequest. cbn [new_promise].
  change (requestQueue (set_fresh (S (fresh s)) s)) with (requestQueue s).
  destruct (JsMap.get requestKey (requestQueue s)) as [request|]; [|by left].
  destruct (act_does request); [by left| |by left].
  right. cbn [snd]. by rewrite (proj1 (complete_fields _ _ _)).
Qed.

(** X1.  When the media can play, [makeRequest] calls the request before
    it returns, once, and leaves nothing under the key: the request is not
    kept, and a request that was pending under the key is discarded without
    being called.  The other entries of the queue stay as they are. *)
Theorem makeRequest_serves_when_ready requestKey request s :
  truthy (canPlay s) = true →
  let s' := makeRequest requestKey request s in
  served <$> invoked s' = (served <$> invoked s) ++ [(requestKey, act_id request)]
  ∧ requestQueue s' = JsMap.delete requestKey (requestQueue s)
  ∧ JsMap.get requestKey (requestQueue s') = None
  ∧ (∀ k, k ≠ requestKey →
       JsMap.get k (requestQueue s') = JsMap.get k (requestQueue s)).
Proof.
  intros Hcan. cbv zeta. rewrite makeRequest_ready by done. cbv zeta.
  set (s0 := set_requestQueue (JsMap.set requestKey request (requestQueue s)) s).
  pose proof (safelyMakeRequest_served requestKey s0) as Hserved.
  pose proof (safelyMakeRequest_queue requestKey s0) as Hqueue.
  set (s1 := (safelyMakeRequest requestKey s0).2) in *.
  change (invoked (set_requestQueue (JsMap.delete requestKey (requestQueue s1)) s1))
    with (invoked s1).
  change (requestQueue (set_requestQueue (JsMap.delete requestKey (requestQueue s1)) s1))
    with (JsMap.delete requestKey (requestQueue s1)).
  change (requestQueue s0) with (JsMap.set requestKey request (requestQueue s)) in *.
  change (invoked s0) with (invoked s) in Hserved.
  rewrite JsMap.get_set_eq in Hserved.
  assert (JsMap.delete requestKey (requestQueue s1)
          = JsMap.delete requestKey (requestQueue s)) as ->.
  { destruct Hqueue as [-> | ->]; by rewrite ?delete_delete, delete_set. }
  split; [done|]. split; [done|]. split; [apply JsMap.get_delete_eq|].
  intros k Hne. by apply JsMap.get_delete_ne.
Qed.

Lemma makeRequest_serves_when_ready_witness :
  let s := set_context {[ "canPlay"%string := VBool true ]}
             (makeRequest "paused" play_request (init ∅)) in
  truthy (canPlay s) = true
  ∧ requestQueue s = [("paused"%string, play_request)]
  ∧ requestQueue (makeRequest "paused" pause_request s) = [].
Proof.
  intros s. assert (truthy (canPlay s) = true) as Hcan by reflexivity.
  split; [exact Hcan|]. split; [reflexivity|].
  exact (proj1 (proj2 (makeRequest_serves_when_ready "paused" pause_request s Hcan))).
Defined.

(** [makeRequest] with a request that returns a promise, when the media
    can play: [safelyMakeRequest] is suspended at its [await] under the
    promise [fresh s], waiting for the request's promise [S (fresh s)]. *)
Lemma makeRequest_ready_promise requestKey request s :
  truthy (canPlay s) = true → act_does request = ReturnsPromise →
  let s1 := makeRequest requestKey request s in
  suspended s1
    = <[fresh s := SafelyMakeRequestK requestKey (Some (S (fresh s)))]> (suspended s)
  ∧ promises s1 = promises s
  ∧ enginePromises s1 = {[S (fresh s)]} ∪ enginePromises s
  ∧ context s1 = context s
  ∧ dispatched s1 = dispatched s
  ∧ invoked s1 = invoked s ++ [Call requestKey (act_id request) (Some (S (fresh s)))]
  ∧ requestQueue s1 = JsMap.delete requestKey (requestQueue s).
Proof.
  intros Hcan Hdoes. cbv zeta. rewrite makeRequest_ready by done. cbv zeta.
  unfold safelyMakeRequest. cbn [new_promise].
  change (requestQueue (set_fresh _ (set_requestQueue ?q s))) with q.
  rewrite JsMap.get_set_eq, Hdoes. cbn. by rewrite delete_set.
Qed.

(** The same with a request that throws: [safelyMakeRequest] runs to its
    end. *)
Lemma makeRequest_ready_throws requestKey request e s :
  truthy (canPlay s) = true → act_does request = Throws e →
  promises s !! fresh s = None →
  let s1 := makeRequest requestKey request s in
  suspended s1 = delete (fresh s) (suspended s)
  ∧ promises s1 !! fresh s = Some Fulfilled
  ∧ context s1 = <["error" := e]> (context s)
  ∧ dispatched s1 = dispatched s ++ [VdsErrorEvent e]
  ∧ updateRequests s1 = S (updateRequests s).
Proof.
  destruct s as [q d c ev inv u ps eps f sus].
  unfold canPlay. simpl. intros Hcan Hdoes Hnone.
  unfold makeRequest, canPlay. simpl. rewrite Hcan. simpl.
  unfold safelyMakeRequest. simpl. rewrite JsMap.get_set_eq, Hdoes.
  unfold complete, settle. simpl. rewrite Hnone. simpl.
  by rewrite lookup_insert_eq.
Qed.

(** The engine settles the promise a suspended [safelyMakeRequest] waits
    for, and the event loop resumes the call: it handles a rejection,
    deletes its key from the queue as the queue is then, and calls
    nothing. *)
Lemma settle_then_resume s ret requestKey p r :
  suspended s !! ret = Some (SafelyMakeRequestK requestKey (Some p)) →
  p ∈ enginePromises s → promises s !! p = None → promises s !! ret = None →
  ret ≠ p →
  ∃ s1 s2,
    engine_settle p r s = Some s1
    ∧ resume ret s1 = Some s2
    ∧ requestQueue s2 = JsMap.delete requestKey (requestQueue s)
    ∧ invoked s2 = invoked s
    ∧ suspended s2 = delete ret (suspended s)
    ∧ promises s2 !! ret = Some Fulfilled
    ∧ match r with
      | Fulfilled => context s2 = context s ∧ dispatched s2 = dispatched s
      | Rejected e =>
          context s2 = <["error" := e]> (context s)
          ∧ dispatched s2 = dispatched s ++ [VdsErrorEvent e]
      end.
Proof.
  intros Hsus Hengine Hp Hret Hne.
  destruct (settle_fields p r s) as (Eq & Ei & Ec & Ed & Es & Ee & Ef & Epend).
  set (s1 := settle p r s) in *.
  assert (promises s1 !! p = Some r) as Hp1.
  { unfold s1. rewrite settle_lookup, Hp. by rewrite decide_True. }
  assert (promises s1 !! ret = None) as Hret1.
  { unfold s1. rewrite settle_lookup, Hret. by rewrite decide_False. }
  assert (∀ x, promises x !! ret = None →
               promises (complete ret Fulfilled x) !! ret = Some Fulfilled) as Hc.
  { intros x Hx. unfold complete. rewrite settle_lookup. cbn. rewrite Hx.
    by rewrite decide_True. }
  exists s1.
  exists (complete ret Fulfilled
            (after_request requestKey
               match r with Fulfilled => s1 | Rejected e => catch_error e s1 end)).
  split. { unfold engine_settle. by rewrite decide_True. }
  split. { unfold resume. rewrite Es, Hsus, Hp1. by destruct r. }
  destruct (complete_fields ret Fulfilled
              (after_request requestKey
                 match r with Fulfilled => s1 | Rejected e => catch_error e s1 end))
    as (-> & -> & -> & -> & -> & _).
  destruct r as [|e]; cbn; rewrite ?Eq, ?Ei, ?Ec, ?Ed, ?Es;
    repeat split; try done; by apply Hc.
Qed.

(** X2.  A request made while the media can play that throws, or whose
    promise is rejected later, is contained: the error is stored in
    [context.error], a [VdsErrorEvent] is dispatched, and the promise of
    [safelyMakeRequest], which [makeRequest] drops, is fulfilled. *)
Theorem makeRequest_contains_errors requestKey request s :
  wf s → truthy (canPlay s) = true →
  let s' := makeRequest requestKey request s in
  let ret := fresh s in
  (∀ e, act_does request = Throws e →
     context s' = <["error" := e]> (context s)
     ∧ dispatched s' = dispatched s ++ [VdsErrorEvent e]
     ∧ promises s' !! ret = Some Fulfilled)
  ∧ (act_does request = ReturnsPromise →
     ∀ e, ∃ s1 s2,
       engine_settle (S ret) (Rejected e) s' = Some s1
       ∧ resume ret s1 = Some s2
       ∧ context s2 = <["error" := e]> (context s)
       ∧ dispatched s2 = dispatched s ++ [VdsErrorEvent e]
       ∧ promises s2 !! ret = Some Fulfilled).
Proof.
  intros Hwf Hcan s' ret.
  assert (∀ p, fresh s ≤ p → promises s !! p = None) as Hnone.
  { intros p Hp. destruct (promises s !! p) eqn:E; [|done].
    pose proof (wf_promises s Hwf p (mk_is_Some _ _ E)). lia. }
  split.
  - intros e Hdoes.
    destruct (makeRequest_ready_throws requestKey request e s Hcan Hdoes
                (Hnone _ (le_n _))) as (_ & Hp & Hc & Hd & _).
    done.
  - intros Hdoes e.
    destruct (makeRequest_ready_promise requestKey request s Hcan Hdoes)
      as (Hs & Hp & He & Hc & Hd & _).
    destruct (settle_then_resume s' ret requestKey (S ret) (Rejected e))
      as (s1 & s2 & H1 & H2 & _ & _ & _ & H3 & H4 & H5).
    + fold s' in Hs. rewrite Hs. by rewrite lookup_insert_eq.
    + fold s' in He. rewrite He. apply elem_of_union_l. by apply elem_of_singleton.
    + fold s' in Hp. rewrite Hp. apply Hnone. unfold ret. lia.
    + fold s' in Hp. rewrite Hp. by apply Hnone.
    + unfold ret. lia.
    + exists s1, s2. fold s' in Hc, Hd. by rewrite <- Hc, <- Hd.
Qed.

Lemma makeRequest_contains_errors_witness :
  let s := set_context {[ "canPlay"%string := VBool true ]} (init ∅) in
  wf s ∧ truthy (canPlay s) = true
  ∧ prop (context (makeRequest "paused" failing_request s)) "error" = VThrown 0.
Proof.
  intros s.
  assert (wf s) as Hwf.
  { apply (wf_same (init ∅)); try done; [apply NoDup_nil_2|apply wf_init]. }
  assert (truthy (canPlay s) = true) as Hcan by reflexivity.
  split; [exact Hwf|]. split; [exact Hcan|].
  destruct (proj1 (makeRequest_contains_errors "paused" failing_request s Hwf Hcan)
              (VThrown 0) eq_refl) as (Hc & _).
  unfold prop. rewrite Hc. by rewrite lookup_insert_eq.
Defined.

(** X3.  The [requestQueue.delete(requestKey)] that ends
    [safelyMakeRequest] comes after the [await]: it deletes whatever is
    queued under the key by then.  A request is made while the media can
    play and returns a promise; the media stops being ready and a second
    request is made under the same key, which is queued; when the promise
    of the first settles, whichever way, the second request is deleted from
    the queue.  It was never called, and no suspended call is left to call
    it. *)
Theorem late_delete_drops_newer_request requestKey first second r s :
  wf s → truthy (canPlay s) = true → act_does first = ReturnsPromise →
  let ret := fresh s in
  let s1 := makeRequest requestKey first s in
  let s2 := set_context (<["canPlay" := VBool false]> (context s1)) s1 in
  let s3 := makeRequest requestKey second s2 in
  JsMap.get requestKey (requestQueue s3) = Some second
  ∧ invoked s3 = invoked s1
  ∧ ∃ s4 s5,
      engine_settle (S ret) r s3 = Some s4
      ∧ resume ret s4 = Some s5
      ∧ JsMap.get requestKey (requestQueue s5) = None
      ∧ served <$> invoked s5
        = (served <$> invoked s) ++ [(requestKey, act_id first)]
      ∧ suspended s5 = suspended s.
Proof.
  intros Hwf Hcan Hdoes ret s1 s2 s3.
  assert (∀ p, fresh s ≤ p → promises s !! p = None) as Hnone.
  { intros p Hp. destruct (promises s !! p) eqn:E; [|done].
    pose proof (wf_promises s Hwf p (mk_is_Some _ _ E)). lia. }
  assert (suspended s !! ret = None) as Hfree.
  { destruct (suspended s !! ret) eqn:E; [|done].
    destruct (wf_suspended s Hwf ret _ E) as (Hlt & _). unfold ret in Hlt. lia. }
  destruct (makeRequest_ready_promise requestKey first s Hcan Hdoes)
    as (Hs & Hp & He & Hc & Hd & Hi & Hq).
  fold s1 in Hs, Hp, He, Hc, Hd, Hi, Hq.
  assert (s3 = set_requestQueue (JsMap.set requestKey second (requestQueue s1)) s2) as Hs3.
  { unfold s3, makeRequest.
    change (canPlay (set_requestQueue _ s2)) with (canPlay s2).
    unfold canPlay, prop, s2. cbn [context set_context].
    by rewrite lookup_insert_eq. }
  assert (suspended s3 = suspended s1 ∧ promises s3 = promises s1
          ∧ enginePromises s3 = enginePromises s1 ∧ invoked s3 = invoked s1
          ∧ requestQueue s3 = JsMap.set requestKey second (requestQueue s1))
    as (Hs' & Hp' & He' & Hi' & Hq') by by rewrite Hs3.
  split; [rewrite Hq'; apply JsMap.get_set_eq|]. split; [done|].
  destruct (settle_then_resume s3 ret requestKey (S ret) r)
    as (s4 & s5 & H4 & H5 & Hq5 & Hi5 & Hs5 & _).
  - rewrite Hs', Hs. by rewrite lookup_insert_eq.
  - rewrite He', He. apply elem_of_union_l. by apply elem_of_singleton.
  - rewrite Hp', Hp. apply Hnone. unfold ret. lia.
  - rewrite Hp', Hp. by apply Hnone.
  - unfold ret. lia.
  - exists s4, s5. split; [done|]. split; [done|].
    split; [rewrite Hq5; apply JsMap.get_delete_eq|]. split.
    + rewrite Hi5, Hi', Hi. by rewrite fmap_app.
    + rewrite Hs5, Hs', Hs. rewrite delete_insert_eq. by apply delete_id.
Qed.

Lemma late_delete_drops_newer_request_witness :
  let s := set_context {[ "canPlay"%string := VBool true ]} (init ∅) in
  wf s ∧ truthy (canPlay s) = true
  ∧ act_does fullscreen_request = ReturnsPromise
  ∧ JsMap.get "paused"
      (requestQueue
         (makeRequest "paused" pause_request
            (set_context
               (<["canPlay"%string := VBool false]>
                  (context (makeRequest "paused" fullscreen_request s)))
               (makeRequest "paused" fullscreen_request s))))
    = Some pause_request.
Proof.
  intros s.
  assert (wf s) as Hwf.
  { apply (wf_same (init ∅)); try done; [apply NoDup_nil_2|apply wf_init]. }
  assert (truthy (canPlay s) = true) as Hcan by reflexivity.
  split; [exact Hwf|]. split; [exact Hcan|]. split; [reflexivity|].
  exact (proj1 (late_delete_drops_newer_request "paused" fullscreen_request
                  pause_request Fulfilled s Hwf Hcan eq_refl)).
Defined.

(** X4.  The [requestQueue.clear()] that ends [flushRequestQueue] comes
    after the [await]: it clears whatever is queued by then.  A request made
    while a flush is waiting for its requests, with the media not ready, is
    queued; when the flush completes the request is dropped without being
    called, the promise of the flush is fulfilled and the waiters are
    released. *)
Theorem flush_completion_drops_later_requests s ret all requestKey request s' :
  wf s → suspended s !! ret = Some (FlushRequestQueueK all) →
  truthy (canPlay s) = false →
  let queued := makeRequest requestKey request s in
  resume ret queued = Some s' →
  JsMap.get requestKey (requestQueue queued) = Some request
  ∧ requestQueue s' = []
  ∧ invoked s' = invoked s
  ∧ promises s' !! ret = Some Fulfilled
  ∧ is_Some (promises s' !! pendingRequestQueueFlush s).
Proof.
  intros Hwf Hsus Hcan queued Hres.
  assert (queued = set_requestQueue (JsMap.set requestKey request (requestQueue s)) s)
    as Hq.
  { unfold queued, makeRequest.
    change (canPlay (set_requestQueue (JsMap.set requestKey request (requestQueue s)) s))
      with (canPlay s).
    by rewrite Hcan. }
  assert (wf queued) as Hwf' by by apply wf_makeRequest.
  assert (suspended queued !! ret = Some (FlushRequestQueueK all)) as Hsus'
    by by rewrite Hq.
  destruct (resume_flush queued ret all s' Hwf' Hsus' Hres) as (_ & Hret & Hempty).
  split; [rewrite Hq; apply JsMap.get_set_eq|]. split; [done|].
  unfold resume in Hres. rewrite Hsus' in Hres.
  destruct (promise_all (promises queued) all) as [[|e]|] eqn:Hall; [| |done].
  - injection Hres as <-. split; [|split; [done|]].
    + rewrite (proj1 (proj2 (complete_fields _ _ _))). unfold after_flush.
      rewrite (proj1 (proj2 (settle_fields _ _ _))). by rewrite Hq.
    + unfold complete. rewrite settle_lookup.
      change (promises (set_suspended ?k ?x)) with (promises x).
      unfold after_flush. rewrite settle_lookup.
      change (pendingRequestQueueFlush (set_requestQueue ?q ?x))
        with (pendingRequestQueueFlush x).
      replace (pendingRequestQueueFlush queued) with (pendingRequestQueueFlush s)
        by by rewrite Hq.
      destruct (promises _ !! pendingRequestQueueFlush s); [by eexists|].
      rewrite decide_True by done. by eexists.
  - by destruct (flush_never_rejected queued ret all e).
Qed.

Lemma flush_completion_drops_later_requests_witness :
  ∃ s s',
    wf s ∧ suspended s !! 1 = Some (FlushRequestQueueK [2])
    ∧ truthy (canPlay s) = false
    ∧ resume 1 (makeRequest "volume" volume_request s) = Some s'
    ∧ requestQueue s' = [].
Proof.
  set (o := run [] [ MakeRequest "paused" play_request; FlushRequestQueue; Resume 2 ]
              (init ∅)).
  set (s := default (init ∅) o).
  set (o' := resume 1 (makeRequest "volume" volume_request s)).
  assert (o = Some s) as Ho.
  { apply Some_default. refine (bool_decide_unpack _ _). vm_compute. exact I. }
  assert (wf s) as Hwf by exact (wf_run [] _ _ _ (wf_init ∅) Ho).
  assert (suspended s !! 1 = Some (FlushRequestQueueK [2])) as Hsus
    by (vm_compute; reflexivity).
  assert (truthy (canPlay s) = false) as Hcan by (vm_compute; reflexivity).
  assert (o' = Some (default s o')) as Hres.
  { apply Some_default. refine (bool_decide_unpack _ _). vm_compute. exact I. }
  exists s, (default s o').
  split; [exact Hwf|]. split; [exact Hsus|]. split; [exact Hcan|].
  split; [exact Hres|].
  exact (proj1 (proj2 (flush_completion_drops_later_requests s 1 [2] "volume"
                         volume_request (default s o') Hwf Hsus Hcan Hres))).
Defined.

(** X5.  [disconnectedCallback] clears the queue without calling anything,
    resets the context, reports the view type and the disconnection, in
    this order, and releases those waiting for a flush: a caller suspended
    in [waitForRequestQueueToFlush] is resumed and its promise fulfilled.
    The deferred promise is replaced, so that a caller that waits after the
    disconnection waits for the next flush or reset. *)
Theorem disconnectedCallback_releases_waiters mediaContext s :
  wf s → truthy (canPlay s) = false →
  let ret := (waitForRequestQueueToFlush s).1 in
  let waiting := (waitForRequestQueueToFlush s).2 in
  let s' := disconnectedCallback mediaContext waiting in
  requestQueue s' = []
  ∧ invoked s' = invoked s
  ∧ dispatched s'
    = dispatched s ++ [VdsViewTypeChangeEvent ViewType_Unknown; VdsDisconnectEvent]
  ∧ context s'
    = <["viewType" := ViewType_Unknown]> (hardReset mediaContext (context s))
  ∧ (∃ s'', resume ret s' = Some s'' ∧ promises s'' !! ret = Some Fulfilled)
  ∧ promises s' !! pendingRequestQueueFlush s' = None.
Proof.
  intros Hwf Hcan.
  assert (∀ p, fresh s ≤ p → promises s !! p = None) as Hnone.
  { intros p Hp. destruct (promises s !! p) eqn:E; [|done].
    pose proof (wf_promises s Hwf p (mk_is_Some _ _ E)). lia. }
  destruct (wf_deferred s Hwf) as (Hlt & Hnot & _).
  assert (∀ e, promises s !! pendingRequestQueueFlush s ≠ Some (Rejected e)) as Hrej.
  { intros e He. by apply Hnot, (wf_rejected s Hwf _ e). }
  clear Hwf. revert Hcan Hnone Hlt Hrej. clear Hnot.
  destruct s as [q d c ev inv u ps eps f sus]. unfold canPlay. simpl.
  intros Hcan Hnone Hlt Hrej.
  unfold waitForRequestQueueToFlush, canPlay. simpl. rewrite Hcan. simpl.
  unfold disconnectedCallback, resetRequestQueue, settle. simpl.
  pose proof (Hnone f (le_n _)) as Hf. pose proof (Hnone (S f) (le_S _ _ (le_n _))) as HSf.
  assert (∀ (x y : list event) a b, (x ++ [a]) ++ [b] = x ++ [a; b]) as Happ.
  { intros x y a b. by rewrite <- (assoc_L (++)). }
  destruct (ps !! d) as [[|e]|] eqn:Hd; simpl.
  - split; [done|]. split; [done|]. split; [by apply Happ|]. split; [done|].
    split; [|done]. eexists. split.
    + unfold resume. simpl. rewrite lookup_insert_eq, Hd. reflexivity.
    + unfold complete, settle. simpl. rewrite Hf. simpl. by rewrite lookup_insert_eq.
  - by destruct (Hrej e).
  - assert (d ≠ f) as Hdf by lia. assert (d ≠ S f) as HdSf by lia.
    split; [done|]. split; [done|]. split; [by apply Happ|]. split; [done|].
    split; [|by rewrite lookup_insert_ne]. eexists. split.
    + unfold resume. simpl. rewrite !lookup_insert_eq. reflexivity.
    + unfold complete, settle. simpl.
      rewrite lookup_insert_ne, Hf by done. simpl. by rewrite lookup_insert_eq.
Qed.

Lemma disconnectedCallback_releases_waiters_witness :
  let decls := [ ("canPlay"%string, Build_Context (VBool false) None);
                 ("paused"%string, Build_Context (VBool true) None) ] in
  let s := makeRequest "paused" play_request
             (init {[ "canPlay"%string := VBool false ]}) in
  wf s ∧ truthy (canPlay s) = false
  ∧ requestQueue (disconnectedCallback decls (waitForRequestQueueToFlush s).2) = [].
Proof.
  intros decls s.
  assert (wf s) as Hwf by exact (wf_makeRequest _ _ _ (wf_init _)).
  assert (truthy (canPlay s) = false) as Hcan by (vm_compute; reflexivity).
  split; [exact Hwf|]. split; [exact Hcan|].
  exact (proj1 (disconnectedCallback_releases_waiters decls s Hwf Hcan)).
Defined.

End CoreRequests.

(** * The resets of the media context of the core provider

    [softResetMediaContext] and [hardResetMediaContext] of
    [src/core/provider/MediaProviderElement.ts] over a table [mediaContext]
    whose property names are distinct, as the keys of an object are. *)
Module CoreContext.
Import CoreProvider.

(** What a soft reset leaves under a name. *)
Lemma softReset_lookup (decls : list (string * Context)) ctx name :
  NoDup decls.*1 →
  softReset decls ctx !! name
  = match JsMap.get name decls with
    | Some decl =>
        if bool_decide (name ∈ softResettableMediaCtxProps)
        then Some (defaultValue decl) else ctx !! name
    | None => ctx !! name
    end.
Proof.
  revert ctx. induction decls as [|[n d] decls IH]; intros ctx Hnd; [done|].
  csimpl in Hnd. apply NoDup_cons in Hnd as [Hn Hnd].
  cbn [softReset JsMap.get]. rewrite IH by done.
  destruct (decide (name = n)) as [->|Hne].
  - rewrite (proj2 (JsMap.get_None n decls)) by done.
    case_bool_decide; [by rewrite lookup_insert_eq|done].
  - destruct (JsMap.get name decls); repeat case_bool_decide;
      by rewrite ?lookup_insert_ne.
Qed.

(** What a hard reset leaves under a name. *)
Lemma hardReset_lookup (decls : list (string * Context)) ctx name :
  NoDup decls.*1 →
  hardReset decls ctx !! name
  = match JsMap.get name decls with
    | Some decl =>
        match key decl with
        | None => Some (defaultValue decl)
        | Some _ => ctx !! name
        end
    | None => ctx !! name
    end.
Proof.
  revert ctx. induction decls as [|[n d] decls IH]; intros ctx Hnd; [done|].
  csimpl in Hnd. apply NoDup_cons in Hnd as [Hn Hnd].
  cbn [hardReset JsMap.get]. rewrite IH by done.
  destruct (decide (name = n)) as [->|Hne].
  - rewrite (proj2 (JsMap.get_None n decls)) by done.
    destruct (key d); [done|by rewrite lookup_insert_eq].
  - destruct (JsMap.get name decls) as [decl|]; [destruct (key decl)|];
      destruct (key d); by rewrite ?lookup_insert_ne.
Qed.

(** X6.  A hard reset assigns to every declared property that is not a
    derived context its default value, whatever it held, and assigns
    nothing to a property that [mediaContext] does not declare. *)
Theorem hardReset_restores_defaults (mediaContext : list (string * Context)) ctx :
  NoDup mediaContext.*1 →
  (∀ name decl, (name, decl) ∈ mediaContext → key decl = None →
     hardReset mediaContext ctx !! name = Some (defaultValue decl))
  ∧ (∀ name, name ∉ mediaContext.*1 →
       hardReset mediaContext ctx !! name = ctx !! name).
Proof.
  intros Hnd. split.
  - intros name decl Hin Hkey. rewrite hardReset_lookup by done.
    rewrite (proj1 (JsMap.get_elem_of name decl mediaContext Hnd) Hin).
    by rewrite Hkey.
  - intros name Hout. rewrite hardReset_lookup by done.
    by rewrite (proj2 (JsMap.get_None name mediaContext)).
Qed.

(** A table of three properties, the last of them a derived context. *)
Definition a_table : list (string * Context) :=
  [ ("duration"%string, Build_Context VNaN None);
    ("volume"%string, Build_Context (VNum 1000) None);
    ("bufferedAmount"%string, Build_Context (VNum 0) (Some "buffered"%string)) ].

Lemma a_table_distinct : NoDup a_table.*1.
Proof. refine (bool_decide_unpack _ _). vm_compute. exact I. Defined.

Lemma hardReset_restores_defaults_witness :
  let playing : gmap string value :=
    {[ "volume"%string := VNum 500; "duration"%string := VNum 90000;
       "error"%string := VThrown 0 ]} in
  NoDup a_table.*1
  ∧ hardReset a_table playing !! "volume"%string = Some (VNum 1000)
  ∧ hardReset a_table playing !! "duration"%string = Some VNaN
  ∧ hardReset a_table playing !! "error"%string = Some (VThrown 0).
Proof.
  intros playing.
  destruct (hardReset_restores_defaults a_table playing a_table_distinct)
    as [Hdeclared Hother].
  split; [exact a_table_distinct|]. split; [|split].
  - refine (Hdeclared "volume"%string (Build_Context (VNum 1000) None) _ eq_refl).
    apply elem_of_cons. right. apply elem_of_cons. by left.
  - refine (Hdeclared "duration"%string (Build_Context VNaN None) _ eq_refl).
    apply elem_of_cons. by left.
  - transitivity (playing !! "error"%string); [|reflexivity].
    apply Hother. refine (bool_decide_unpack _ _). vm_compute. exact I.
Defined.

(** X7.  When no property of the soft reset list is derived, a soft reset
    adds nothing to a hard reset, before it or after it, and each reset done
    twice is the reset done once. *)
Theorem hardReset_absorbs_softReset (mediaContext : list (string * Context)) ctx :
  NoDup mediaContext.*1 →
  (∀ name decl, (name, decl) ∈ mediaContext →
     name ∈ softResettableMediaCtxProps → key decl = None) →
  hardReset mediaContext (softReset mediaContext ctx) = hardReset mediaContext ctx
  ∧ softReset mediaContext (hardReset mediaContext ctx) = hardReset mediaContext ctx
  ∧ hardReset mediaContext (hardReset mediaContext ctx) = hardReset mediaContext ctx
  ∧ softReset mediaContext (softReset mediaContext ctx) = softReset mediaContext ctx.
Proof.
  intros Hnd Hsoft.
  assert (∀ name decl, JsMap.get name mediaContext = Some decl →
            name ∈ softResettableMediaCtxProps → key decl = None) as Hsoft'.
  { intros name decl Hget. apply Hsoft. by apply JsMap.get_elem_of. }
  repeat split; apply map_eq; intros name;
    rewrite ?hardReset_lookup, ?softReset_lookup by done;
    rewrite ?hardReset_lookup, ?softReset_lookup by done;
    destruct (JsMap.get name mediaContext) as [decl|] eqn:Hget; try done;
    pose proof (Hsoft' name decl Hget) as Hk;
    destruct (key decl); repeat case_bool_decide; try done;
    by specialize (Hk ltac:(done)).
Qed.

Lemma hardReset_absorbs_softReset_witness :
  NoDup a_table.*1
  ∧ hardReset a_table (softReset a_table {[ "volume"%string := VNum 500 ]})
    = hardReset a_table {[ "volume"%string := VNum 500 ]}.
Proof.
  split; [exact a_table_distinct|].
  refine (proj1 (hardReset_absorbs_softReset a_table _ a_table_distinct _)).
  intros name decl Hin Hsoft.
  repeat (apply elem_of_cons in Hin as [[= -> ->]|Hin]; [try done|]).
  - exfalso. revert Hsoft. refine (bool_decide_unpack _ _). vm_compute. exact I.
  - by apply elem_of_nil in Hin.
Defined.

End CoreContext.

(** * The HLS provider: sources and the [hls.js] engine

    The methods of [HlsElement] that decide where a [src] goes, and those
    that attach, load, detach and destroy the [hls.js] instance. *)
Module HlsEngine.
Import Stdlib.Strings.Ascii.
Import Hls.

(** ** [HLS_EXTENSIONS = /\.(m3u8)($|\?)/i]

    A [src] is held as its UTF-8 bytes: the bytes of the pattern are ASCII,
    which no byte of a longer character is, so that the pattern matches the
    bytes where it matches the characters. *)

(** The characters that [m] and [u] match under the flag [i]. *)
Definition matches_m (c : ascii) : bool :=
  Ascii.eqb c "m" || Ascii.eqb c "M".

Definition matches_u (c : ascii) : bool :=
  Ascii.eqb c "u" || Ascii.eqb c "U".

(** [($|\?)]: the end of the input, or a question mark. *)
Definition at_end_or_query (s : string) : bool :=
  match s with
  | EmptyString => true
  | String c _ => Ascii.eqb c "?"
  end.

(** The pattern matched at the start of [s]. *)
Definition matches_here (s : string) : bool :=
  match s with
  | String c0 (String c1 (String c2 (String c3 (String c4 rest)))) =>
      Ascii.eqb c0 "." && matches_m c1 && Ascii.eqb c2 "3" && matches_u c3
      && Ascii.eqb c4 "8" && at_end_or_query rest
  | _ => false
  end.

(** [HLS_EXTENSIONS.test(s)]: the pattern matched at some position. *)
Fixpoint HLS_EXTENSIONS_test (s : string) : bool :=
  matches_here s
  || match s with
     | EmptyString => false
     | String _ rest => HLS_EXTENSIONS_test rest
     end.

(** The spellings of the extension. *)
Definition extensions : list string :=
  [ ".m3u8"; ".m3U8"; ".M3u8"; ".M3U8" ]%string.

(** ** The element *)

(** A call of a method of the [hls.js] instance. *)
Inductive engine_call :=
| attachMedia
| detachMedia
| loadSource (src : string)
| destroy
| startLoad
| recoverMediaError.

(** [data.type] of an [hls.js] error, as [_handleHlsError] tells them
    apart. *)
Inductive error_type :=
| NETWORK_ERROR
| MEDIA_ERROR
| OTHER_ERROR.

#[global] Instance error_type_eq_dec : EqDecision error_type.
Proof. solve_decision. Defined.

Record element := Element {
  (* the src property of the video element *)
  src : string;
  (* canLoad of the media provider *)
  canLoad : bool;
  (* the rendered video element, by its currentSrc; None while it is nil *)
  videoEngine : option string;
  (* protected _hlsEngine: Hls | undefined *)
  hlsEngine : option nat;
  (* protected _isHlsEngineAttached = false *)
  _isHlsEngineAttached : bool;
  (* protected _prevHlsEngineSrc = '' *)
  _prevHlsEngineSrc : string;
  (* the calls made on hls.js instances, oldest first *)
  engineCalls : list (nat * engine_call);
  (* the types of the events dispatched, oldest first *)
  dispatched : list string
}.

Definition set_hlsEngine (h : option nat) (e : element) : element :=
  Element (src e) (canLoad e) (videoEngine e) h (_isHlsEngineAttached e)
    (_prevHlsEngineSrc e) (engineCalls e) (dispatched e).

Definition set_isHlsEngineAttached (b : bool) (e : element) : element :=
  Element (src e) (canLoad e) (videoEngine e) (hlsEngine e) b
    (_prevHlsEngineSrc e) (engineCalls e) (dispatched e).

Definition set_prevHlsEngineSrc (s : string) (e : element) : element :=
  Element (src e) (canLoad e) (videoEngine e) (hlsEngine e) (_isHlsEngineAttached e)
    s (engineCalls e) (dispatched e).

Definition set_src (s : string) (e : element) : element :=
  Element s (canLoad e) (videoEngine e) (hlsEngine e) (_isHlsEngineAttached e)
    (_prevHlsEngineSrc e) (engineCalls e) (dispatched e).

Definition dispatchEvent (type : string) (e : element) : element :=
  Element (src e) (canLoad e) (videoEngine e) (hlsEngine e) (_isHlsEngineAttached e)
    (_prevHlsEngineSrc e) (engineCalls e) (dispatched e ++ [type]).

(** [this.hlsEngine?.method()]: nothing is called while there is no
    instance. *)
Definition call_engine (c : engine_call) (e : element) : element :=
  match hlsEngine e with
  | Some h =>
      Element (src e) (canLoad e) (videoEngine e) (hlsEngine e)
        (_isHlsEngineAttached e) (_prevHlsEngineSrc e)
        (engineCalls e ++ [(h, c)]) (dispatched e)
  | None => e
  end.

Section HlsElement.

Variable super_canPlayType : string → CanPlay.
Variable Hls_isSupported : option bool.
Variable isHlsjsSupported : bool.

(** [get isHlsStream() { return HLS_EXTENSIONS.test(this.src); }] *)
Definition isHlsStream (e : element) : bool := HLS_EXTENSIONS_test (src e).

(** <<
    if (isHlsjsSupported()) return false;
    return this.hasNativeHlsSupport;
    >> *)
Definition shouldUseNativeHlsSupport : bool :=
  if isHlsjsSupported then false else hasNativeHlsSupport super_canPlayType.




(** <<
    this.hlsEngine?.destroy();
    this._prevHlsEngineSrc = '';
    this._hlsEngine = undefined;
    this._isHlsEngineAttached = false;
    >> *)
Definition _destroyHlsEngine (e : element) : element :=
  set_isHlsEngineAttached false
    (set_hlsEngine None
       (set_prevHlsEngineSrc EmptyString
          (call_engine destroy e))).

(** <<
    if (this.isHlsEngineAttached || isUndefined(this.hlsEngine)
        || isNil(this.videoEngine)) return;
    this.hlsEngine.attachMedia(this.videoEngine);
    this._isHlsEngineAttached = true;
    this.dispatchEvent(vdsEvent('vds-hls-attach', ...));
    >> *)
Definition _attachHlsEngine (e : element) : element :=
  if _isHlsEngineAttached e
     || bool_decide (hlsEngine e = None)
     || bool_decide (videoEngine e = None)
  then e
  else dispatchEvent "vds-hls-attach"
         (set_isHlsEngineAttached true (call_engine attachMedia e)).

(** <<
    if (!this.isHlsEngineAttached) return;
    this.hlsEngine?.detachMedia();
    this._isHlsEngineAttached = false;
    this._prevHlsEngineSrc = '';
    this.dispatchEvent(vdsEvent('vds-hls-detach', ...));
    >> *)
Definition _detachHlsEngine (e : element) : element :=
  if negb (_isHlsEngineAttached e) then e
  else dispatchEvent "vds-hls-detach"
         (set_prevHlsEngineSrc EmptyString
            (set_isHlsEngineAttached false (call_engine detachMedia e))).

(** <<
    if (isNil(this.hlsEngine) || !this.isHlsStream
        || this.shouldUseNativeHlsSupport
        || this.src === this._prevHlsEngineSrc) return;
    this.hlsEngine.loadSource(this.src);
    this._prevHlsEngineSrc = this.src;
    >> *)
Definition _loadSrcOnHlsEngine (e : element) : element :=
  if bool_decide (hlsEngine e = None)
     || negb (isHlsStream e)
     || shouldUseNativeHlsSupport
     || bool_decide (src e = _prevHlsEngineSrc e)
  then e
  else set_prevHlsEngineSrc (src e) (call_engine (loadSource (src e)) e).

(** [_handleHlsNetworkError]: [this.hlsEngine?.startLoad();] *)
Definition _handleHlsNetworkError (e : element) : element :=
  call_engine startLoad e.

(** [_handleHlsMediaError]: [this.hlsEngine?.recoverMediaError();] *)
Definition _handleHlsMediaError (e : element) : element :=
  call_engine recoverMediaError e.

(** [_handleHlsIrrecoverableError]: [this._destroyHlsEngine();] *)
Definition _handleHlsIrrecoverableError (e : element) : element :=
  _destroyHlsEngine e.

(** <<
    if (isUndefined(this.Hls)) return;
    if (data.fatal) {
      switch (data.type) {
        case this.Hls.ErrorTypes.NETWORK_ERROR: this._handleHlsNetworkError(...); break;
        case this.Hls.ErrorTypes.MEDIA_ERROR: this._handleHlsMediaError(...); break;
        default: this._handleHlsIrrecoverableError(...); break;
      }
    }
    this.dispatchEvent(vdsEvent('vds-error', ...));
    >>
    [this.Hls] is undefined exactly when [this.Hls?.isSupported()] is. *)
Definition _handleHlsError (fatal : bool) (type : error_type) (e : element) : element :=
  match Hls_isSupported with
  | None => e
  | Some _ =>
      let e :=
        if fatal then
          match type with
          | NETWORK_ERROR => _handleHlsNetworkError e
          | MEDIA_ERROR => _handleHlsMediaError e
          | OTHER_ERROR => _handleHlsIrrecoverableError e
          end
        else e in
      dispatchEvent "vds-error" e
  end.

(** <<
    if (isNil(this.videoEngine) && !forceRebuild && !isUndefined(this.hlsEngine)) {
      return;
    }
    if (!isUndefined(this.hlsEngine)) { this._destroyHlsEngine(); }
    >>
    [_buildHlsEngine(forceRebuild)] up to the loading of the library, which
    it awaits; [None] when it returns at its guard. *)
Definition _buildHlsEngine_start (forceRebuild : bool) (e : element) : option element :=
  if bool_decide (videoEngine e = None) && negb forceRebuild
     && negb (bool_decide (hlsEngine e = None))
  then None
  else Some (if negb (bool_decide (hlsEngine e = None)) then _destroyHlsEngine e else e).

(** <<
    if (!this.Hls?.isSupported?.()) {
      this.dispatchEvent(vdsEvent('vds-hls-no-support'));
      return;
    }
    this._hlsEngine = new this.Hls(this.hlsConfig ?? {});
    this.dispatchEvent(vdsEvent('vds-hls-build', ...));
    this._listenToHlsEngine();
    >>
    The rest of [_buildHlsEngine], once the library is resolved; [h] is the
    instance that [new this.Hls(...)] makes. *)
Definition _buildHlsEngine_finish (h : nat) (e : element) : element :=
  if negb (default false Hls_isSupported)
  then dispatchEvent "vds-hls-no-support" e
  else dispatchEvent "vds-hls-build" (set_hlsEngine (Some h) e).

(** <<
    super._handleMediaSrcChange();
    if (!this.hasUpdated || !this.canLoad) return;
    if (!this.isHlsStream) { this._detachHlsEngine(); return; }
    await this.updateComplete;
    >>
    [_handleMediaSrcChange()] up to its first [await]; the inherited
    handler acts on the request queue and the media context, which are no
    fields of [element].  The boolean tells whether the method goes on. *)
Definition _handleMediaSrcChange_start (hasUpdated : bool) (e : element) : element * bool :=
  if negb hasUpdated || negb (canLoad e) then (e, false)
  else if negb (isHlsStream e) then (_detachHlsEngine e, false)
  else (e, true).

(** <<
    this._attachHlsEngine();
    this._loadSrcOnHlsEngine();
    >>
    The end of [_handleMediaSrcChange()], after the engine is built, and of
    [update()] when [hlsLibrary] changed. *)
Definition _handleMediaSrcChange_finish (e : element) : element :=
  _loadSrcOnHlsEngine (_attachHlsEngine e).

End HlsElement.

(** ** The life of an element

    The async methods [_handleMediaSrcChange], [_buildHlsEngine] and
    [update] run in pieces, from one [await] to the next, and the handlers
    of other events run in between.  A step is one such piece, or a method
    called on its own ([disconnectedCallback] calls [_destroyHlsEngine]),
    or the handler of an [hls.js] error, or a write of the [src] property.
    What calls [_handleMediaSrcChange] after such a write is in the classes
    that [HlsElement] extends; here the pieces of the handler are steps of
    their own, which may follow any write.  Each step that reads [this.Hls]
    comes with what [this.Hls?.isSupported()] gives at that time.  Every
    run of the element is a sequence of these steps; not every sequence is
    a run, so that what holds after every sequence holds after every run. *)
Inductive op :=
| AttachHlsEngine
| DetachHlsEngine
| DestroyHlsEngine
| LoadSrcOnHlsEngine
| HandleHlsError (Hls_isSupported : option bool) (fatal : bool) (type : error_type)
| BuildHlsEngineStart (forceRebuild : bool)
| BuildHlsEngineFinish (Hls_isSupported : option bool) (h : nat)
| HandleMediaSrcChangeStart (hasUpdated : bool)
| HandleMediaSrcChangeFinish
| SetSrc (s : string).

Section Steps.

(** What the browser supports does not change in the life of an element. *)
Variable super_canPlayType : string → CanPlay.
Variable isHlsjsSupported : bool.

Definition exec (o : op) (e : element) : element :=
  match o with
  | AttachHlsEngine => _attachHlsEngine e
  | DetachHlsEngine => _detachHlsEngine e
  | DestroyHlsEngine => _destroyHlsEngine e
  | LoadSrcOnHlsEngine => _loadSrcOnHlsEngine super_canPlayType isHlsjsSupported e
  | HandleHlsError Hls_isSupported fatal type =>
      _handleHlsError Hls_isSupported fatal type e
  | BuildHlsEngineStart forceRebuild =>
      default e (_buildHlsEngine_start forceRebuild e)
  | BuildHlsEngineFinish Hls_isSupported h =>
      _buildHlsEngine_finish Hls_isSupported h e
  | HandleMediaSrcChangeStart hasUpdated =>
      (_handleMediaSrcChange_start hasUpdated e).1
  | HandleMediaSrcChangeFinish =>
      _handleMediaSrcChange_finish super_canPlayType isHlsjsSupported e
  | SetSrc s => set_src s e
  end.

Definition run (ops : list op) (e : element) : element :=
  foldl (λ e o, exec o e) e ops.

End Steps.



(** ** Properties *)

Lemma matches_m_spec c : matches_m c = true ↔ c = "m"%char ∨ c = "M"%char.
Proof.
  unfold matches_m. rewrite orb_true_iff, !Ascii.eqb_eq. done.
Qed.

Lemma matches_u_spec c : matches_u c = true ↔ c = "u"%char ∨ c = "U"%char.
Proof.
  unfold matches_u. rewrite orb_true_iff, !Ascii.eqb_eq. done.
Qed.

Lemma at_end_or_query_spec s :
  at_end_or_query s = true ↔ s = EmptyString ∨ ∃ q, s = String "?" q.
Proof.
  destruct s as [|c s]; simpl.
  - split; [by left|done].
  - rewrite Ascii.eqb_eq. split.
    + intros ->. right. by eexists.
    + by intros [|[q [= -> _]]].
Qed.

(** The pattern matches at the start of [s] exactly when [s] starts with
    one of the spellings, followed by the end of [s] or a question mark. *)
Lemma matches_here_spec s :
  matches_here s = true
  ↔ ∃ ext post, s = (ext +:+ post)%string ∧ ext ∈ extensions
      ∧ (post = EmptyString ∨ ∃ q, post = String "?" q).
Proof.
  split.
  - destruct s as [|c0 [|c1 [|c2 [|c3 [|c4 rest]]]]]; try done. simpl.
    rewrite !andb_true_iff, !Ascii.eqb_eq, matches_m_spec, matches_u_spec,
      at_end_or_query_spec.
    intros (((((-> & Hm) & ->) & Hu) & ->) & Hrest).
    destruct Hm as [-> | ->], Hu as [-> | ->].
    + exists ".m3u8"%string, rest. split; [done|]. split; [|done].
      unfold extensions. set_solver.
    + exists ".m3U8"%string, rest. split; [done|]. split; [|done].
      unfold extensions. set_solver.
    + exists ".M3u8"%string, rest. split; [done|]. split; [|done].
      unfold extensions. set_solver.
    + exists ".M3U8"%string, rest. split; [done|]. split; [|done].
      unfold extensions. set_solver.
  - intros (ext & post & -> & Hext & Hpost).
    apply at_end_or_query_spec in Hpost.
    unfold extensions in Hext.
    repeat (apply elem_of_cons in Hext as [-> | Hext]; [by simpl|]).
    by apply elem_of_nil in Hext.
Qed.

(** X8.  A [src] is taken for an HLS stream exactly when it holds the
    extension [.m3u8], in upper or lower case letters, followed by the end of
    the [src] or by a question mark. *)
Theorem isHlsStream_by_extension (s : string) :
  HLS_EXTENSIONS_test s = true
  ↔ ∃ pre ext post,
      s = (pre +:+ ext +:+ post)%string ∧ ext ∈ extensions
      ∧ (post = EmptyString ∨ ∃ q, post = String "?" q).
Proof.
  split.
  - induction s as [|c s IH].
    + simpl. done.
    + cbn [HLS_EXTENSIONS_test]. rewrite orb_true_iff. intros [Hhere | Hlater].
      * apply matches_here_spec in Hhere as (ext & post & -> & Hext & Hpost).
        by exists EmptyString, ext, post.
      * destruct (IH Hlater) as (pre & ext & post & -> & Hext & Hpost).
        by exists (String c pre), ext, post.
  - intros (pre & ext & post & -> & Hext & Hpost).
    induction pre as [|c pre IH].
    + assert (matches_here (ext +:+ post) = true) as Hhere.
      { apply matches_here_spec. by exists ext, post. }
      simpl. destruct (ext +:+ post)%string; simpl in *; [done|].
      by rewrite Hhere.
    + change (String c pre +:+ ext +:+ post)%string
        with (String c (pre +:+ ext +:+ post)).
      cbn [HLS_EXTENSIONS_test]. rewrite IH. apply orb_true_r.
Qed.

Example hls_sources :
  HLS_EXTENSIONS_test "https://media.vidstack.io/hls/index.M3U8?token=1" = true
  ∧ HLS_EXTENSIONS_test "https://media.vidstack.io/hls/index.m3u8#t=10" = false.
Proof. split; reflexivity. Qed.


Section Engine.

Variable super_canPlayType : string → CanPlay.
Variable isHlsjsSupported : bool.

Lemma run_ops_snoc ops o e :
  run super_canPlayType isHlsjsSupported (ops ++ [o]) e
  = exec super_canPlayType isHlsjsSupported o
      (run super_canPlayType isHlsjsSupported ops e).
Proof. unfold run. by rewrite foldl_app. Qed.


End Engine.





(** The flags that speak of an engine are set only while there is one, and
    the source recorded as loaded was an HLS stream. *)
Definition consistent (e : element) : Prop :=
  (_isHlsEngineAttached e = true → is_Some (hlsEngine e))
  ∧ (_prevHlsEngineSrc e ≠ EmptyString →
       is_Some (hlsEngine e) ∧ HLS_EXTENSIONS_test (_prevHlsEngineSrc e) = true).

Lemma consistent_same e e' :
  hlsEngine e' = hlsEngine e →
  _isHlsEngineAttached e' = _isHlsEngineAttached e →
  _prevHlsEngineSrc e' = _prevHlsEngineSrc e →
  consistent e → consistent e'.
Proof. unfold consistent. by intros -> -> ->. Qed.

Lemma consistent_call_engine c e : consistent e → consistent (call_engine c e).
Proof.
  intros He. unfold call_engine. destruct (hlsEngine e) eqn:Hh; [|done].
  by apply (consistent_same e).
Qed.

Lemma consistent_destroyHlsEngine e : consistent (_destroyHlsEngine e).
Proof. split; simpl; done. Qed.

Lemma consistent_attachHlsEngine e : consistent e → consistent (_attachHlsEngine e).
Proof.
  intros He. unfold _attachHlsEngine.
  destruct (_isHlsEngineAttached e
            || bool_decide (hlsEngine e = None)
            || bool_decide (videoEngine e = None)) eqn:Hguard; [done|].
  apply orb_false_iff in Hguard as [Hguard _].
  apply orb_false_iff in Hguard as [_ Hengine].
  apply bool_decide_eq_false in Hengine.
  destruct He as [_ Hp]. unfold call_engine.
  destruct (hlsEngine e) as [h|] eqn:Hh; [|done].
  split; simpl; rewrite ?Hh; [by eexists|done].
Qed.

Lemma consistent_detachHlsEngine e : consistent e → consistent (_detachHlsEngine e).
Proof.
  intros He. unfold _detachHlsEngine. destruct (_isHlsEngineAttached e); [|done].
  split; simpl; done.
Qed.

Lemma consistent_loadSrcOnHlsEngine super_canPlayType isHlsjsSupported e :
  consistent e →
  consistent (_loadSrcOnHlsEngine super_canPlayType isHlsjsSupported e).
Proof.
  intros He. unfold _loadSrcOnHlsEngine.
  destruct (bool_decide (hlsEngine e = None)
            || negb (isHlsStream e)
            || shouldUseNativeHlsSupport super_canPlayType isHlsjsSupported
            || bool_decide (src e = _prevHlsEngineSrc e)) eqn:Hguard; [done|].
  apply orb_false_iff in Hguard as [Hguard _].
  apply orb_false_iff in Hguard as [Hguard _].
  apply orb_false_iff in Hguard as [Hengine Hhls].
  apply bool_decide_eq_false in Hengine. apply negb_false_iff in Hhls.
  destruct He as [Ha _]. unfold call_engine.
  destruct (hlsEngine e) as [h|] eqn:Hh; [|done].
  split; simpl; rewrite ?Hh; [done|]. intros _. split; [by eexists|done].
Qed.

(** X11.  The steps keep the element consistent: it is marked attached
    only while it has an engine, and a source is recorded as loaded only
    while it has an engine, and only if it was an HLS stream. *)
Theorem engine_methods_keep_consistency (super_canPlayType : string → CanPlay)
    (isHlsjsSupported : bool) (ops : list op) (e : element) :
  consistent e →
  consistent (run super_canPlayType isHlsjsSupported ops e).
Proof.
  intros He. induction ops as [|o ops IH] using rev_ind; [done|].
  rewrite run_ops_snoc.
  set (e' := run super_canPlayType isHlsjsSupported ops e) in *.
  clearbody e'. clear He.
  destruct o as [| | | |Hls fatal type|forceRebuild|Hls h|hasUpdated| |s]; cbn [exec].
  - by apply consistent_attachHlsEngine.
  - by apply consistent_detachHlsEngine.
  - apply consistent_destroyHlsEngine.
  - by apply consistent_loadSrcOnHlsEngine.
  - unfold _handleHlsError. destruct Hls; [|done].
    apply (consistent_same
             (if fatal then
                match type with
                | NETWORK_ERROR => _handleHlsNetworkError e'
                | MEDIA_ERROR => _handleHlsMediaError e'
                | OTHER_ERROR => _handleHlsIrrecoverableError e'
                end
              else e')); try done.
    destruct fatal; [|done].
    destruct type; [by apply consistent_call_engine|by apply consistent_call_engine|].
    apply consistent_destroyHlsEngine.
  - unfold _buildHlsEngine_start.
    destruct (bool_decide (videoEngine e' = None) && negb forceRebuild
              && negb (bool_decide (hlsEngine e' = None))); [done|].
    simpl. destruct (negb (bool_decide (hlsEngine e' = None))); [|done].
    apply consistent_destroyHlsEngine.
  - unfold _buildHlsEngine_finish. destruct (negb (default false Hls)).
    + by apply (consistent_same e').
    + destruct IH as [_ Hp]. split; simpl; [by eexists|].
      intros Hprev. split; [by eexists|]. by apply Hp.
  - unfold _handleMediaSrcChange_start.
    destruct (negb hasUpdated || negb (canLoad e')); [done|].
    destruct (negb (isHlsStream e')); [|done]. simpl.
    by apply consistent_detachHlsEngine.
  - unfold _handleMediaSrcChange_finish.
    by apply consistent_loadSrcOnHlsEngine, consistent_attachHlsEngine.
  - done.
Qed.

(** An element as constructed, with the given [src]. *)
Definition create (s : string) : element :=
  Element s false None None false EmptyString [] [].

(** An element that is rendered and can load, with the given [src]. *)
Definition rendered (s : string) : element :=
  Element s true (Some EmptyString) None false EmptyString [] [].

(** A source change builds the engine, attaches it and loads the source; a
    media error is recovered; the source becomes a file, and the engine is
    detached. *)
Definition a_life : list op :=
  [ HandleMediaSrcChangeStart true; BuildHlsEngineStart false;
    BuildHlsEngineFinish (Some true) 0; HandleMediaSrcChangeFinish;
    HandleHlsError (Some true) true MEDIA_ERROR;
    SetSrc "clip.mp4"; HandleMediaSrcChangeStart true ].

Lemma engine_methods_keep_consistency_witness :
  let e := run (λ _, No) true a_life (rendered "index.m3u8") in
  consistent (rendered "index.m3u8")
  ∧ consistent e
  ∧ engineCalls e
    = [(0, attachMedia); (0, loadSource "index.m3u8"); (0, recoverMediaError);
       (0, detachMedia)]
  ∧ dispatched e
    = ["vds-hls-build"; "vds-hls-attach"; "vds-error"; "vds-hls-detach"]%string
  ∧ hlsEngine e = Some 0.
Proof.
  intros e.
  assert (consistent (rendered "index.m3u8")) as H by (split; simpl; done).
  split; [exact H|].
  split; [exact (engine_methods_keep_consistency (λ _, No) true _ _ H)|].
  split; [reflexivity|]. split; reflexivity.
Defined.

(** X12.  Each of the four methods done twice is the method done once: a
    source is loaded on the engine once, however often
    [_loadSrcOnHlsEngine] is called, the engine is attached, detached and
    destroyed once. *)
Theorem engine_methods_are_idempotent (super_canPlayType : string → CanPlay)
    (isHlsjsSupported : bool) (e : element) :
  let load := _loadSrcOnHlsEngine super_canPlayType isHlsjsSupported in
  load (load e) = load e
  ∧ _attachHlsEngine (_attachHlsEngine e) = _attachHlsEngine e
  ∧ _detachHlsEngine (_detachHlsEngine e) = _detachHlsEngine e
  ∧ _destroyHlsEngine (_destroyHlsEngine e) = _destroyHlsEngine e.
Proof.
  cbv zeta. split; [|split; [|split]].
  - assert (_loadSrcOnHlsEngine super_canPlayType isHlsjsSupported e = e
            ∨ src (_loadSrcOnHlsEngine super_canPlayType isHlsjsSupported e)
              = _prevHlsEngineSrc
                  (_loadSrcOnHlsEngine super_canPlayType isHlsjsSupported e))
      as [Hsame | Hsame].
    { unfold _loadSrcOnHlsEngine, call_engine.
      destruct (_ || _ || _ || _); [by left|right]. by destruct (hlsEngine e). }
    + by rewrite !Hsame.
    + unfold _loadSrcOnHlsEngine at 1. rewrite (bool_decide_eq_true_2 _ Hsame).
      by rewrite !orb_true_r.
  - assert (_attachHlsEngine e = e
            ∨ _isHlsEngineAttached (_attachHlsEngine e) = true) as [Hatt | Hatt].
    { unfold _attachHlsEngine, call_engine.
      destruct (_ || _ || _); [by left|right]. by destruct (hlsEngine e). }
    + by rewrite !Hatt.
    + unfold _attachHlsEngine at 1. by rewrite Hatt.
  - assert (_detachHlsEngine e = e
            ∨ _isHlsEngineAttached (_detachHlsEngine e) = false) as [Hatt | Hatt].
    { unfold _detachHlsEngine, call_engine.
      destruct (_isHlsEngineAttached e) eqn:E; [right|by left].
      by destruct (hlsEngine e). }
    + by rewrite !Hatt.
    + unfold _detachHlsEngine at 1. by rewrite Hatt.
  - unfold _destroyHlsEngine, call_engine. by destruct (hlsEngine e).
Qed.

(** X13.  An [hls.js] error is reported once, by a [vds-error] event,
    whether it is fatal or not, unless it arrives while the library is
    undefined: then nothing happens.  An error that is not fatal, and a fatal
    network or media error, leave the engine, its attachment and the loaded
    source as they are; any other fatal error leaves the element as
    [_destroyHlsEngine] does. *)
Theorem handleHlsError_reports_and_recovers (Hls_isSupported : option bool)
    (fatal : bool) (type : error_type) (e : element) :
  let e' := _handleHlsError Hls_isSupported fatal type e in
  match Hls_isSupported with
  | None => e' = e
  | Some _ =>
      dispatched e' = dispatched e ++ ["vds-error"%string]
      ∧ if fatal && bool_decide (type = OTHER_ERROR)
        then e' = dispatchEvent "vds-error" (_destroyHlsEngine e)
        else hlsEngine e' = hlsEngine e
             ∧ _isHlsEngineAttached e' = _isHlsEngineAttached e
             ∧ _prevHlsEngineSrc e' = _prevHlsEngineSrc e
             ∧ engineCalls e'
               = engineCalls e
                 ++ match hlsEngine e with
                    | Some h =>
                        if fatal
                        then [(h, match type with
                                  | NETWORK_ERROR => startLoad
                                  | _ => recoverMediaError
                                  end)]
                        else []
                    | None => []
                    end
  end.
Proof.
  cbv zeta. unfold _handleHlsError. destruct Hls_isSupported as [b|]; [|done].
  unfold _handleHlsNetworkError, _handleHlsMediaError, _handleHlsIrrecoverableError,
    _destroyHlsEngine, call_engine.
  destruct fatal, type, (hlsEngine e) as [h|] eqn:Hh; simpl;
    rewrite ?app_nil_r; done.
Qed.

End HlsEngine.

(** * [src/utils/number.ts]: [clampNumber]

    [clampNumber] is built from [Math.min] and [Math.max].  Both return
    [NaN] when an argument is [NaN]; on the other numbers they are the
    minimum and the maximum of a total order: that of the values, with [-0]
    below [+0], and the infinities at the ends.  [A] stands for the numbers
    other than [NaN] and [le] for that order. *)
Module Numbers.
Section Numbers.

Context {A : Type} (le : relation A).
Context `{!PartialOrder le} `{!Total le} `{!RelDecision le}.

Inductive number :=
| NaN
| Num (x : A).

(** [Math.min(a, b)] *)
Definition Math_min (a b : number) : number :=
  match a, b with
  | Num x, Num y => Num (if decide (le x y) then x else y)
  | _, _ => NaN
  end.

(** [Math.max(a, b)] *)
Definition Math_max (a b : number) : number :=
  match a, b with
  | Num x, Num y => Num (if decide (le x y) then y else x)
  | _, _ => NaN
  end.

(** [return Math.max(min, Math.min(max, value));] *)
Definition clampNumber (min value max : number) : number :=
  Math_max min (Math_min max value).

(** X14.  With bounds in order, [clampNumber] returns a number between
    them: the value itself when it lies between them, and the bound it
    passes otherwise. *)
Theorem clampNumber_clamps (min value max : A) :
  le min max →
  ∃ r, clampNumber (Num min) (Num value) (Num max) = Num r
       ∧ le min r ∧ le r max
       ∧ (le min value → le value max → r = value)
       ∧ (le value min → r = min)
       ∧ (le max value → r = max).
Proof.
  intros Hbounds. unfold clampNumber, Math_min, Math_max.
  destruct (decide (le max value)) as [Hhigh | Hhigh].
  - rewrite decide_True by done. exists max.
    split; [done|]. split; [done|]. split; [done|]. split; [|split; [|done]].
    + intros _ Hv. by apply (anti_symm le).
    + intros Hv. apply (anti_symm le); [|done]. by transitivity value.
  - assert (le value max) as Hv by (by destruct (total le value max)).
    destruct (decide (le min value)) as [Hlow | Hlow].
    + exists value. split; [done|]. split; [done|]. split; [done|].
      split; [done|]. split; [|done]. intros Hv'. by apply (anti_symm le).
    + exists min. split; [done|]. split; [done|]. split; [done|].
      split; [done|]. split; [done|]. done.
Qed.

(** X15.  [clampNumber] returns [NaN] as soon as one of its arguments is
    [NaN]: a value that is not a number is not clamped.  With the bounds out
    of order it returns the lower bound, whatever the value.  Clamping a
    clamped value changes nothing. *)
Theorem clampNumber_edge_cases (min value max : number) (low v high : A) :
  clampNumber min NaN max = NaN
  ∧ clampNumber NaN value max = NaN
  ∧ clampNumber min value NaN = NaN
  ∧ (¬ le low high → clampNumber (Num low) (Num v) (Num high) = Num low)
  ∧ clampNumber min (clampNumber min value max) max = clampNumber min value max.
Proof.
  split; [by destruct min, max|]. split; [done|]. split; [by destruct min|].
  split.
  - intros Hcrossed. unfold clampNumber, Math_min, Math_max.
    assert (le high low) as Hhl by (by destruct (total le low high)).
    destruct (decide (le high v)) as [Hhigh | Hhigh].
    + rewrite decide_False; [done|]. done.
    + rewrite decide_False; [done|]. intros Hlow. apply Hhigh.
      by transitivity low.
  - destruct min as [|low'], value as [|v'], max as [|high']; try done.
    unfold clampNumber, Math_min, Math_max.
    destruct (decide (le high' v')) as [H1 | H1].
    + destruct (decide (le low' high')) as [H2 | H2].
      * rewrite (decide_True (P := le high' high')) by done.
        by rewrite (decide_True (P := le low' high')).
      * assert (le high' low') as H3 by (by destruct (total le low' high')).
        rewrite (decide_True (P := le high' low')) by done.
        by rewrite (decide_False (P := le low' high')).
    + destruct (decide (le low' v')) as [H2 | H2].
      * rewrite (decide_False (P := le high' v')) by done.
        by rewrite (decide_True (P := le low' v')).
      * destruct (decide (le high' low')) as [H4 | H4].
        -- destruct (decide (le low' high')) as [H5 | H5]; [|done].
           f_equal. by apply (anti_symm le).
        -- by destruct (decide (le low' low')).
Qed.

End Numbers.

(** The volume setter passes [clampNumber(0, requestedVolume, 1)] to the
    engine; with volumes in hundredths, 1.5 becomes 1. *)
Lemma clampNumber_clamps_witness :
  (0 ≤ 100)%Z
  ∧ ∃ r, clampNumber Z.le (Num 0%Z) (Num 150%Z) (Num 100%Z) = Num r
         ∧ (0 ≤ r)%Z ∧ (r ≤ 100)%Z.
Proof.
  assert (0 ≤ 100)%Z as H by lia.
  split; [exact H|].
  destruct (clampNumber_clamps Z.le 0%Z 150%Z 100%Z H) as (r & Hr & Hlow & Hhigh & _).
  by exists r.
Defined.

Lemma clampNumber_edge_cases_witness :
  ¬ (100 ≤ 0)%Z
  ∧ clampNumber Z.le (Num 100%Z) (Num 50%Z) (Num 0%Z) = Num 100%Z.
Proof.
  assert (¬ (100 ≤ 0)%Z) as H by lia.
  split; [exact H|].
  exact (proj1 (proj2 (proj2 (proj2
           (clampNumber_edge_cases Z.le NaN NaN NaN 100%Z 50%Z 0%Z)))) H).
Defined.

End Numbers.

(** * Playback state of the media provider

    [_hasPlaybackRoughlyEnded] and [_validatePlaybackEndedState] of
    [src/media/provider/MediaProviderElement.ts].  Their arithmetic on floating point numbers is kept abstract: [close d t]
    stands for
    [Math.abs(Math.round(d * 10) - Math.round(t * 10)) <= 1]. *)
Module MediaPlayback.
Section Playback.

Context {number : Type}.
Variable isNaN : number → bool.
Variable is_zero : number → bool.
Variable close : number → number → bool.
Variable zero : number.

Record provider := Provider {
  (* this.ctx.canPlay *)
  canPlay : bool;
  (* this.ctx.duration *)
  duration : number;
  (* this.ctx.ended *)
  ended : bool;
  (* this.ctx.waiting *)
  waiting : bool;
  (* what _getCurrentTime() returns *)
  engineTime : number;
  (* the types of the events dispatched, oldest first *)
  dispatched : list string
}.

Definition set_ended (b : bool) (p : provider) : provider :=
  Provider (canPlay p) (duration p) b (waiting p) (engineTime p) (dispatched p).

Definition set_waiting (b : bool) (p : provider) : provider :=
  Provider (canPlay p) (duration p) (ended p) b (engineTime p) (dispatched p).

Definition dispatchEvent (type : string) (p : provider) : provider :=
  Provider (canPlay p) (duration p) (ended p) (waiting p) (engineTime p)
    (dispatched p ++ [type]).

(** [get currentTime() { return this.canPlay ? this._getCurrentTime() : 0; }] *)
Definition currentTime (p : provider) : number :=
  if canPlay p then engineTime p else zero.

(** <<
    if (isNaN(this.duration) || this.duration === 0) return false;
    return Math.abs(Math.round(this.duration * 10)
                    - Math.round(this.currentTime * 10)) <= 1;
    >> *)
Definition _hasPlaybackRoughlyEnded (p : provider) : bool :=
  if isNaN (duration p) || is_zero (duration p) then false
  else close (duration p) (currentTime p).

(** <<
    if (this.ctx.ended && !this._hasPlaybackRoughlyEnded()) {
      this.ctx.ended = false;
    } else if (!this.ctx.ended && this._hasPlaybackRoughlyEnded()) {
      this.ctx.waiting = false;
      this.dispatchEvent(vdsEvent('vds-suspend'));
      this.ctx.ended = true;
      this.dispatchEvent(vdsEvent('vds-error'));
    }
    >> *)
Definition _validatePlaybackEndedState (p : provider) : provider :=
  if ended p && negb (_hasPlaybackRoughlyEnded p) then set_ended false p
  else if negb (ended p) && _hasPlaybackRoughlyEnded p then
    dispatchEvent "vds-error"
      (set_ended true
         (dispatchEvent "vds-suspend"
            (set_waiting false p)))
  else p.

(** X16.  [_validatePlaybackEndedState] leaves [ended] saying whether the
    playback has roughly ended, so that a second call changes nothing.  When
    it turns [ended] on it clears [waiting] and dispatches [vds-suspend] and
    then [vds-error]; otherwise it dispatches nothing.  With a duration that
    is [NaN] or 0 it leaves [ended] off. *)
Theorem validatePlaybackEndedState_settles (p : provider) :
  let p' := _validatePlaybackEndedState p in
  ended p' = _hasPlaybackRoughlyEnded p
  ∧ _validatePlaybackEndedState p' = p'
  ∧ dispatched p'
    = dispatched p
      ++ (if negb (ended p) && _hasPlaybackRoughlyEnded p
          then ["vds-suspend"; "vds-error"]%string else [])
  ∧ waiting p'
    = (if negb (ended p) && _hasPlaybackRoughlyEnded p then false else waiting p)
  ∧ (if isNaN (duration p) || is_zero (duration p) then ended p' = false else True).
Proof.
  cbv zeta.
  assert (∀ q, duration q = duration p → canPlay q = canPlay p →
               engineTime q = engineTime p →
               _hasPlaybackRoughlyEnded q = _hasPlaybackRoughlyEnded p) as Hsame.
  { intros q Hd Hc He. unfold _hasPlaybackRoughlyEnded, currentTime.
    by rewrite Hd, Hc, He. }
  assert (if isNaN (duration p) || is_zero (duration p)
          then _hasPlaybackRoughlyEnded p = false else True) as Hzero.
  { unfold _hasPlaybackRoughlyEnded. by destruct (_ || _). }
  assert (∀ q, _validatePlaybackEndedState q
               = if ended q
                 then if _hasPlaybackRoughlyEnded q then q else set_ended false q
                 else if _hasPlaybackRoughlyEnded q
                      then dispatchEvent "vds-error"
                             (set_ended true
                                (dispatchEvent "vds-suspend" (set_waiting false q)))
                      else q) as Hcases.
  { intros q. unfold _validatePlaybackEndedState.
    by destruct (ended q), (_hasPlaybackRoughlyEnded q). }
  rewrite (Hcases p).
  destruct (ended p) eqn:Hended, (_hasPlaybackRoughlyEnded p) eqn:Hrough;
    cbn [andb negb].
  - rewrite Hcases, ?Hended, ?Hrough, app_nil_r.
    split; [done|]. split; [done|]. split; [done|]. split; [done|].
    destruct (_ || _); [discriminate Hzero|done].
  - rewrite Hcases. rewrite (Hsame (set_ended false p)) by done.
    cbn [ended set_ended waiting dispatched]. rewrite ?Hrough, app_nil_r.
    split; [done|]. split; [done|]. split; [done|]. split; [done|].
    by destruct (_ || _).
  - rewrite Hcases. rewrite (Hsame (dispatchEvent _ _)) by done.
    cbn [ended set_ended waiting dispatched dispatchEvent set_waiting].
    rewrite ?Hrough, <- (assoc_L (++)).
    split; [done|]. split; [done|]. split; [done|]. split; [done|].
    destruct (_ || _); [discriminate Hzero|done].
  - rewrite Hcases, ?Hended, ?Hrough, app_nil_r.
    split; [done|]. split; [done|]. split; [done|]. split; [done|].
    by destruct (_ || _).
Qed.

End Playback.
End MediaPlayback.

(** * User events of the core provider

    The handlers of the user events of
    [src/core/provider/MediaProviderElement.ts] go through the setters of
    the writable properties, and these through [makeRequest], each under
    the key of its property. *)
Module CoreUserEvents.
Import CoreProvider.

Inductive user_event :=
| VdsUserMutedChangeEvent (detail : value)
| VdsUserFullscreenChangeEvent (detail : value)
| VdsUserPlayEvent
| VdsUserPauseEvent
| VdsUserSeekedEvent (detail : value)
| VdsUserVolumeChangeEvent (detail : value).

(** The key under which the handler of an event makes its request:
    [handleUserMuteChange] sets [muted], [handleUserPlay] and
    [handleUserPause] set [paused], [handleUserSeeked] sets [currentTime],
    whose key is [time], [handleUserVolumeChange] sets [volume], and
    [handleUserFullscreenChange] makes its request under [fullscreen]. *)
Definition requestKey (ev : user_event) : string :=
  match ev with
  | VdsUserMutedChangeEvent _ => "muted"
  | VdsUserFullscreenChangeEvent _ => "fullscreen"
  | VdsUserPlayEvent => "paused"
  | VdsUserPauseEvent => "paused"
  | VdsUserSeekedEvent _ => "time"
  | VdsUserVolumeChangeEvent _ => "volume"
  end.

Definition userRequestKeys : list string :=
  [ "muted"; "fullscreen"; "paused"; "time"; "volume" ]%string.

Section Handlers.

(** The closure that the setter builds for an event. *)
Variable request : user_event → action.

(** The handler of a user event, as far as the provider's state goes. *)
Definition handle (ev : user_event) (s : provider) : provider :=
  makeRequest (requestKey ev) (request ev) s.

Definition handle_all (events : list user_event) (s : provider) : provider :=
  foldl (λ s ev, handle ev s) s events.

Lemma handle_all_snoc events ev s :
  handle_all (events ++ [ev]) s = handle ev (handle_all events s).
Proof. unfold handle_all. by rewrite foldl_app. Qed.

Lemma requestKey_known ev : requestKey ev ∈ userRequestKeys.
Proof. destruct ev; unfold userRequestKeys; simpl; set_solver. Qed.

(** [makeRequest] adds no key but its own. *)
Lemma makeRequest_keys k f s k' :
  k' ∈ JsMap.keys (requestQueue (makeRequest k f s)) →
  k' = k ∨ k' ∈ JsMap.keys (requestQueue s).
Proof.
  destruct (truthy (canPlay s)) eqn:Hcan.
  - rewrite CoreRequests.makeRequest_ready by done. cbv zeta.
    change (requestQueue (set_requestQueue ?q ?x)) with q.
    intros Hin. apply JsMap.elem_of_keys_delete in Hin as [_ Hin].
    destruct (CoreRequests.safelyMakeRequest_queue k
                (set_requestQueue (JsMap.set k f (requestQueue s)) s)) as [E | E];
      rewrite E in Hin.
    + by apply JsMap.elem_of_keys_set in Hin.
    + apply JsMap.elem_of_keys_delete in Hin as [_ Hin].
      by apply JsMap.elem_of_keys_set in Hin.
  - rewrite makeRequest_queued by done.
    change (requestQueue (set_requestQueue ?q ?x)) with q.
    intros Hin. by apply JsMap.elem_of_keys_set in Hin.
Qed.

(** X17.  However many user events arrive, the queue holds at most one
    request for each of the five properties they act on: it never holds more
    than five requests. *)
Theorem user_requests_stay_bounded (events : list user_event) (s : provider) :
  wf s →
  (∀ k, k ∈ JsMap.keys (requestQueue s) → k ∈ userRequestKeys) →
  let s' := handle_all events s in
  wf s'
  ∧ (∀ k, k ∈ JsMap.keys (requestQueue s') → k ∈ userRequestKeys)
  ∧ JsMap.size (requestQueue s') ≤ 5.
Proof.
  intros Hwf Hkeys. cbv zeta.
  assert (wf (handle_all events s)
          ∧ ∀ k, k ∈ JsMap.keys (requestQueue (handle_all events s)) →
                 k ∈ userRequestKeys) as [Hwf' Hkeys'].
  { induction events as [|ev events IH] using rev_ind; [done|].
    rewrite handle_all_snoc. destruct IH as [IHwf IHkeys]. split.
    - by apply wf_makeRequest.
    - intros k Hin. apply makeRequest_keys in Hin as [-> | Hin];
        [apply requestKey_known|by apply IHkeys]. }
  split; [done|]. split; [done|].
  unfold JsMap.size. rewrite <- (length_fmap fst).
  change 5 with (length userRequestKeys).
  apply submseteq_length, NoDup_submseteq; [apply (wf_queue _ Hwf')|done].
Qed.


End Handlers.

Lemma user_requests_stay_bounded_witness :
  let request := λ ev, Action 7 Returns in
  let events := [ VdsUserPlayEvent; VdsUserVolumeChangeEvent (VNum 500);
                  VdsUserPauseEvent ] in
  wf (init ∅)
  ∧ JsMap.size (requestQueue (handle_all request events (init ∅))) ≤ 5.
Proof.
  intros request events.
  assert (∀ k : string, k ∈ JsMap.keys (requestQueue (init ∅)) → k ∈ userRequestKeys)
    as Hkeys.
  { intros k Hin. by apply elem_of_nil in Hin. }
  split; [exact (wf_init ∅)|].
  exact (proj2 (proj2 (user_requests_stay_bounded request events (init ∅)
                         (wf_init ∅) Hkeys))).
Defined.


End CoreUserEvents.

(** * [hostedStoreSubscription] and the life of its host

    <<
    let unsubscribe: () => void;
    host.addController({
      hostConnected() {
        unsubscribe = (consumer?.value ?? store).subscribe(onChange);
      },
      hostDisconnected() { unsubscribe?.(); }
    });
    >>
    The store is whatever the host resolves when it connects; what is
    recorded of it is what the controller calls: [subscribe], which returns
    a disposer, and the disposers. *)
Module HostedSubscription.

(** A call the controller makes. *)
Inductive store_call :=
| Subscribe (store : nat) (disposer : nat)
| Dispose (disposer : nat).

#[global] Instance store_call_eq_dec : EqDecision store_call.
Proof. solve_decision. Defined.

Record controller := Controller {
  (* let unsubscribe: () => void; None while it is undefined *)
  unsubscribe : option nat;
  (* the calls made so far, oldest first *)
  calls : list store_call;
  (* the next disposer a store hands out *)
  nextDisposer : nat
}.

(** [hostedStoreSubscription(host, store, onChange)] *)
Definition hostedStoreSubscription : controller := Controller None [] 0.

(** [hostConnected()], where [consumer?.value ?? store] evaluates to [store];
    the store hands out a disposer it has not handed out before. *)
Definition hostConnected (store : nat) (c : controller) : controller :=
  Controller (Some (nextDisposer c))
    (calls c ++ [Subscribe store (nextDisposer c)])
    (S (nextDisposer c)).

(** [hostDisconnected()] *)
Definition hostDisconnected (c : controller) : controller :=
  match unsubscribe c with
  | Some d => Controller (unsubscribe c) (calls c ++ [Dispose d]) (nextDisposer c)
  | None => c
  end.

Inductive host_event :=
| Connected (store : nat)
| Disconnected.

Definition handle (ev : host_event) (c : controller) : controller :=
  match ev with
  | Connected store => hostConnected store c
  | Disconnected => hostDisconnected c
  end.

Definition run (events : list host_event) (c : controller) : controller :=
  foldl (λ c ev, handle ev c) c events.

(** A subscription is live when its disposer was handed out and never
    called. *)
Definition live (d : nat) (l : list store_call) : Prop :=
  (∃ store, Subscribe store d ∈ l) ∧ Dispose d ∉ l.

(** How often a disposer was called. *)
Definition disposals (d : nat) (l : list store_call) : nat :=
  length (filter (λ call, call = Dispose d) l).

(** The life of a host: it connects and disconnects in turn.  [connected]
    says whether it is connected before the events. *)
Fixpoint lifecycle (connected : bool) (events : list host_event) : Prop :=
  match events with
  | [] => True
  | Connected _ :: rest => connected = false ∧ lifecycle true rest
  | Disconnected :: rest => connected = true ∧ lifecycle false rest
  end.

(** Whether the host is connected after the events. *)
Fixpoint connected_after (connected : bool) (events : list host_event) : bool :=
  match events with
  | [] => connected
  | Connected _ :: rest => connected_after true rest
  | Disconnected :: rest => connected_after false rest
  end.

(** What holds of a controller between the events of its host's life. *)
Record settled (connected : bool) (c : controller) : Prop := Settled {
  settled_fresh : ∀ store d, Subscribe store d ∈ calls c → d < nextDisposer c;
  settled_disposed : ∀ d, Dispose d ∈ calls c → ∃ store, Subscribe store d ∈ calls c;
  settled_once : ∀ d, disposals d (calls c) ≤ 1;
  settled_live : ∀ d, live d (calls c) ↔ connected = true ∧ unsubscribe c = Some d;
  settled_connected : connected = true → is_Some (unsubscribe c)
}.

Lemma disposals_none d l : Dispose d ∉ l → disposals d l = 0.
Proof.
  intros Hout. unfold disposals.
  destruct (filter _ l) as [|call rest] eqn:E; [done|].
  assert (call ∈ filter (λ call, call = Dispose d) l) as Hin.
  { rewrite E. by apply elem_of_cons, or_introl. }
  apply list_elem_of_filter in Hin as [-> Hin]. done.
Qed.

Lemma disposals_snoc d call l :
  disposals d (l ++ [call])
  = disposals d l + (if decide (call = Dispose d) then 1 else 0).
Proof.
  unfold disposals. rewrite filter_app, length_app. f_equal.
  destruct (decide (call = Dispose d)) as [E | E].
  - by rewrite filter_cons_True.
  - by rewrite filter_cons_False.
Qed.

Lemma settled_start : settled false hostedStoreSubscription.
Proof.
  split; simpl.
  - intros store d H. by apply elem_of_nil in H.
  - intros d H. by apply elem_of_nil in H.
  - intros d. unfold disposals. simpl. lia.
  - intros d. split; [|by intros [? _]].
    intros [[store H] _]. by apply elem_of_nil in H.
  - done.
Qed.

Lemma settled_hostConnected store c :
  settled false c → settled true (hostConnected store c).
Proof.
  intros [Hfresh Hdisposed Honce Hlive Hconn].
  assert (∀ d, Dispose d ∈ calls c ++ [Subscribe store (nextDisposer c)]
               ↔ Dispose d ∈ calls c) as Hdis.
  { intros d. rewrite elem_of_app, list_elem_of_singleton. naive_solver. }
  split; simpl.
  - intros store' d. rewrite elem_of_app, list_elem_of_singleton.
    intros [Hin | [= _ ->]]; [|lia]. specialize (Hfresh _ _ Hin). lia.
  - intros d Hin. apply Hdis in Hin. destruct (Hdisposed d Hin) as [store' H].
    exists store'. apply elem_of_app. by left.
  - intros d. rewrite disposals_snoc. rewrite decide_False by done.
    specialize (Honce d). lia.
  - intros d. unfold live. rewrite Hdis. split.
    + intros [[store' Hin] Hout]. split; [done|].
      apply elem_of_app in Hin as [Hin | Hin].
      * assert (live d (calls c)) as Hl by (split; [by exists store'|done]).
        apply Hlive in Hl as [? _]. done.
      * apply list_elem_of_singleton in Hin. by injection Hin as _ ->.
    + intros [_ [= <-]]. split.
      * exists store. apply elem_of_app. right. by apply list_elem_of_singleton.
      * intros Hin. destruct (Hdisposed _ Hin) as [store' H].
        specialize (Hfresh _ _ H). lia.
  - by eexists.
Qed.

Lemma settled_hostDisconnected c :
  settled true c → settled false (hostDisconnected c).
Proof.
  intros [Hfresh Hdisposed Honce Hlive Hconn].
  destruct (Hconn eq_refl) as [d0 Hd0]. unfold hostDisconnected. rewrite Hd0.
  assert (live d0 (calls c)) as [[store0 Hsub0] Hout0] by by apply Hlive.
  split; simpl.
  - intros store d. rewrite elem_of_app, list_elem_of_singleton.
    intros [Hin | [=]]. by apply (Hfresh store).
  - intros d. rewrite elem_of_app, list_elem_of_singleton.
    intros [Hin | [= ->]].
    + destruct (Hdisposed d Hin) as [store H]. exists store.
      apply elem_of_app. by left.
    + exists store0. apply elem_of_app. by left.
  - intros d. rewrite disposals_snoc.
    destruct (decide (Dispose d0 = Dispose d)) as [[= <-] | Hne].
    + rewrite disposals_none by done. lia.
    + specialize (Honce d). lia.
  - intros d. split; [|by intros [? _]].
    intros [[store Hin] Hout]. exfalso.
    apply elem_of_app in Hin as [Hin | Hin];
      [|by apply list_elem_of_singleton in Hin].
    assert (live d (calls c)) as Hl.
    { split; [by exists store|]. intros H. apply Hout, elem_of_app. by left. }
    apply Hlive in Hl as [_ Hd]. rewrite Hd0 in Hd. injection Hd as <-.
    apply Hout, elem_of_app. right. by apply list_elem_of_singleton.
  - done.
Qed.

Lemma settled_run events connected c :
  lifecycle connected events → settled connected c →
  settled (connected_after connected events) (run events c).
Proof.
  revert connected c. induction events as [|ev events IH]; intros connected c; [done|].
  destruct ev as [store|]; simpl; intros [-> Hlife] Hc.
  - apply IH; [done|]. by apply settled_hostConnected.
  - apply IH; [done|]. by apply settled_hostDisconnected.
Qed.

(** X19.  Over the life of a host, which connects and disconnects in
    turn, the controller keeps at most one subscription: while the host is
    connected the subscription made by the last [hostConnected] is live and
    no other; while it is disconnected none is.  No disposer is called
    twice. *)
Theorem subscription_lives_with_host (events : list host_event) :
  lifecycle false events →
  let c := run events hostedStoreSubscription in
  let connected := connected_after false events in
  (∀ d, live d (calls c) ↔ connected = true ∧ unsubscribe c = Some d)
  ∧ (∀ d, disposals d (calls c) ≤ 1)
  ∧ (connected = true → is_Some (unsubscribe c)).
Proof.
  intros Hlife.
  destruct (settled_run events false hostedStoreSubscription Hlife settled_start)
    as [_ _ Honce Hlive Hconn].
  done.
Qed.

Lemma subscription_lives_with_host_witness :
  lifecycle false [Connected 1; Disconnected; Connected 2]
  ∧ ∀ d, live d (calls (run [Connected 1; Disconnected; Connected 2]
                          hostedStoreSubscription))
         ↔ true = true ∧ Some 1 = Some d.
Proof.
  assert (lifecycle false [Connected 1; Disconnected; Connected 2]) as H
    by (simpl; done).
  split; [exact H|].
  exact (proj1 (subscription_lives_with_host _ H)).
Defined.

(** A [hostDisconnected] before any [hostConnected] calls nothing.  A host
    that connected twice in a row would leave its first subscription live,
    and one that disconnected twice in a row would call its disposer
    twice: [unsubscribe] is not cleared. *)
Example outside_the_lifecycle :
  hostDisconnected hostedStoreSubscription = hostedStoreSubscription
  ∧ live 0 (calls (run [Connected 1; Connected 1; Disconnected]
                     hostedStoreSubscription))
  ∧ disposals 0 (calls (run [Connected 1; Disconnected; Disconnected]
                          hostedStoreSubscription)) = 2.
Proof.
  split; [done|]. split; [|done]. split.
  - exists 1. simpl. set_solver.
  - simpl. set_solver.
Qed.

End HostedSubscription.
